(** * Round-robin fixtures and standings of the tournament workspace

    A shallow embedding of the two computations of
    [src/components/TournamentWorkspace.tsx]: the circle-method fixture
    generator [handleGenerateSchedule] and the standings table [standings]
    with its helper [toTrueOvers].  The near-duplicate copy of the component
    ([src/unnamed/part_002]) is embedded next to it where the two differ.

    JavaScript numbers are modelled as exact rationals [Q]: a number the
    code holds stands for the rational it denotes, and sums, differences and
    quotients are exact where the code rounds to the nearest double.
    Counters, points and comparisons of stored numbers are not affected;
    quotients such as a net run rate can differ from the code's in the last
    binary digits.  [undefined] in an optional field is [None]; arrays are
    lists.  The module [Binary64] replays [toTrueOvers] on IEEE 754 double
    precision numbers and relates it to the rational model. *)

From Stdlib Require Import List String Ascii Bool Arith ZArith QArith.
From Stdlib Require Import Qround Qminmax Qabs Lia Lqa.
From Stdlib Require Import Sorting.Sorted Sorting.Permutation.
From Stdlib Require Import DecimalString.
From Stdlib Require OrderedTypeEx DecimalNat.
From Stdlib Require Import Numbers.Cyclic.Int63.Uint63.
From Stdlib Require Import Floats.PrimFloat Floats.FloatOps Floats.SpecFloat.
Import ListNotations.

Local Open Scope string_scope.
Local Open Scope list_scope.
Local Open Scope Q_scope.

(* ================================================================== *)
(** ** The fragment of JavaScript the component relies on *)
(* ================================================================== *)

Module JS.

(** A JavaScript [number], read as an exact rational. *)
Definition number : Type := Q.

(** [Math.floor]. *)
Definition Math_floor (x : number) : number := inject_Z (Qfloor x).

(** [Math.round]: nearest integer, halves rounded towards plus infinity. *)
Definition Math_round (x : number) : number := inject_Z (Qfloor (x + (1 # 2))).

Definition Math_min (x y : number) : number := Qmin x y.
Definition Math_max (x y : number) : number := Qmax x y.

(** [x === y] and [x !== y] on numbers. *)
Definition num_eq (x y : number) : bool := Qeq_bool x y.
Definition num_neq (x y : number) : bool := negb (Qeq_bool x y).

(** [x > y] on numbers. *)
Definition num_gt (x y : number) : bool := negb (Qle_bool x y).

(** [x || d] on numbers: zero is falsy. *)
Definition or_else (x d : number) : number := if Qeq_bool x 0 then d else x.

(** [x || d] where [x] may be [NaN], written [None]. *)
Definition nan_or_else (x : option number) (d : number) : number :=
  match x with
  | Some v => or_else v d
  | None => d
  end.

(** [x ?? d]. *)
Definition nullish {A : Type} (x : option A) (d : A) : A :=
  match x with
  | Some v => v
  | None => d
  end.

(** [x !== undefined]. *)
Definition defined {A : Type} (x : option A) : bool :=
  match x with
  | Some _ => true
  | None => false
  end.

(** Array indexing [a[i]] with a numeric index: [undefined] out of range. *)
Definition index {A : Type} (a : list A) (i : Z) : option A :=
  if (i <? 0)%Z then None else nth_error a (Z.to_nat i).

(** [a.pop()]: the last element (if any) and the shortened array. *)
Definition pop {A : Type} (a : list A) : option A * list A :=
  match rev a with
  | [] => (None, [])
  | x :: r => (Some x, rev r)
  end.

(** [a.splice(i, 0, x)]: insert [x] at position [i] (clamped to the length). *)
Definition splice_insert {A : Type} (i : nat) (x : A) (a : list A) : list A :=
  firstn i a ++ x :: skipn i a.

(** [a.slice(-k)]: the last [k] elements. *)
Definition slice_last {A : Type} (k : nat) (a : list A) : list A :=
  skipn (List.length a - k) a.

(** Template-literal rendering of a natural number and of an integer. *)
Definition show_nat (n : nat) : string := NilEmpty.string_of_uint (Nat.to_uint n).
Definition show_Z (z : Z) : string := NilZero.string_of_int (Z.to_int z).

(** *** [parseFloat] on decimal literals

    Leading white space is skipped, then the longest prefix of the shape
    [sign digits . digits exponent] is read; [None] stands for [NaN].
    The value is the exact rational of the literal.  Outside the decimal
    literals that a double holds the model and the code part: the literal
    [Infinity] has no rational value and is not recognised, white space
    other than the ASCII one is not skipped, and a literal beyond the
    range of the doubles keeps its value where the code has [Infinity] or
    zero. *)

Definition isDigit (c : ascii) : bool :=
  let n := nat_of_ascii c in (48 <=? n)%nat && (n <=? 57)%nat.

Definition digitVal (c : ascii) : Z := (Z.of_nat (nat_of_ascii c) - 48)%Z.

Definition isWhite (c : ascii) : bool :=
  let n := nat_of_ascii c in
  (n =? 32)%nat || ((9 <=? n)%nat && (n <=? 13)%nat).

Fixpoint skipWhite (s : string) : string :=
  match s with
  | String c r => if isWhite c then skipWhite r else s
  | EmptyString => s
  end.

(** Reads a run of digits: its value, its length and what follows. *)
Fixpoint takeDigits (s : string) (acc : Z) (len : nat) : Z * nat * string :=
  match s with
  | String c r => if isDigit c then takeDigits r (10 * acc + digitVal c)%Z (S len)
                  else (acc, len, s)
  | EmptyString => (acc, len, s)
  end.

Definition takeSign (s : string) : bool * string :=
  match s with
  | String "-" r => (true, r)
  | String "+" r => (false, r)
  | _ => (false, s)
  end.

(** The exponent part, zero when absent or malformed. *)
Definition takeExponent (s : string) : Z :=
  match s with
  | String c r =>
      if (Ascii.eqb c "e" || Ascii.eqb c "E")%bool then
        let '(neg, r1) := takeSign r in
        let '(e, n, _) := takeDigits r1 0%Z 0%nat in
        match n with
        | O => 0%Z
        | S _ => if neg then (- e)%Z else e
        end
      else 0%Z
  | EmptyString => 0%Z
  end.

Definition parseFloat (s : string) : option number :=
  let '(neg, s1) := takeSign (skipWhite s) in
  let '(vi, ni, s2) := takeDigits s1 0%Z 0%nat in
  let '(vf, nf, s3) :=
    match s2 with
    | String "." r => takeDigits r 0%Z 0%nat
    | _ => (0%Z, 0%nat, s2)
    end in
  match (ni + nf)%nat with
  | O => None
  | S _ =>
      let mant := inject_Z vi + inject_Z vf / inject_Z (10 ^ Z.of_nat nf) in
      let v := mant * Qpower (10 # 1) (takeExponent s3) in
      Some (if neg then - v else v)
  end.

End JS.

(* ================================================================== *)
(** ** Data model ([src/types.ts]) *)
(* ================================================================== *)

Inductive TournamentType := TEST | LIMITED_OVERS.

Module Team.
Record t := mk {
  id : string;
  name : string;
  logoUrl : option string;
  owner : option string;
  matchesPlayed : JS.number;
  matchesWon : JS.number;
  matchesLost : JS.number;
  matchesTie : JS.number;
  runsScored : JS.number;
  oversFaced : JS.number;
  runsConceded : JS.number;
  oversBowled : JS.number;
  penalties : JS.number;
  points : JS.number;
  nrr : option JS.number
}.
End Team.

Module Stadium.
Record t := mk { id : string; name : string }.
End Stadium.

Inductive MatchResultType := T1_WIN | T2_WIN | DRAW | TIE | NO_RESULT | ABANDONED.

Inductive MatchStatus := NOT_STARTED | IN_PROGRESS | COMPLETED.

Module Match.
Record t := mk {
  id : string;
  round : nat;
  team1Id : string;
  team2Id : string;
  venueId : string;
  status : MatchStatus;
  resultType : option MatchResultType;
  notes : option string;
  t1Runs : option JS.number;
  t1Wickets : option JS.number;
  t1Overs : option JS.number;
  t2Runs : option JS.number;
  t2Wickets : option JS.number;
  t2Overs : option JS.number;
  tossWinnerId : option string;
  isDlsApplied : option bool
}.
End Match.

Module PenaltyRecord.
Record t := mk {
  id : string;
  teamId : string;
  points : JS.number;
  reason : string;
  date : string
}.
End PenaltyRecord.

Module TournamentConfig.
Record t := mk {
  oversPerMatch : string;
  scheduleFormat : string;
  playoffSystem : string;
  pointsForWin : JS.number;
  pointsForDraw : JS.number;
  pointsForLoss : JS.number;
  officials : list string;
  superOverAllowed : bool;
  dlsEnabled : bool
}.
End TournamentConfig.

Module TournamentHeader.
Record t := mk {
  siteLogoUrl : string;
  tournamentName : string;
  tournamentLogoUrl : string;
  confirmed : bool
}.
End TournamentHeader.

Module TournamentStatus.
Inductive t := UPCOMING | ONGOING | COMPLETED.
End TournamentStatus.

Module Tournament.
Record t := mk {
  id : string;
  name : string;
  type : TournamentType;
  createdDate : string;
  season : option string;
  status : option TournamentStatus.t;
  teams : list Team.t;
  stadiums : list Stadium.t;
  matches : list Match.t;
  penalties : list PenaltyRecord.t;
  config : TournamentConfig.t;
  header : TournamentHeader.t;
  teamsCount : JS.number
}.
End Tournament.

Inductive WorkspaceTab := DASHBOARD | INFO | SCHEDULE | RESULTS | POINTS | SETTINGS.

(** [resultType] carries a decidable equality ([res === 'TIE'] and the like). *)
Definition result_eqb (a b : MatchResultType) : bool :=
  match a, b with
  | T1_WIN, T1_WIN | T2_WIN, T2_WIN | DRAW, DRAW | TIE, TIE
  | NO_RESULT, NO_RESULT | ABANDONED, ABANDONED => true
  | _, _ => false
  end.

(** [res === r] where [res] may be [undefined]. *)
Definition res_is (res : option MatchResultType) (r : MatchResultType) : bool :=
  match res with
  | Some x => result_eqb x r
  | None => false
  end.

Definition status_eqb (a b : MatchStatus) : bool :=
  match a, b with
  | NOT_STARTED, NOT_STARTED | IN_PROGRESS, IN_PROGRESS | COMPLETED, COMPLETED => true
  | _, _ => false
  end.

(* ================================================================== *)
(** ** [toTrueOvers] *)
(* ================================================================== *)

(** Overs in [overs.balls] notation to a true number of overs, in exact
    arithmetic: the code's computation without the rounding of its four
    operations.  [Binary64.toTrueOvers] is the computation on doubles;
    [readsDigit] compares the two on the figures of a scorecard. *)
Definition toTrueOvers (overs : JS.number) : JS.number :=
  let integerPart := JS.Math_floor overs in
  let balls := (overs - integerPart) * 10 in
  let validBalls := JS.Math_min (JS.Math_round balls) 6 in
  integerPart + (validBalls / 6).

(* ================================================================== *)
(** ** Fixture generation ([handleGenerateSchedule]) *)
(* ================================================================== *)

(** The two ambient sources the generator reads: the [k]-th value returned
    by [Math.random()] and the [k]-th value returned by [Date.now()]. *)
Module Env.
Record t := mk {
  random : nat -> JS.number;
  now : nat -> Z
}.
End Env.

(** [{ id: 'BYE', name: 'BYE' } as any]: only [id] is ever read from the
    entries of the pool, the remaining fields are filled with neutral values. *)
Definition byeTeam : Team.t :=
  Team.mk "BYE" "BYE" None None 0 0 0 0 0 0 0 0 0 0 None.

(** [t.id !== 'BYE']. *)
Definition notBye (t : Team.t) : bool := negb (Team.id t =? "BYE")%string.

(** [teamPool.splice(1, 0, teamPool.pop()!)].  The pool is never empty when
    the generator rotates it; an empty pool is left as it is. *)
Definition rotate {A : Type} (teamPool : list A) : list A :=
  match JS.pop teamPool with
  | (Some x, rest) => JS.splice_insert 1 x rest
  | (None, rest) => rest
  end.

(** [tournament.stadiums[Math.floor(Math.random() * tournament.stadiums.length)]]
    followed by [venue?.id || 'neutral']; [k] counts the earlier draws. *)
Definition pickVenue (e : Env.t) (k : nat) (stadiums : list Stadium.t) : string :=
  let venue :=
    JS.index stadiums
      (Qfloor (Env.random e k * inject_Z (Z.of_nat (List.length stadiums)))) in
  match venue with
  | Some v => if (Stadium.id v =? "")%string then "neutral" else Stadium.id v
  | None => "neutral"
  end.

(** The object literal pushed on [matches]. *)
Definition newMatch (e : Env.t) (stadiums : list Stadium.t)
    (r m k : nat) (t1 t2 : Team.t) : Match.t :=
  let venueId := pickVenue e k stadiums in
  Match.mk
    ("M-R" ++ JS.show_nat (r + 1) ++ "-" ++ JS.show_nat m ++ "-"
       ++ JS.show_Z (Env.now e k))%string
    (r + 1) (Team.id t1) (Team.id t2) venueId NOT_STARTED
    None None None None None None None None None None.

(** Body of the inner loop, for one value of [m].  Both reads of the pool
    are in range whenever [m < matchesPerRound] (lemma [pool_reads_in_range]),
    so the default of [nth] is never returned. *)
Definition pairingStep (e : Env.t) (stadiums : list Stadium.t)
    (teamPool : list Team.t) (r : nat) (matches : list Match.t) (m : nat)
    : list Match.t :=
  let t1 := nth m teamPool byeTeam in
  let t2 := nth (List.length teamPool - 1 - m) teamPool byeTeam in
  if notBye t1 && notBye t2
  then matches ++ [newMatch e stadiums r m (List.length matches) t1 t2]
  else matches.

(** Body of the outer loop, for one value of [r]: the inner loop, then the
    rotation of the pool. *)
Definition roundStep (e : Env.t) (stadiums : list Stadium.t) (matchesPerRound : nat)
    (st : list Team.t * list Match.t) (r : nat) : list Team.t * list Match.t :=
  let '(teamPool, matches) := st in
  (rotate teamPool,
   fold_left (pairingStep e stadiums teamPool r) (seq 0 matchesPerRound) matches).

(** The pool after the optional bye has been pushed. *)
Definition initialPool (teams : list Team.t) : list Team.t :=
  if (List.length teams mod 2 =? 0)%nat then teams else teams ++ [byeTeam].

(** The match list built by [handleGenerateSchedule] once the guard on the
    number of teams has passed.  The pool has even length, so
    [teamPool.length / 2] is an integer. *)
Definition generateMatches (e : Env.t) (teams : list Team.t)
    (stadiums : list Stadium.t) : list Match.t :=
  let teamPool := initialPool teams in
  let numRounds := (List.length teamPool - 1)%nat in
  let matchesPerRound := (List.length teamPool / 2)%nat in
  snd (fold_left (roundStep e stadiums matchesPerRound) (seq 0 numRounds)
         (teamPool, [])).

(** What the component holds besides its props: the tournament it shows
    (replaced through [onUpdateTournament]), three pieces of React state and
    the messages shown with [alert]. *)
Module UI.
Record t := mk {
  tournament : Tournament.t;
  confirmingAction : option (string * option string * option string);
  securityInput : string;
  activeTab : WorkspaceTab;
  alerts : list string
}.
End UI.

Definition insufficientTeamsMessage : string := "LOGIC ERROR: Need at least 2 teams!".

(** [{ ...tournament, matches, status: 'UPCOMING' }]. *)
Definition withSchedule (t : Tournament.t) (matches : list Match.t) : Tournament.t :=
  Tournament.mk (Tournament.id t) (Tournament.name t) (Tournament.type t)
    (Tournament.createdDate t) (Tournament.season t) (Some TournamentStatus.UPCOMING)
    (Tournament.teams t) (Tournament.stadiums t) matches
    (Tournament.penalties t) (Tournament.config t) (Tournament.header t)
    (Tournament.teamsCount t).

Definition handleGenerateSchedule (e : Env.t) (ui : UI.t) : UI.t :=
  let tournament := UI.tournament ui in
  let teams := Tournament.teams tournament in
  if (List.length teams <? 2)%nat then
    UI.mk tournament (UI.confirmingAction ui) (UI.securityInput ui)
      (UI.activeTab ui) (UI.alerts ui ++ [insufficientTeamsMessage])
  else
    let matches := generateMatches e teams (Tournament.stadiums tournament) in
    UI.mk (withSchedule tournament matches) None "" SCHEDULE
      (UI.alerts ui ++ ["SCHEDULE GENERATED SUCCESSFULLY!"]).

(** The outcome of a call as the caller observes it. *)
Inductive ScheduleOutcome :=
| InsufficientTeams
| Scheduled (matches : list Match.t).

Definition generateSchedule (e : Env.t) (ui : UI.t) : ScheduleOutcome :=
  if (List.length (Tournament.teams (UI.tournament ui)) <? 2)%nat
  then InsufficientTeams
  else Scheduled (Tournament.matches (UI.tournament (handleGenerateSchedule e ui))).

(** *** Index-level view of the circle method *)

(** The pairs read in one round from a pool: seat [m] against seat
    [length - 1 - m]. *)
Definition roundPairs {A : Type} (d : A) (pool : list A) : list (A * A) :=
  map (fun m => (nth m pool d, nth (List.length pool - 1 - m) pool d))
      (seq 0 (List.length pool / 2)).

(** The pool at the start of round [r] (counted from zero). *)
Definition poolAt {A : Type} (r : nat) (pool : list A) : list A :=
  Nat.iter r rotate pool.

(** All seatings of a pool, tagged with the round, in generation order. *)
Definition allPairs {A : Type} (d : A) (pool : list A) : list (nat * (A * A)) :=
  flat_map (fun r => map (fun p => (r, p)) (roundPairs d (poolAt r pool)))
           (seq 0 (List.length pool - 1)).

(** An unordered pair of seats, smaller seat first. *)
Definition normPair (p : nat * nat) : nat * nat :=
  (Nat.min (fst p) (snd p), Nat.max (fst p) (snd p)).

(** What a match records of a pairing. *)
Definition fixture (m : Match.t) : nat * string * string :=
  (Match.round m, Match.team1Id m, Match.team2Id m).

(** [pairs m a b]: match [m] is played between the teams with ids [a] and [b]. *)
Definition pairs (m : Match.t) (a b : string) : bool :=
  ((Match.team1Id m =? a)%string && (Match.team2Id m =? b)%string)
  || ((Match.team1Id m =? b)%string && (Match.team2Id m =? a)%string).

(** Number of rounds the specification announces for [n] teams. *)
Definition expectedRounds (n : nat) : nat :=
  if Nat.even n then (n - 1)%nat else n.

(* ================================================================== *)
(** ** Standings ([standings]) *)
(* ================================================================== *)

(** The counters among the local variables of the per-team callback. *)
Module Acc.
Record t := mk {
  mp : Z;
  mw : Z;
  ml : Z;
  mt : Z;
  nr : Z;
  pts : JS.number;
  form : list string
}.

Definition initial : t := mk 0 0 0 0 0 0 [].
End Acc.

(** [{ ...team, mp, mw, ml, mt, nr, pts, nrr, form }]. *)
Module Standing.
Record t := mk {
  team : Team.t;
  mp : Z;
  mw : Z;
  ml : Z;
  mt : Z;
  nr : Z;
  pts : JS.number;
  nrr : JS.number;
  form : list string
}.

Definition name (s : t) : string := Team.name (team s).
End Standing.

(** [Array.prototype.sort] with a comparator: a stable sort, here by
    insertion.  [x] goes in front of the first [y] with [cmp x y <= 0]. *)
Fixpoint sortInsert {A : Type} (cmp : A -> A -> JS.number) (x : A) (l : list A) : list A :=
  match l with
  | [] => [x]
  | y :: l' => if Qle_bool (cmp x y) 0 then x :: l else y :: sortInsert cmp x l'
  end.

Definition sort {A : Type} (cmp : A -> A -> JS.number) (l : list A) : list A :=
  fold_right (sortInsert cmp) [] l.

(** The filter that selects the matches of a team. *)
Definition playedBy (team : Team.t) (m : Match.t) : bool :=
  ((Match.team1Id m =? Team.id team)%string || (Match.team2Id m =? Team.id team)%string)
  && status_eqb (Match.status m) COMPLETED.

(** The guard in front of the net-run-rate ledger. *)
Definition ledgerGuard (m : Match.t) : bool :=
  negb (res_is (Match.resultType m) ABANDONED)
  && negb (res_is (Match.resultType m) NO_RESULT)
  && JS.defined (Match.t1Runs m) && JS.defined (Match.t2Runs m).

(** [tournament.penalties.filter(p => p.teamId === team.id)
      .reduce((s, p) => s + (p.points || 0), 0)]. *)
Definition penPts (penalties : list PenaltyRecord.t) (team : Team.t) : JS.number :=
  fold_left (fun s p => s + JS.or_else (PenaltyRecord.points p) 0)
    (filter (fun p => (PenaltyRecord.teamId p =? Team.id team)%string) penalties)
    0.

(** [form.slice(-5).reverse()]. *)
Definition recentForm (form : list string) : list string :=
  rev (JS.slice_last 5 form).

(** The sum of the penalty points recorded against a team. *)
Definition penaltyTotal (penalties : list PenaltyRecord.t) (team : Team.t) : JS.number :=
  fold_right (fun p s => PenaltyRecord.points p + s) 0
    (filter (fun p => (PenaltyRecord.teamId p =? Team.id team)%string) penalties).

(** The points a record of wins, ties, no-results and losses is worth. *)
Definition pointsWorth (config : TournamentConfig.t) (w t n l : Z) : JS.number :=
  inject_Z w * TournamentConfig.pointsForWin config
  + (inject_Z t + inject_Z n) * TournamentConfig.pointsForDraw config
  + inject_Z l * TournamentConfig.pointsForLoss config.

(** The wickets and runs of the side a team occupies, and of the other side. *)
Definition ownWickets (team : Team.t) (m : Match.t) : option JS.number :=
  if (Match.team1Id m =? Team.id team)%string then Match.t1Wickets m else Match.t2Wickets m.

Definition otherWickets (team : Team.t) (m : Match.t) : option JS.number :=
  if (Match.team1Id m =? Team.id team)%string then Match.t2Wickets m else Match.t1Wickets m.



Definition ownOvers (team : Team.t) (m : Match.t) : option JS.number :=
  if (Match.team1Id m =? Team.id team)%string then Match.t1Overs m else Match.t2Overs m.

Definition otherOvers (team : Team.t) (m : Match.t) : option JS.number :=
  if (Match.team1Id m =? Team.id team)%string then Match.t2Overs m else Match.t1Overs m.

(** One more result on the counters: [dw], [dt], [dn], [dl] are the
    increments of [mw], [mt], [nr], [ml]. *)
Definition tally (a : Acc.t) (dw dt dn dl : Z) (p : JS.number) (f : string) : Acc.t :=
  Acc.mk (Acc.mp a) (Acc.mw a + dw) (Acc.ml a + dl) (Acc.mt a + dt) (Acc.nr a + dn)
    (Acc.pts a + p) (Acc.form a ++ [f]).

(** [mp++]. *)
Definition played (a : Acc.t) : Acc.t :=
  Acc.mk (Acc.mp a + 1) (Acc.mw a) (Acc.ml a) (Acc.mt a) (Acc.nr a) (Acc.pts a)
    (Acc.form a).

(** The [if / else if / else] on the result, shared by both copies. *)
Definition recordResult (config : TournamentConfig.t) (isT1 : bool)
    (res : option MatchResultType) (a : Acc.t) : Acc.t :=
  if (isT1 && res_is res T1_WIN) || (negb isT1 && res_is res T2_WIN) then
    tally a 1 0 0 0 (TournamentConfig.pointsForWin config) "W"
  else if res_is res TIE then
    tally a 0 1 0 0 (TournamentConfig.pointsForDraw config) "T"
  else if res_is res NO_RESULT || res_is res ABANDONED then
    tally a 0 0 1 0 (TournamentConfig.pointsForDraw config) "NR"
  else
    tally a 0 0 0 1 (TournamentConfig.pointsForLoss config) "L".

(** [(ts / tf) - (tc / tb)] behind its guard on the two denominators.  The
    quotients are exact; the code rounds each of them, and their
    difference, to a double, so two rates equal here can differ there in
    the last digits. *)
Definition netRunRate (ts tf tc tb : JS.number) : JS.number :=
  if JS.num_gt tf 0 && JS.num_gt tb 0 then (ts / tf) - (tc / tb) else 0.

(** *** [src/components/TournamentWorkspace.tsx] *)

Module Workspace.

(** [parseFloat(tournament.config.oversPerMatch) || 0]. *)
Definition maxO (config : TournamentConfig.t) : JS.number :=
  JS.nan_or_else (JS.parseFloat (TournamentConfig.oversPerMatch config)) 0.

(** The four net-run-rate accumulators among the local variables. *)
Record Ledger := mkLedger {
  totalRunsScored : JS.number;
  totalTrueOversFaced : JS.number;
  totalRunsConceded : JS.number;
  totalTrueOversBowled : JS.number
}.

(** The ledger block, entered when [ledgerGuard] holds. *)
Definition ledger (config : TournamentConfig.t) (isT1 : bool) (m : Match.t)
    (l : Ledger) : Ledger :=
  let rS := if isT1 then JS.nullish (Match.t1Runs m) 0 else JS.nullish (Match.t2Runs m) 0 in
  let wS := if isT1 then JS.nullish (Match.t1Wickets m) 0 else JS.nullish (Match.t2Wickets m) 0 in
  let oS := if isT1 then JS.nullish (Match.t1Overs m) 0 else JS.nullish (Match.t1Overs m) 0 in
  let rC := if isT1 then JS.nullish (Match.t2Runs m) 0 else JS.nullish (Match.t1Runs m) 0 in
  let wC := if isT1 then JS.nullish (Match.t2Wickets m) 0 else JS.nullish (Match.t1Wickets m) 0 in
  let oC := if isT1 then JS.nullish (Match.t2Overs m) 0 else JS.nullish (Match.t1Overs m) 0 in
  mkLedger
    (totalRunsScored l + rS)
    (totalTrueOversFaced l + (if JS.num_eq wS 10 then maxO config else toTrueOvers oS))
    (totalRunsConceded l + rC)
    (totalTrueOversBowled l + (if JS.num_eq wC 10 then maxO config else toTrueOvers oC)).

(** Body of [matches.forEach]. *)
Definition processMatch (config : TournamentConfig.t) (team : Team.t)
    (al : Acc.t * Ledger) (m : Match.t) : Acc.t * Ledger :=
  let '(a, l) := al in
  let a := played a in
  let isT1 := (Match.team1Id m =? Team.id team)%string in
  let res := Match.resultType m in
  let a := recordResult config isT1 res a in
  if ledgerGuard m then (a, ledger config isT1 m l) else (a, l).

(** The local variables of a team once all its matches have been visited. *)
Definition aggregate (tournament : Tournament.t) (team : Team.t) : Acc.t * Ledger :=
  fold_left (processMatch (Tournament.config tournament) team)
    (filter (playedBy team) (Tournament.matches tournament))
    (Acc.initial, mkLedger 0 0 0 0).

(** The callback of [tournament.teams.map]. *)
Definition teamStanding (tournament : Tournament.t) (team : Team.t) : Standing.t :=
  let '(a, l) := aggregate tournament team in
  let nrr := netRunRate (totalRunsScored l) (totalTrueOversFaced l)
               (totalRunsConceded l) (totalTrueOversBowled l) in
  Standing.mk team (Acc.mp a) (Acc.mw a) (Acc.ml a) (Acc.mt a) (Acc.nr a)
    (JS.Math_max 0 (Acc.pts a - penPts (Tournament.penalties tournament) team))
    nrr (recentForm (Acc.form a)).

(** What one match alone contributes to the net run rate of the side
    that is ([isT1]) or is not the first team: the rate of the ledger
    entries it writes. *)
Definition contribution (config : TournamentConfig.t) (isT1 : bool) (m : Match.t)
    : JS.number :=
  let l := ledger config isT1 m (mkLedger 0 0 0 0) in
  totalRunsScored l / totalTrueOversFaced l
  - totalRunsConceded l / totalTrueOversBowled l.


Section Ranking.

(** [String.prototype.localeCompare]: the collation of the host, a
    negative, zero or positive integer. *)
Variable localeCompare : string -> string -> Z.

(** The comparator handed to [data.sort]. *)
Definition compareStandings (a b : Standing.t) : JS.number :=
  let ptsDiff := JS.or_else (Standing.pts b) 0 - JS.or_else (Standing.pts a) 0 in
  if JS.num_neq ptsDiff 0 then ptsDiff else
  let nrrDiff := JS.or_else (Standing.nrr b) 0 - JS.or_else (Standing.nrr a) 0 in
  if JS.num_neq nrrDiff 0 then nrrDiff else
  let mwDiff := JS.or_else (inject_Z (Standing.mw b)) 0
                - JS.or_else (inject_Z (Standing.mw a)) 0 in
  if JS.num_neq mwDiff 0 then mwDiff else
  inject_Z (localeCompare (Standing.name a) (Standing.name b)).

Definition standings (tournament : Tournament.t) : list Standing.t :=
  sort compareStandings
    (map (teamStanding tournament) (Tournament.teams tournament)).

(** The ranking rule in the words of the specification: points, then net
    run rate, then wins, all descending, then the name, ascending. *)
Definition rankedBefore (a b : Standing.t) : Prop :=
  Standing.pts b < Standing.pts a
  \/ (Standing.pts a == Standing.pts b
      /\ (Standing.nrr b < Standing.nrr a
          \/ (Standing.nrr a == Standing.nrr b
              /\ ((Standing.mw b < Standing.mw a)%Z
                  \/ (Standing.mw a = Standing.mw b
                      /\ (localeCompare (Standing.name a) (Standing.name b) < 0)%Z))))).

(** The shorter rule of the specification's ranking determinism
    sentence: points, then net run rate, then the name. *)
Definition rankedBeforeByName (a b : Standing.t) : Prop :=
  Standing.pts b < Standing.pts a
  \/ (Standing.pts a == Standing.pts b
      /\ (Standing.nrr b < Standing.nrr a
          \/ (Standing.nrr a == Standing.nrr b
              /\ (localeCompare (Standing.name a) (Standing.name b) < 0)%Z))).

End Ranking.

End Workspace.

(** *** [src/unnamed/part_002]

    The copy reads wickets and overs through non-null assertions, so an
    [undefined] reaches [toTrueOvers] and turns the accumulator into [NaN],
    written [None]. *)

Module WorkspaceCopy.

(** [parseFloat(tournament.config.oversPerMatch) || 20]. *)
Definition maxO (config : TournamentConfig.t) : JS.number :=
  JS.nan_or_else (JS.parseFloat (TournamentConfig.oversPerMatch config)) 20.

(** The local variables [ts], [tf], [tc], [tb] of the copy. *)
Record Ledger := mkLedger {
  ts : JS.number;
  tf : option JS.number;
  tc : JS.number;
  tb : option JS.number
}.

(** [(w === 10) ? maxO : toTrueOvers(o)] with [w] and [o] possibly [undefined]. *)
Definition trueOvers (config : TournamentConfig.t)
    (w o : option JS.number) : option JS.number :=
  match w with
  | Some wv => if JS.num_eq wv 10 then Some (maxO config) else option_map toTrueOvers o
  | None => option_map toTrueOvers o
  end.

(** [acc += x] where either side may be [NaN]. *)
Definition addNaN (acc x : option JS.number) : option JS.number :=
  match acc, x with
  | Some u, Some v => Some (u + v)
  | _, _ => None
  end.

Definition ledger (config : TournamentConfig.t) (isT1 : bool) (m : Match.t)
    (l : Ledger) : Ledger :=
  let rS := if isT1 then JS.nullish (Match.t1Runs m) 0 else JS.nullish (Match.t2Runs m) 0 in
  let wS := if isT1 then Match.t1Wickets m else Match.t2Wickets m in
  let oS := if isT1 then Match.t1Overs m else Match.t2Overs m in
  let rC := if isT1 then JS.nullish (Match.t2Runs m) 0 else JS.nullish (Match.t1Runs m) 0 in
  let wC := if isT1 then Match.t2Wickets m else Match.t1Wickets m in
  let oC := if isT1 then Match.t2Overs m else Match.t1Overs m in
  mkLedger (ts l + rS) (addNaN (tf l) (trueOvers config wS oS))
           (tc l + rC) (addNaN (tb l) (trueOvers config wC oC)).

Definition processMatch (config : TournamentConfig.t) (team : Team.t)
    (al : Acc.t * Ledger) (m : Match.t) : Acc.t * Ledger :=
  let '(a, l) := al in
  let a := played a in
  let isT1 := (Match.team1Id m =? Team.id team)%string in
  let res := Match.resultType m in
  let a := recordResult config isT1 res a in
  if ledgerGuard m then (a, ledger config isT1 m l) else (a, l).

Definition contribution (config : TournamentConfig.t) (isT1 : bool) (m : Match.t)
    : option JS.number :=
  let l := ledger config isT1 m (mkLedger 0 (Some 0) 0 (Some 0)) in
  match tf l, tb l with
  | Some f, Some b => Some (ts l / f - tc l / b)
  | _, _ => None
  end.

Definition aggregate (tournament : Tournament.t) (team : Team.t) : Acc.t * Ledger :=
  fold_left (processMatch (Tournament.config tournament) team)
    (filter (playedBy team) (Tournament.matches tournament))
    (Acc.initial, mkLedger 0 (Some 0) 0 (Some 0)).

(** [(tf > 0 && tb > 0) ? (ts / tf) - (tc / tb) : 0]; a comparison with
    [NaN] is false. *)
Definition ledgerRunRate (l : Ledger) : JS.number :=
  match tf l, tb l with
  | Some f, Some b => netRunRate (ts l) f (tc l) b
  | _, _ => 0
  end.

Definition teamStanding (tournament : Tournament.t) (team : Team.t) : Standing.t :=
  let '(a, l) := aggregate tournament team in
  Standing.mk team (Acc.mp a) (Acc.mw a) (Acc.ml a) (Acc.mt a) (Acc.nr a)
    (JS.Math_max 0 (Acc.pts a - penPts (Tournament.penalties tournament) team))
    (ledgerRunRate l) (recentForm (Acc.form a)).

Section Ranking.

Variable localeCompare : string -> string -> Z.

(** [b.pts - a.pts || b.nrr - a.nrr || a.name.localeCompare(b.name)]. *)
Definition compareStandings (a b : Standing.t) : JS.number :=
  JS.or_else (Standing.pts b - Standing.pts a)
    (JS.or_else (Standing.nrr b - Standing.nrr a)
       (inject_Z (localeCompare (Standing.name a) (Standing.name b)))).

Definition standings (tournament : Tournament.t) : list Standing.t :=
  sort compareStandings
    (map (teamStanding tournament) (Tournament.teams tournament)).

End Ranking.

End WorkspaceCopy.

(* ================================================================== *)
(** ** [toTrueOvers] on IEEE 754 binary64 numbers *)
(* ================================================================== *)

Module Binary64.

(** The double nearest to an integer (exact below [2^53]). *)
Definition ofZ (z : Z) : float :=
  if (z <? 0)%Z then PrimFloat.opp (PrimFloat.of_uint63 (Uint63.of_Z (- z)))
  else PrimFloat.of_uint63 (Uint63.of_Z z).

(** The double a decimal literal [k.b] denotes: the correctly rounded
    quotient of [10 k + b] by ten. *)
Definition literal (k b : Z) : float :=
  PrimFloat.div (ofZ (10 * k + b)) (ofZ 10).

(** [Math.floor]: doubles with a non-negative exponent are integers
    already; below, the mantissa is shifted exactly. *)
Definition Math_floor (x : float) : float :=
  match Prim2SF x with
  | S754_finite s m e =>
      if (0 <=? e)%Z then x
      else ofZ (Z.shiftr (if s then Z.neg m else Z.pos m) (- e))
  | _ => x
  end.

(** [Math.round]: the floor of the exact sum with one half. *)
Definition Math_round (x : float) : float :=
  match Prim2SF x with
  | S754_finite s m e =>
      if (0 <=? e)%Z then x
      else ofZ (Z.shiftr ((if s then Z.neg m else Z.pos m) + 2 ^ (- e - 1)) (- e))
  | _ => x
  end.

(** [Math.min]: [NaN] if either argument is. *)
Definition Math_min (x y : float) : float :=
  if PrimFloat.is_nan y then y
  else if PrimFloat.ltb y x then y else x.

Definition toTrueOvers (overs : float) : float :=
  let integerPart := Math_floor overs in
  let balls := PrimFloat.mul (PrimFloat.sub overs integerPart) (ofZ 10) in
  let validBalls := Math_min (Math_round balls) (ofZ 6) in
  PrimFloat.add integerPart (PrimFloat.div validBalls (ofZ 6)).

(** The value the specification announces for [k.b], computed in doubles. *)
Definition announced (k b : Z) : float :=
  PrimFloat.add (ofZ k) (PrimFloat.div (ofZ (Z.min b 6)) (ofZ 6)).

(** The rational a finite double denotes (zero for the others). *)
Definition exact (x : float) : JS.number :=
  match Prim2SF x with
  | S754_finite s m e =>
      let z := if s then Z.neg m else Z.pos m in
      if (0 <=? e)%Z then inject_Z (z * 2 ^ e)
      else Qmake z (Z.to_pos (2 ^ (- e)))
  | _ => 0
  end.

(** [|x - y| <= eps]. *)
Definition within (x y eps : float) : bool :=
  PrimFloat.leb (PrimFloat.abs (PrimFloat.sub x y)) eps.

End Binary64.

(** What is checked of the literal [k.b]: the double computation finds the
    integer part [k], rounds the ball figure to [b] and returns the
    announced value; the rational model, run on the rational the double
    denotes, returns [k + min(b, 6) / 6], and the double result denotes a
    rational within a billionth of it. *)
Definition readsDigit (k b : nat) : bool :=
  let overs := Binary64.literal (Z.of_nat k) (Z.of_nat b) in
  let balls := PrimFloat.mul (PrimFloat.sub overs (Binary64.Math_floor overs)) (Binary64.ofZ 10) in
  PrimFloat.eqb (Binary64.Math_floor overs) (Binary64.ofZ (Z.of_nat k))
  && PrimFloat.eqb (Binary64.Math_round balls) (Binary64.ofZ (Z.of_nat b))
  && PrimFloat.eqb (Binary64.toTrueOvers overs) (Binary64.announced (Z.of_nat k) (Z.of_nat b))
  && Qeq_bool (toTrueOvers (Binary64.exact overs))
       (inject_Z (Z.of_nat k) + inject_Z (Z.min (Z.of_nat b) 6) / 6)
  && Qle_bool (Qabs (Binary64.exact (Binary64.toTrueOvers overs) - toTrueOvers (Binary64.exact overs)))
       (1 # 1000000000).

(** [readsDigit] on every literal [k.b] with [k < bound] and [b] a digit. *)
Definition readsDigitsBelow (bound : nat) : bool :=
  forallb (fun k => forallb (readsDigit k) (seq 0 10)) (seq 0 bound).

(** The points on the counters are worth what the counters say. *)
Definition pointsAccounted (config : TournamentConfig.t) (a : Acc.t) : Prop :=
  Acc.pts a == pointsWorth config (Acc.mw a) (Acc.mt a) (Acc.nr a) (Acc.ml a).

(** The fixture a seating yields, if neither seat holds the bye. *)
Definition keptFixture (p : nat * (Team.t * Team.t)) : list (nat * string * string) :=
  let '(r, (t1, t2)) := p in
  if notBye t1 && notBye t2 then [((r + 1)%nat, Team.id t1, Team.id t2)] else [].

(** The fixtures of a team list, read off the seatings of its pool. *)
Definition scheduleFixtures (teams : list Team.t) : list (nat * string * string) :=
  flat_map keptFixture (allPairs byeTeam (initialPool teams)).

(** The comparator does not put [b] strictly in front of [a]. *)
Definition notAfter (localeCompare : string -> string -> Z) (a b : Standing.t) : Prop :=
  Workspace.compareStandings localeCompare a b <= 0.

(** Two standings agree on the three numeric keys. *)
Definition levelOnKeys (a b : Standing.t) : Prop :=
  Standing.pts a == Standing.pts b
  /\ Standing.nrr a == Standing.nrr b
  /\ Standing.mw a = Standing.mw b.

(** [data.sort(comparator)]: the rows of the table in their final order.
    The comparator subtracts numbers the rows hold; on doubles the sign of
    such a difference is the sign of the exact difference, so the rule
    below holds of the rows whatever arithmetic filled them. *)
Definition rankRows (localeCompare : string -> string -> Z) (data : list Standing.t)
    : list Standing.t :=
  sort (Workspace.compareStandings localeCompare) data.

(** Two rows are level: the same three numeric keys, and names on which
    the collation returns zero. *)
Definition rankedLevel (localeCompare : string -> string -> Z) (a b : Standing.t) : Prop :=
  levelOnKeys a b /\ localeCompare (Standing.name a) (Standing.name b) = 0%Z.

(** The comparator returns zero on two rows. *)
Definition comparesLevel (localeCompare : string -> string -> Z) (a b : Standing.t) : bool :=
  Qeq_bool (Workspace.compareStandings localeCompare a b) 0.

(** All unordered pairs of seats below [n], smaller seat first. *)
Definition allUnordered (n : nat) : list (nat * nat) :=
  flat_map (fun j => map (fun i => (i, j)) (seq 0 j)) (seq 0 n).

(** The seats of the index pool [0, 1, ..., n] at round [r]: the seating of
    round [r], seat [m]. *)
Definition seating (n r m : nat) : nat * nat :=
  (nth m (poolAt r (seq 0 (S n))) 0%nat, nth (n - m) (poolAt r (seq 0 (S n))) 0%nat).

(** The circle invariant: after [r] rotations of [0, 1, ..., n] the head is
    still [0] and the entry in seat [j >= 1] is congruent to [j - r]
    modulo [n]. *)
Definition circleAt (n r : nat) (pool : list nat) : Prop :=
  List.length pool = S n
  /\ nth 0 pool 0%nat = 0%nat
  /\ forall j, (1 <= j <= n)%nat ->
       (1 <= nth j pool 0 <= n)%nat
       /\ ((nth j pool 0 + r) mod n = j mod n)%nat.

(** A number that tells the rounds apart: the sum of the two entries, or
    twice the other entry when one of them is the fixed head [0]. *)
Definition pairKey (p : nat * nat) : nat :=
  if (fst p =? 0)%nat then (2 * snd p)%nat
  else if (snd p =? 0)%nat then (2 * fst p)%nat
  else (fst p + snd p)%nat.

(** Both seats hold a team of a list of [n] teams, not the bye. *)
Definition realSeats (n : nat) (p : nat * (nat * nat)) : bool :=
  (fst (snd p) <? n)%nat && (snd (snd p) <? n)%nat.

(** The seatings of [n] teams that yield a match: round and the positions,
    in the team list, of the two sides. *)
Definition playedSeatings (n : nat) : list (nat * (nat * nat)) :=
  let size := if (n mod 2 =? 0)%nat then n else S n in
  filter (realSeats n) (allPairs 0%nat (seq 0 size)).

(** The id of the team at a position of the team list. *)
Definition idAt (teams : list Team.t) (i : nat) : string :=
  Team.id (nth i teams byeTeam).

(** The number of seats of the pool of [n] teams. *)
Definition poolSize (n : nat) : nat :=
  if (n mod 2 =? 0)%nat then n else S n.

(** The fixture a played seating stands for. *)
Definition fixtureOf (teams : list Team.t) (t : nat * (nat * nat)) : nat * string * string :=
  ((fst t + 1)%nat, idAt teams (fst (snd t)), idAt teams (snd (snd t))).

(** Equality of seat pairs is decidable. *)
Definition seat_pair_dec (p q : nat * nat) : {p = q} + {p <> q}.
Proof. decide equality; apply Nat.eq_dec. Defined.

(** [pairs] read on a fixture. *)
Definition fixturePairs (a b : string) (f : nat * string * string) : bool :=
  ((snd (fst f) =? a)%string && (snd f =? b)%string)
  || ((snd (fst f) =? b)%string && (snd f =? a)%string).

(* ================================================================== *)
(** ** Recording results ([saveMatchResult] and the scorecard dialog) *)
(* ================================================================== *)

(** The React state [loForm]. *)
Module LoForm.
Record t := mk {
  t1Runs : JS.number;
  t1Wickets : JS.number;
  t1Overs : JS.number;
  t2Runs : JS.number;
  t2Wickets : JS.number;
  t2Overs : JS.number;
  notes : string;
  isDls : bool;
  isAbandoned : bool
}.
End LoForm.

(** [confirmingAction?.matchId]. *)
Definition pendingMatchId (ui : UI.t) : option string :=
  match UI.confirmingAction ui with
  | Some (_, matchId, _) => matchId
  | None => None
  end.

(** The result [saveMatchResult] derives from the form. *)
Definition resultOfForm (loForm : LoForm.t) : MatchResultType :=
  if negb (LoForm.isAbandoned loForm) then
    if JS.num_gt (LoForm.t1Runs loForm) (LoForm.t2Runs loForm) then T1_WIN
    else if JS.num_gt (LoForm.t2Runs loForm) (LoForm.t1Runs loForm) then T2_WIN
    else TIE
  else ABANDONED.

(** [{ ...match, status: 'COMPLETED', resultType: res, t1Runs: ..., notes, isDlsApplied }]. *)
Definition updatedMatch (loForm : LoForm.t) (m : Match.t) : Match.t :=
  Match.mk (Match.id m) (Match.round m) (Match.team1Id m) (Match.team2Id m)
    (Match.venueId m) COMPLETED (Some (resultOfForm loForm))
    (Some (LoForm.notes loForm))
    (Some (LoForm.t1Runs loForm)) (Some (LoForm.t1Wickets loForm))
    (Some (LoForm.t1Overs loForm))
    (Some (LoForm.t2Runs loForm)) (Some (LoForm.t2Wickets loForm))
    (Some (LoForm.t2Overs loForm))
    (Match.tossWinnerId m) (Some (LoForm.isDls loForm)).

(** [{ ...tournament, matches, status: 'ONGOING' }]. *)
Definition withResults (t : Tournament.t) (matches : list Match.t) : Tournament.t :=
  Tournament.mk (Tournament.id t) (Tournament.name t) (Tournament.type t)
    (Tournament.createdDate t) (Tournament.season t) (Some TournamentStatus.ONGOING)
    (Tournament.teams t) (Tournament.stadiums t) matches
    (Tournament.penalties t) (Tournament.config t) (Tournament.header t)
    (Tournament.teamsCount t).

(** [tournament.matches.map(m => m.id === mId ? updatedMatch : m)], where
    [updatedMatch] is built from [tournament.matches.find(m => m.id === mId)].
    When [find] returns [undefined] no element of the list has the id, so
    the replacement is never used. *)
Definition replaceMatch (loForm : LoForm.t) (mId : string) (matches : list Match.t)
    : list Match.t :=
  let found := find (fun m => (Match.id m =? mId)%string) matches in
  map (fun m => if (Match.id m =? mId)%string
                then match found with
                     | Some m0 => updatedMatch loForm m0
                     | None => m
                     end
                else m)
      matches.

Definition saveMatchResult (loForm : LoForm.t) (ui : UI.t) : UI.t :=
  match pendingMatchId ui with
  | None => ui
  | Some mId =>
      if (mId =? "")%string then ui
      else
        let tournament := UI.tournament ui in
        UI.mk (withResults tournament
                 (replaceMatch loForm mId (Tournament.matches tournament)))
          None (UI.securityInput ui) (UI.activeTab ui) (UI.alerts ui)
  end.

(** The form the scorecard button fills in from a match:
    [{ t1Runs: m.t1Runs || 0, ..., notes: m.notes || '',
       isDls: m.isDlsApplied || false, isAbandoned: m.resultType === 'ABANDONED' }]. *)
Definition scorecardOf (m : Match.t) : LoForm.t :=
  LoForm.mk
    (JS.nan_or_else (Match.t1Runs m) 0) (JS.nan_or_else (Match.t1Wickets m) 0)
    (JS.nan_or_else (Match.t1Overs m) 0)
    (JS.nan_or_else (Match.t2Runs m) 0) (JS.nan_or_else (Match.t2Wickets m) 0)
    (JS.nan_or_else (Match.t2Overs m) 0)
    (JS.nullish (Match.notes m) "")
    (JS.nullish (Match.isDlsApplied m) false)
    (res_is (Match.resultType m) ABANDONED).

(** The scorecard button: [setConfirmingAction({ type: 'SAVE_RESULT', matchId: m.id })]
    next to [setLoForm]. *)
Definition openScorecard (m : Match.t) (ui : UI.t) : LoForm.t * UI.t :=
  (scorecardOf m,
   UI.mk (UI.tournament ui) (Some ("SAVE_RESULT", Some (Match.id m), None))
     (UI.securityInput ui) (UI.activeTab ui) (UI.alerts ui)).

Definition securityAlertMessage : string :=
  "SECURITY ALERT: Validation Failed! Type name exactly.".

Definition handleRegenerateSchedule (e : Env.t) (ui : UI.t) : UI.t :=
  if negb (UI.securityInput ui =? Tournament.name (UI.tournament ui))%string then
    UI.mk (UI.tournament ui) (UI.confirmingAction ui) (UI.securityInput ui)
      (UI.activeTab ui) (UI.alerts ui ++ [securityAlertMessage])
  else handleGenerateSchedule e ui.

(** [{ ...tournament, teams: tournament.teams.map(t => t.id === updated.id ? updated : t) }]. *)
Definition updateTeam (updated : Team.t) (ui : UI.t) : UI.t :=
  let t := UI.tournament ui in
  UI.mk
    (Tournament.mk (Tournament.id t) (Tournament.name t) (Tournament.type t)
       (Tournament.createdDate t) (Tournament.season t) (Tournament.status t)
       (map (fun x => if (Team.id x =? Team.id updated)%string then updated else x)
            (Tournament.teams t))
       (Tournament.stadiums t) (Tournament.matches t)
       (Tournament.penalties t) (Tournament.config t) (Tournament.header t)
       (Tournament.teamsCount t))
    (UI.confirmingAction ui) (UI.securityInput ui) (UI.activeTab ui) (UI.alerts ui).

(** *** The dashboard ([renderDashboard], [renderInfo]) *)

Definition hasStatus (s : MatchStatus) (m : Match.t) : bool :=
  status_eqb (Match.status m) s.

(** [total], [completed], [ongoing] and [remaining]. *)
Module Dashboard.
Record t := mk {
  total : Z;
  completed : Z;
  ongoing : Z;
  remaining : Z
}.
End Dashboard.

Definition dashboardCounts (tournament : Tournament.t) : Dashboard.t :=
  let matches := Tournament.matches tournament in
  let total := Z.of_nat (List.length matches) in
  let completed := Z.of_nat (List.length (filter (hasStatus COMPLETED) matches)) in
  let ongoing := Z.of_nat (List.length (filter (hasStatus IN_PROGRESS) matches)) in
  Dashboard.mk total completed ongoing (total - completed - ongoing)%Z.

(** [Array.from(new Set(a))]: the first occurrence of every value, in order. *)
Fixpoint uniqFrom (seen : list nat) (a : list nat) : list nat :=
  match a with
  | [] => []
  | x :: r => if existsb (Nat.eqb x) seen then uniqFrom seen r
              else x :: uniqFrom (x :: seen) r
  end.

(** [Array.from(new Set(tournament.matches.map(m => m.round))).sort((a, b) => a - b)]. *)
Definition roundList (tournament : Tournament.t) : list nat :=
  sort (fun a b => inject_Z (Z.of_nat a) - inject_Z (Z.of_nat b))
       (uniqFrom [] (map Match.round (Tournament.matches tournament))).

(** [done] and [progress] of the round tracker. *)
Definition roundDone (tournament : Tournament.t) (rNum : nat) : bool :=
  forallb (hasStatus COMPLETED)
    (filter (fun m => (Match.round m =? rNum)%nat) (Tournament.matches tournament)).

Definition roundProgress (tournament : Tournament.t) (rNum : nat) : bool :=
  existsb (fun m => hasStatus COMPLETED m || hasStatus IN_PROGRESS m)
    (filter (fun m => (Match.round m =? rNum)%nat) (Tournament.matches tournament)).

(** [isLocked] of the information tab. *)
Definition isLocked (tournament : Tournament.t) : bool :=
  existsb (hasStatus COMPLETED) (Tournament.matches tournament).

(** The letter [recordResult] appends to the form of a team for a match. *)
Definition formCode (team : Team.t) (m : Match.t) : string :=
  let isT1 := (Match.team1Id m =? Team.id team)%string in
  let res := Match.resultType m in
  if (isT1 && res_is res T1_WIN) || (negb isT1 && res_is res T2_WIN) then "W"
  else if res_is res TIE then "T"
  else if res_is res NO_RESULT || res_is res ABANDONED then "NR"
  else "L".

(** Two optional numbers are both absent or hold equal numbers. *)
Definition sameScore (a b : option JS.number) : Prop :=
  match a, b with
  | Some x, Some y => x == y
  | None, None => True
  | _, _ => False
  end.

(** Two matches agree field by field, numbers compared as numbers. *)
Definition sameMatch (m m' : Match.t) : Prop :=
  Match.id m = Match.id m' /\ Match.round m = Match.round m'
  /\ Match.team1Id m = Match.team1Id m' /\ Match.team2Id m = Match.team2Id m'
  /\ Match.venueId m = Match.venueId m' /\ Match.status m = Match.status m'
  /\ Match.resultType m = Match.resultType m' /\ Match.notes m = Match.notes m'
  /\ sameScore (Match.t1Runs m) (Match.t1Runs m')
  /\ sameScore (Match.t1Wickets m) (Match.t1Wickets m')
  /\ sameScore (Match.t1Overs m) (Match.t1Overs m')
  /\ sameScore (Match.t2Runs m) (Match.t2Runs m')
  /\ sameScore (Match.t2Wickets m) (Match.t2Wickets m')
  /\ sameScore (Match.t2Overs m) (Match.t2Overs m')
  /\ Match.tossWinnerId m = Match.tossWinnerId m'
  /\ Match.isDlsApplied m = Match.isDlsApplied m'.

(** Two scorecard forms hold the same entries, numbers compared as numbers. *)
Definition sameForm (f f' : LoForm.t) : Prop :=
  LoForm.t1Runs f == LoForm.t1Runs f' /\ LoForm.t1Wickets f == LoForm.t1Wickets f'
  /\ LoForm.t1Overs f == LoForm.t1Overs f'
  /\ LoForm.t2Runs f == LoForm.t2Runs f' /\ LoForm.t2Wickets f == LoForm.t2Wickets f'
  /\ LoForm.t2Overs f == LoForm.t2Overs f'
  /\ LoForm.notes f = LoForm.notes f' /\ LoForm.isDls f = LoForm.isDls f'
  /\ LoForm.isAbandoned f = LoForm.isAbandoned f'.

(** How often a letter occurs among the results of a team in a list of
    matches. *)
Definition countCode (team : Team.t) (c : string) (l : list Match.t) : Z :=
  Z.of_nat (count_occ string_dec (map (formCode team) l) c).

(** A string of decimal digits. *)
Fixpoint allDigits (s : string) : bool :=
  match s with
  | EmptyString => true
  | String c r => JS.isDigit c && allDigits r
  end.

(** The id template [M-R${r + 1}-${m}-${Date.now()}] with the clock reading
    already rendered. *)
Definition matchIdOf (r m : nat) (clock : string) : string :=
  ("M-R" ++ JS.show_nat (r + 1) ++ "-" ++ JS.show_nat m ++ "-" ++ clock)%string.

(** An id pushed before the inner loop reaches seat [m0] of round [r0]. *)
Definition pushedBefore (r0 m0 : nat) (i : string) : Prop :=
  exists r m clock,
    i = matchIdOf r m clock /\ ((r < r0)%nat \/ (r = r0 /\ (m < m0)%nat)).

(** The comparator [(a, b) => a - b] of the round list. *)
Definition byNumber (a b : nat) : JS.number :=
  inject_Z (Z.of_nat a) - inject_Z (Z.of_nat b).

(** The colour of a round in the progress tracker. *)
Definition roundColor (tournament : Tournament.t) (rNum : nat) : string :=
  if roundDone tournament rNum then "bg-emerald-400"
  else if roundProgress tournament rNum then "bg-yellow-400"
  else "bg-gray-300".

(** [m.team1Id === id || m.team2Id === id]: match [m] has the team with this
    id on one of its sides. *)
Definition involves (id : string) (m : Match.t) : bool :=
  (Match.team1Id m =? id)%string || (Match.team2Id m =? id)%string.

(** A seat pair has position [i] on one side. *)
Definition seats (i : nat) (p : nat * nat) : bool :=
  (fst p =? i)%nat || (snd p =? i)%nat.

(* ================================================================== *)
(** ** The application shell ([App]) *)
(* ================================================================== *)

Inductive AppView := MAIN | WORKSPACE.

Inductive MainTab := CREATE | MANAGE.

(** The state of [App]: the saved tournaments, the view, the tab of the
    main view and the tournament open in the workspace. *)
Module App.
Record t := mk {
  tournaments : list Tournament.t;
  activeView : AppView;
  activeMainTab : MainTab;
  selectedTournament : option Tournament.t
}.
End App.

Definition handleCreateTournament (newTournament : Tournament.t) (app : App.t) : App.t :=
  App.mk (App.tournaments app ++ [newTournament]) (App.activeView app) MANAGE
    (App.selectedTournament app).

Definition handleUpdateTournament (updated : Tournament.t) (app : App.t) : App.t :=
  App.mk
    (map (fun t => if (Tournament.id t =? Tournament.id updated)%string then updated else t)
         (App.tournaments app))
    (App.activeView app) (App.activeMainTab app) (Some updated).

Definition handleDeleteTournament (id : string) (app : App.t) : App.t :=
  App.mk (filter (fun t => negb (Tournament.id t =? id)%string) (App.tournaments app))
    (App.activeView app) (App.activeMainTab app) (App.selectedTournament app).

Definition handleEnterWorkspace (tournament : Tournament.t) (app : App.t) : App.t :=
  App.mk (App.tournaments app) WORKSPACE (App.activeMainTab app) (Some tournament).

Definition handleExitWorkspace (app : App.t) : App.t :=
  App.mk (App.tournaments app) MAIN MANAGE None.

(** *** The list of saved tournaments ([ManageTournamentList]) *)

Module ManageList.
Record t := mk {
  deleteConfirmId : option string;
  confirmName : string;
  alerts : list string
}.
End ManageList.

Definition nameMismatchMessage : string :=
  "Name mismatch! Type the tournament name exactly to delete.".

Definition handleDeleteAttempt (t : Tournament.t) (l : ManageList.t) : ManageList.t :=
  ManageList.mk (Some (Tournament.id t)) "" (ManageList.alerts l).

(** [finalizeDelete], with [onDelete] bound to [handleDeleteTournament]. *)
Definition finalizeDelete (t : Tournament.t) (st : ManageList.t * App.t)
    : ManageList.t * App.t :=
  let '(l, app) := st in
  if (ManageList.confirmName l =? Tournament.name t)%string
  then (ManageList.mk None (ManageList.confirmName l) (ManageList.alerts l),
        handleDeleteTournament (Tournament.id t) app)
  else (ManageList.mk (ManageList.deleteConfirmId l) (ManageList.confirmName l)
          (ManageList.alerts l ++ [nameMismatchMessage]),
        app).

(** The button of the confirmation dialog:
    [finalizeDelete(tournaments.find(t => t.id === deleteConfirmId)!)].  The
    dialog is rendered only for a truthy [deleteConfirmId]; when no
    tournament carries the id, [finalizeDelete] reads [name] of [undefined],
    the handler throws and no state changes. *)
Definition confirmDeleteClick (st : ManageList.t * App.t) : ManageList.t * App.t :=
  match ManageList.deleteConfirmId (fst st) with
  | None => st
  | Some id =>
      if (id =? "")%string then st
      else match find (fun t => (Tournament.id t =? id)%string)
                      (App.tournaments (snd st)) with
           | Some t => finalizeDelete t st
           | None => st
           end
  end.

(* ================================================================== *)
(** ** The creation form ([CreateTournamentForm]) *)
(* ================================================================== *)

Definition AI_TEAM_NAMES : list string :=
  ["Thunder Gods"; "Shadow Strikers"; "Neon Knights"; "Cyber Challengers";
   "Void Vipers"; "Pixel Pirates"; "Binary Batters"; "Glitch Guardians"].

(** The length [Array.from({ length: x }, ...)] reads from a number: the
    integer part, at least zero and at most [2^53 - 1]. *)
Definition toLength (x : JS.number) : nat :=
  Z.to_nat (Z.min (Qfloor x) (2 ^ 53 - 1)).

(** [s || ''] on an optional string. *)
Definition orEmpty (s : option string) : string :=
  match s with
  | Some v => v
  | None => ""
  end.

(** [s.includes(sub)]. *)
Fixpoint includes (s sub : string) : bool :=
  String.prefix sub s
  || match s with
     | EmptyString => false
     | String _ r => includes r sub
     end.

(** [s.split(',')]. *)
Fixpoint splitComma (s : string) : list string :=
  match s with
  | EmptyString => [""]
  | String c r =>
      if Ascii.eqb c "," then "" :: splitComma r
      else match splitComma r with
           | h :: t => String c h :: t
           | [] => [String c ""]
           end
  end.

(** [a.map((t, i) => f(t, i))]. *)
Definition mapi {A B : Type} (f : A -> nat -> B) (a : list A) : list B :=
  map (fun p => f (snd p) (fst p)) (combine (seq 0 (List.length a)) a).

Module Form.
Record t := mk {
  name : string;
  logoUrl : string;
  overs : string;
  customOvers : string;
  numTeams : JS.number;
  teams : list Team.t;
  stadiums : list Stadium.t;
  currentStadium : string;
  scheduleFormat : string;
  playoffSystem : string;
  headerConfig : TournamentHeader.t;
  winPts : JS.number;
  drawPts : JS.number;
  lossPts : JS.number;
  officials : string
}.
End Form.

(** The form as it is before the first effect runs. *)
Definition initialForm : Form.t :=
  Form.mk "" "" "20" "" 8 [] [] "" "SINGLE ROUND ROBIN (SRR)"
    "SEMI-FINAL SYSTEM (TOP 4)" (TournamentHeader.mk "" "" "" false) 2 1 0 "".

Definition setTeams (teams : list Team.t) (f : Form.t) : Form.t :=
  Form.mk (Form.name f) (Form.logoUrl f) (Form.overs f) (Form.customOvers f)
    (Form.numTeams f) teams (Form.stadiums f) (Form.currentStadium f)
    (Form.scheduleFormat f) (Form.playoffSystem f) (Form.headerConfig f)
    (Form.winPts f) (Form.drawPts f) (Form.lossPts f) (Form.officials f).

(** The team slot with index [i] that the effect on [numTeams] builds from
    the teams held so far. *)
Definition teamSlot (teams : list Team.t) (i : nat) : Team.t :=
  let old := nth_error teams i in
  Team.mk ("team-" ++ JS.show_nat i)
    (orEmpty (option_map Team.name old))
    (Some (orEmpty (match old with Some t => Team.logoUrl t | None => None end)))
    (Some (orEmpty (match old with Some t => Team.owner t | None => None end)))
    0 0 0 0 0 0 0 0 0 0 None.

(** The effect that runs when [numTeams] changes (and once on mount). *)
Definition slotEffect (f : Form.t) : Form.t :=
  setTeams (map (teamSlot (Form.teams f)) (seq 0 (toLength (Form.numTeams f)))) f.

(** [setNumTeams(Number(e.target.value))] and the effect it triggers. *)
Definition setNumTeams (value : JS.number) (f : Form.t) : Form.t :=
  slotEffect
    (Form.mk (Form.name f) (Form.logoUrl f) (Form.overs f) (Form.customOvers f)
       value (Form.teams f) (Form.stadiums f) (Form.currentStadium f)
       (Form.scheduleFormat f) (Form.playoffSystem f) (Form.headerConfig f)
       (Form.winPts f) (Form.drawPts f) (Form.lossPts f) (Form.officials f)).

Definition withName (t : Team.t) (name : string) : Team.t :=
  Team.mk (Team.id t) name (Team.logoUrl t) (Team.owner t)
    (Team.matchesPlayed t) (Team.matchesWon t) (Team.matchesLost t)
    (Team.matchesTie t) (Team.runsScored t) (Team.oversFaced t)
    (Team.runsConceded t) (Team.oversBowled t) (Team.penalties t)
    (Team.points t) (Team.nrr t).

Definition fillAiTeams (f : Form.t) : Form.t :=
  setTeams
    (mapi (fun t i =>
             withName t (nth (i mod List.length AI_TEAM_NAMES) AI_TEAM_NAMES ""
                         ++ " " ++ JS.show_nat (i / List.length AI_TEAM_NAMES + 1)))
          (Form.teams f))
    f.

(** The name input of row [i]: [nt[i].name = e.target.value]. *)
Definition setTeamName (i : nat) (value : string) (f : Form.t) : Form.t :=
  setTeams (mapi (fun t j => if (j =? i)%nat then withName t value else t) (Form.teams f)) f.

Definition nameRequiredMessage : string := "Panel 1: Tournament Name Required!".
Definition teamNamesRequiredMessage : string := "Panel 4: All Team Names Required!".

Section Submit.

(** [String.prototype.trim], and the two readings of the clock:
    [Date.now()] and [new Date().toLocaleDateString()]. *)
Variable trim : string -> string.
Variable now : Z.
Variable today : string.

(** [handleSubmit]: the message it alerts, or the tournament it passes to
    [onCreate]. *)
Definition handleSubmit (f : Form.t) : string + Tournament.t :=
  if (trim (Form.name f) =? "")%string then inl nameRequiredMessage
  else if existsb (fun t => (trim (Team.name t) =? "")%string) (Form.teams f)
  then inl teamNamesRequiredMessage
  else
    inr (Tournament.mk (JS.show_Z now) (Form.name f) LIMITED_OVERS today None None
           (Form.teams f) (Form.stadiums f) [] []
           (TournamentConfig.mk
              (if (Form.overs f =? "Custom")%string then Form.customOvers f
               else Form.overs f)
              (Form.scheduleFormat f) (Form.playoffSystem f)
              (Form.winPts f) (Form.drawPts f) (Form.lossPts f)
              (map trim (splitComma (Form.officials f))) true true)
           (Form.headerConfig f)
           (inject_Z (Z.of_nat (List.length (Form.teams f))))).

End Submit.

(** What [calcMatches] returns: a number, or the text ['CALCULATING...']. *)
Inductive Preview :=
| Count (n : JS.number)
| Calculating.

Definition calcMatches (f : Form.t) : Preview :=
  let N := Form.numTeams f in
  if includes (Form.scheduleFormat f) "SINGLE ROUND ROBIN" then Count ((N * (N - 1)) / 2)
  else if includes (Form.scheduleFormat f) "DOUBLE ROUND ROBIN" then Count (N * (N - 1))
  else if includes (Form.scheduleFormat f) "KNOCKOUT" then Count (N - 1)
  else Calculating.

(** The ids of the first [k] team slots. *)
Definition slotIds (k : nat) : list string :=
  map (fun i => ("team-" ++ JS.show_nat i)%string) (seq 0 k).

(* ================================================================== *)
(** ** Sample tournaments *)
(* ================================================================== *)

(** A collation to run the ranking with: code-unit order. *)
Definition codeUnitCompare (a b : string) : Z :=
  match String.compare a b with
  | Lt => (-1)%Z
  | Eq => 0%Z
  | Gt => 1%Z
  end.

(** A team as the creation form builds it. *)
Definition newTeam (id name : string) : Team.t :=
  Team.mk id name (Some "") (Some "") 0 0 0 0 0 0 0 0 0 0 None.

(** The defaults of the creation form: twenty overs, 2 / 1 / 0 points. *)
Definition defaultConfig : TournamentConfig.t :=
  TournamentConfig.mk "20" "SINGLE ROUND ROBIN (SRR)" "SEMI-FINAL SYSTEM (TOP 4)"
    2 1 0 [] true true.

Definition emptyHeader : TournamentHeader.t := TournamentHeader.mk "" "" "" false.

(** A match as [saveMatchResult] leaves it. *)
Definition completedMatch (id : string) (round : nat) (team1Id team2Id : string)
    (res : MatchResultType) (r1 w1 o1 r2 w2 o2 : JS.number) : Match.t :=
  Match.mk id round team1Id team2Id "neutral" COMPLETED (Some res) (Some "")
    (Some r1) (Some w1) (Some o1) (Some r2) (Some w2) (Some o2) None (Some false).

(** A completed match whose score fields were never filled in. *)
Definition unscoredMatch (id : string) (round : nat) (team1Id team2Id : string)
    (res : MatchResultType) : Match.t :=
  Match.mk id round team1Id team2Id "neutral" COMPLETED (Some res) None
    None None None None None None None None.

Definition cup (teams : list Team.t) (stadiums : list Stadium.t)
    (matches : list Match.t) (penalties : list PenaltyRecord.t) : Tournament.t :=
  Tournament.mk "1700000000000" "CUP" LIMITED_OVERS "1/1/2026" None
    (Some TournamentStatus.ONGOING)
    teams stadiums matches penalties defaultConfig emptyHeader
    (inject_Z (Z.of_nat (List.length teams))).

Definition lions : Team.t := newTeam "team-0" "Lions".
Definition tigers : Team.t := newTeam "team-1" "Tigers".
Definition bears : Team.t := newTeam "team-2" "Bears".

(** Lions make 100 for 5 in their twenty overs; Tigers, batting second,
    pass them in fifteen overs. *)
Definition chase : Match.t :=
  completedMatch "M-R1-0-1700000000001" 1 "team-0" "team-1" T2_WIN
    100 5 20 101 3 15.

(** Lions win twice and are fined five points. *)
Definition finedCup : Tournament.t :=
  cup [lions; tigers; bears] []
    [completedMatch "M-R1-0-1" 1 "team-0" "team-1" T1_WIN 150 5 20 120 8 20;
     completedMatch "M-R2-0-2" 2 "team-0" "team-2" T1_WIN 160 4 20 140 9 20]
    [PenaltyRecord.mk "p1" "team-0" 5 "slow over rate" "1/2/2026"].

(** Zed win one and lose one by the same margin, Alpha tie twice: both end
    on two points and a net run rate of zero. *)
Definition zed : Team.t := newTeam "team-0" "Zed".
Definition alpha : Team.t := newTeam "team-1" "Alpha".
Definition xray : Team.t := newTeam "team-2" "Xray".
Definition yoke : Team.t := newTeam "team-3" "Yoke".

Definition levelCup : Tournament.t :=
  cup [zed; alpha; xray; yoke] []
    [completedMatch "M-R1-0-1" 1 "team-0" "team-2" T1_WIN 100 5 20 90 7 20;
     completedMatch "M-R2-0-2" 2 "team-3" "team-0" T1_WIN 100 5 20 90 7 20;
     completedMatch "M-R2-1-3" 2 "team-1" "team-2" TIE 100 5 20 100 7 20;
     completedMatch "M-R3-0-4" 3 "team-1" "team-3" TIE 100 5 20 100 7 20]
    [].

(** A completed match with both run totals but neither wickets nor overs. *)
Definition runsOnly : Match.t :=
  Match.mk "M-R1-0-1700000000001" 1 "team-0" "team-1" "neutral" COMPLETED
    (Some T1_WIN) None (Some 150) None None (Some 100) None None None None.

(** A drawn match, a result the type admits. *)
Definition drawn : Match.t :=
  completedMatch "M-R1-0-1700000000001" 1 "team-0" "team-1" DRAW
    120 6 20 120 10 (184 # 10).

Definition oval : Stadium.t := Stadium.mk "1700000000002" "The Oval".
Definition lords : Stadium.t := Stadium.mk "1700000000003" "Lord's".

(** Two runs of the page: the random draws and the clock differ. *)
Definition firstRun : Env.t := Env.mk (fun _ => 0) (fun _ => 1700000000100%Z).
Definition secondRun : Env.t := Env.mk (fun _ => 1 # 2) (fun _ => 1700000000200%Z).

(** A team whose id is the one the generator reserves for the bye. *)
Definition byes : Team.t := newTeam "BYE" "Byes".

(** The first fixture of a schedule, not yet played, and a scorecard on
    which the first team wins. *)
Definition opener : Match.t := newMatch firstRun [] 0 0 0 lions tigers.

Definition lionsWin : LoForm.t :=
  LoForm.mk 150 5 20 120 8 20 "" false false.

(** A stand-in for [trim] on the sample forms: it strips the blanks at
    both ends. *)
Fixpoint dropBlanks (s : string) : string :=
  match s with
  | String " " r => dropBlanks r
  | _ => s
  end.

Fixpoint reverseOnto (s acc : string) : string :=
  match s with
  | EmptyString => acc
  | String c r => reverseOnto r (String c acc)
  end.

Definition trimBlanks (s : string) : string :=
  reverseOnto (dropBlanks (reverseOnto (dropBlanks s) "")) "".

(** The form after three teams were asked for, the generated names were
    filled in and the tournament was named. *)
Definition threeTeamForm : Form.t :=
  let f := fillAiTeams (setNumTeams 3 initialForm) in
  Form.mk "CUP" (Form.logoUrl f) (Form.overs f) (Form.customOvers f)
    (Form.numTeams f) (Form.teams f) (Form.stadiums f) (Form.currentStadium f)
    (Form.scheduleFormat f) (Form.playoffSystem f) (Form.headerConfig f)
    (Form.winPts f) (Form.drawPts f) (Form.lossPts f) (Form.officials f).

(** The tournament the form submits at a sample reading of the clock. *)
Definition submitted : Tournament.t :=
  match handleSubmit trimBlanks 1700000000000 "1/1/2026" threeTeamForm with
  | inr T => T
  | inl _ => cup [] [] [] []
  end.

(** A collation that does not tell upper case from lower case: a stand-in
    for a host whose collation returns zero on two different strings (as
    [localeCompare] does on canonically equivalent spellings) and orders
    names otherwise than by code units. *)
Definition lowerCase (c : ascii) : ascii :=
  let n := nat_of_ascii c in
  if (65 <=? n)%nat && (n <=? 90)%nat then ascii_of_nat (n + 32) else c.

Fixpoint lowerCased (s : string) : string :=
  match s with
  | EmptyString => EmptyString
  | String c r => String (lowerCase c) (lowerCased r)
  end.

Definition caseBlindCompare (a b : string) : Z :=
  codeUnitCompare (lowerCased a) (lowerCased b).

(** Two teams without a match whose names the two collations order
    differently, and two whose names only the case tells apart. *)
Definition zedTeam : Team.t := newTeam "team-0" "Zed".
Definition alphaTeam : Team.t := newTeam "team-1" "alpha".
Definition lionsUpper : Team.t := newTeam "team-3" "LIONS".

(** The state of the screen around a tournament. *)
Definition screen (t : Tournament.t) : UI.t := UI.mk t None "" DASHBOARD [].

(* ================================================================== *)
(** ** True overs *)
(* ================================================================== *)

(** Every figure [k.b] below a thousand overs passes the check of
    [readsDigit]: ten thousand evaluations of the double computation. *)
Lemma digits_read_below_1000 : readsDigitsBelow 1000 = true.
Proof. vm_compute. reflexivity. Qed.

Lemma readsDigitsBelow_spec (bound k b : nat) :
  readsDigitsBelow bound = true -> (k < bound)%nat -> (b <= 9)%nat ->
  readsDigit k b = true.
Proof.
  unfold readsDigitsBelow. rewrite forallb_forall. intros H Hk Hb.
  specialize (H k). rewrite forallb_forall in H.
  apply H; apply in_seq; lia.
Qed.

(** Where neighbouring doubles are more than a tenth apart the digit is
    lost: the literal 900000000000000.2 denotes 900000000000000.25, its
    ball figure 2.5 is rounded to 3 and the result is a half over above
    the integer part, not a third. *)
Lemma digit_lost_in_large_overs :
  let overs := Binary64.literal 900000000000000 2 in
  let balls := PrimFloat.mul (PrimFloat.sub overs (Binary64.Math_floor overs))
                 (Binary64.ofZ 10) in
  Binary64.exact overs == 900000000000000 + (1 # 4)
  /\ PrimFloat.eqb (Binary64.Math_round balls) (Binary64.ofZ 3) = true
  /\ Binary64.exact (Binary64.toTrueOvers overs) == 900000000000000 + (1 # 2)
  /\ PrimFloat.eqb (Binary64.toTrueOvers overs) (Binary64.announced 900000000000000 2)
     = false
  /\ ~ (forall k b : Z,
          (0 <= k)%Z -> (0 <= b <= 9)%Z ->
          PrimFloat.eqb (Binary64.toTrueOvers (Binary64.literal k b))
            (Binary64.announced k b) = true).
Proof.
  cbv zeta.
  assert (H : PrimFloat.eqb
                (Binary64.toTrueOvers (Binary64.literal 900000000000000 2))
                (Binary64.announced 900000000000000 2) = false)
    by (vm_compute; reflexivity).
  split; [apply Qeq_bool_eq; vm_compute; reflexivity|].
  split; [vm_compute; reflexivity|].
  split; [apply Qeq_bool_eq; vm_compute; reflexivity|].
  split; [exact H|].
  intros Hall.
  assert (Hc := Hall 900000000000000%Z 2%Z ltac:(lia) ltac:(lia)).
  rewrite H in Hc. discriminate Hc.
Qed.

(** C4: for an overs figure [k.b] below a thousand overs ([b] a decimal
    digit), [toTrueOvers], computed in double precision on the double the
    literal denotes, finds the integer part [k], rounds ten times the
    fractional part to the digit [b] and returns the integer part plus
    min(round(10 * fractional part), 6) / 6, the value [k + min(b, 6) / 6]
    evaluated in doubles.  The rational model of [toTrueOvers], run on the
    rational that double denotes, returns [k + min(b, 6) / 6] exactly, and
    the rational the double result denotes is within a billionth of it.
    In particular 19.4 gives 19.667 within 0.001, 20.0 gives 20 and 0.6
    gives 1. *)
Theorem toTrueOvers_notation (k b : nat) (Hk : (k < 1000)%nat) (Hb : (b <= 9)%nat) :
  let overs := Binary64.literal (Z.of_nat k) (Z.of_nat b) in
  let balls := PrimFloat.mul (PrimFloat.sub overs (Binary64.Math_floor overs))
                 (Binary64.ofZ 10) in
  PrimFloat.eqb (Binary64.Math_floor overs) (Binary64.ofZ (Z.of_nat k)) = true
  /\ PrimFloat.eqb (Binary64.Math_round balls) (Binary64.ofZ (Z.of_nat b)) = true
  /\ PrimFloat.eqb (Binary64.toTrueOvers overs)
       (Binary64.announced (Z.of_nat k) (Z.of_nat b)) = true
  /\ toTrueOvers (Binary64.exact overs)
     == inject_Z (Z.of_nat k) + inject_Z (Z.min (Z.of_nat b) 6) / 6
  /\ Qabs (Binary64.exact (Binary64.toTrueOvers overs)
           - toTrueOvers (Binary64.exact overs)) <= 1 # 1000000000
  /\ Binary64.within (Binary64.toTrueOvers (Binary64.literal 19 4))
       (PrimFloat.div (Binary64.ofZ 19667) (Binary64.ofZ 1000))
       (PrimFloat.div (Binary64.ofZ 1) (Binary64.ofZ 1000)) = true
  /\ PrimFloat.eqb (Binary64.toTrueOvers (Binary64.literal 20 0)) (Binary64.ofZ 20) = true
  /\ PrimFloat.eqb (Binary64.toTrueOvers (Binary64.literal 0 6)) (Binary64.ofZ 1) = true.
Proof.
  cbv zeta.
  pose proof (readsDigitsBelow_spec 1000 k b digits_read_below_1000 Hk Hb) as H.
  unfold readsDigit in H. cbv zeta in H.
  apply andb_prop in H as [H H5]. apply andb_prop in H as [H H4].
  apply andb_prop in H as [H H3]. apply andb_prop in H as [H1 H2].
  split; [exact H1|]. split; [exact H2|]. split; [exact H3|].
  split; [now apply Qeq_bool_eq|]. split; [now apply Qle_bool_imp_le|].
  repeat split; vm_compute; reflexivity.
Qed.

Lemma toTrueOvers_notation_witness :
  (19 < 1000)%nat /\ (4 <= 9)%nat
  /\ PrimFloat.eqb (Binary64.toTrueOvers (Binary64.literal 19 4))
       (Binary64.announced 19 4) = true.
Proof.
  assert (Hk : (19 < 1000)%nat) by lia.
  assert (Hb : (4 <= 9)%nat) by lia.
  split; [exact Hk|]. split; [exact Hb|].
  exact (proj1 (proj2 (proj2 (toTrueOvers_notation 19 4 Hk Hb)))).
Defined.

(* ================================================================== *)
(** ** Standings: one match *)
(* ================================================================== *)

Lemma fold_left_invariant {S X : Type} (P : S -> Prop) (f : S -> X -> S) (l : list X) :
  (forall s x, P s -> P (f s x)) -> forall s, P s -> P (fold_left f l s).
Proof.
  intros Hstep. induction l as [|x l IH]; intros s Hs; simpl; auto.
Qed.

Lemma or_else_zero (x : Q) : JS.or_else x 0 == x.
Proof.
  unfold JS.or_else. destruct (Qeq_bool x 0) eqn:E; [|reflexivity].
  apply Qeq_bool_eq in E. now rewrite E.
Qed.

(** The counters never look at the scores. *)
Lemma processMatch_counters config team a l m :
  fst (Workspace.processMatch config team (a, l) m)
  = recordResult config (Match.team1Id m =? Team.id team)%string
      (Match.resultType m) (played a).
Proof.
  unfold Workspace.processMatch. destruct (ledgerGuard m); reflexivity.
Qed.

Lemma processMatch_ledger config team a l m :
  snd (Workspace.processMatch config team (a, l) m)
  = if ledgerGuard m
    then Workspace.ledger config (Match.team1Id m =? Team.id team)%string m l
    else l.
Proof.
  unfold Workspace.processMatch. destruct (ledgerGuard m); reflexivity.
Qed.

Lemma ledgerGuard_runs m :
  ledgerGuard m = true ->
  exists r1 r2, Match.t1Runs m = Some r1 /\ Match.t2Runs m = Some r2.
Proof.
  unfold ledgerGuard. intros H.
  apply andb_prop in H as [H H2]. apply andb_prop in H as [_ H1].
  destruct (Match.t1Runs m) as [r1|]; [|discriminate].
  destruct (Match.t2Runs m) as [r2|]; [|discriminate].
  now exists r1, r2.
Qed.


(** The first team's side of the ledger is its own. *)
Lemma ledger_first_side config m l :
  let l' := Workspace.ledger config true m l in
  Workspace.totalRunsScored l'
    = Workspace.totalRunsScored l + JS.nullish (Match.t1Runs m) 0
  /\ Workspace.totalTrueOversFaced l'
    = Workspace.totalTrueOversFaced l
      + (if JS.num_eq (JS.nullish (Match.t1Wickets m) 0) 10
         then Workspace.maxO config else toTrueOvers (JS.nullish (Match.t1Overs m) 0))
  /\ Workspace.totalRunsConceded l'
    = Workspace.totalRunsConceded l + JS.nullish (Match.t2Runs m) 0
  /\ Workspace.totalTrueOversBowled l'
    = Workspace.totalTrueOversBowled l
      + (if JS.num_eq (JS.nullish (Match.t2Wickets m) 0) 10
         then Workspace.maxO config else toTrueOvers (JS.nullish (Match.t2Overs m) 0)).
Proof. repeat split. Qed.

(** The second team's overs faced are read from the first team's overs. *)
Lemma ledger_second_side_faced config m l :
  JS.num_eq (JS.nullish (Match.t2Wickets m) 0) 10 = false ->
  Workspace.totalTrueOversFaced (Workspace.ledger config false m l)
  = Workspace.totalTrueOversFaced l + toTrueOvers (JS.nullish (Match.t1Overs m) 0).
Proof. intros H. simpl. now rewrite H. Qed.

(** In the copy both sides read their own figures, and what a match gives
    one side it takes from the other. *)
Lemma copy_ledger_own_side config (isT1 : bool) m l :
  let own (a b : option JS.number) := if isT1 then a else b in
  WorkspaceCopy.ledger config isT1 m l
  = WorkspaceCopy.mkLedger
      (WorkspaceCopy.ts l + JS.nullish (own (Match.t1Runs m) (Match.t2Runs m)) 0)
      (WorkspaceCopy.addNaN (WorkspaceCopy.tf l)
         (WorkspaceCopy.trueOvers config (own (Match.t1Wickets m) (Match.t2Wickets m))
            (own (Match.t1Overs m) (Match.t2Overs m))))
      (WorkspaceCopy.tc l + JS.nullish (own (Match.t2Runs m) (Match.t1Runs m)) 0)
      (WorkspaceCopy.addNaN (WorkspaceCopy.tb l)
         (WorkspaceCopy.trueOvers config (own (Match.t2Wickets m) (Match.t1Wickets m))
            (own (Match.t2Overs m) (Match.t1Overs m)))).
Proof. destruct isT1; reflexivity. Qed.

Lemma copy_contribution_flips config m x :
  WorkspaceCopy.contribution config true m = Some x ->
  exists y, WorkspaceCopy.contribution config false m = Some y /\ y == - x.
Proof.
  unfold WorkspaceCopy.contribution, WorkspaceCopy.ledger. simpl.
  destruct (WorkspaceCopy.trueOvers config (Match.t1Wickets m) (Match.t1Overs m)) as [f|];
    [|discriminate].
  destruct (WorkspaceCopy.trueOvers config (Match.t2Wickets m) (Match.t2Overs m)) as [b|];
    [|discriminate].
  simpl. intros [= <-]. eexists. split; [reflexivity|]. ring.
Qed.

(** C2: on the chase (Lions 100 in 20 overs, Tigers 101 in 15) the
    ledger of Tigers, the second team, receives its own runs and the runs it
    conceded, but twenty overs faced, the overs of Lions, where its own
    innings lasted fifteen; the contributions of the two sides are 1/20 and
    -26/15 instead of opposite numbers.  The copy of the component credits
    fifteen overs and gives opposite contributions. *)
Theorem chase_credits_the_other_sides_overs :
  let l := snd (Workspace.processMatch defaultConfig tigers
                  (Acc.initial, Workspace.mkLedger 0 0 0 0) chase) in
  ledgerGuard chase = true
  /\ ownOvers tigers chase = Some 15
  /\ ownWickets tigers chase = Some 3
  /\ Workspace.totalRunsScored l == 101
  /\ Workspace.totalRunsConceded l == 100
  /\ Workspace.totalTrueOversBowled l == 20
  /\ Workspace.totalTrueOversFaced l == 20
  /\ toTrueOvers 15 == 15
  /\ Workspace.contribution defaultConfig false chase == 1 # 20
  /\ Workspace.contribution defaultConfig true chase == - (26 # 15)
  /\ (exists f, WorkspaceCopy.tf (snd (WorkspaceCopy.processMatch defaultConfig tigers
                   (Acc.initial, WorkspaceCopy.mkLedger 0 (Some 0) 0 (Some 0)) chase))
                = Some f /\ f == 15)
  /\ (exists y, WorkspaceCopy.contribution defaultConfig false chase = Some y
                /\ y == 26 # 15).
Proof.
  cbv zeta.
  repeat match goal with
         | |- _ /\ _ => split
         | |- exists _, _ => eexists; split; [vm_compute; reflexivity|]
         | |- _ == _ => apply Qeq_bool_eq; vm_compute; reflexivity
         | |- _ = _ => vm_compute; reflexivity
         end.
Qed.

(** C5: in a match that reaches the ledger, a side whose recorded wickets
    are ten is credited with the overs-per-match limit of the tournament,
    whatever overs were recorded for it; the rule is applied to the overs
    faced (own wickets) and to the overs bowled (the other side's wickets)
    separately, for the first and for the second team alike.  The limit
    is the number [parseFloat] reads in the configured overs, when it reads
    one that is not zero. *)
Theorem all_out_credits_the_overs_limit
    (config : TournamentConfig.t) (team : Team.t) (a : Acc.t)
    (l : Workspace.Ledger) (m : Match.t)
    (Hguard : ledgerGuard m = true) :
  let l' := snd (Workspace.processMatch config team (a, l) m) in
  (JS.nullish (ownWickets team m) 0 == 10 ->
   Workspace.totalTrueOversFaced l'
   = Workspace.totalTrueOversFaced l + Workspace.maxO config)
  /\ (JS.nullish (otherWickets team m) 0 == 10 ->
      Workspace.totalTrueOversBowled l'
      = Workspace.totalTrueOversBowled l + Workspace.maxO config)
  /\ (~ JS.nullish (otherWickets team m) 0 == 10 ->
      Workspace.totalTrueOversBowled l'
      = Workspace.totalTrueOversBowled l + toTrueOvers (JS.nullish (otherOvers team m) 0))
  /\ (forall limit,
        JS.parseFloat (TournamentConfig.oversPerMatch config) = Some limit ->
        ~ limit == 0 -> Workspace.maxO config = limit).
Proof.
  cbv zeta. rewrite processMatch_ledger, Hguard.
  assert (Hlimit : forall limit,
             JS.parseFloat (TournamentConfig.oversPerMatch config) = Some limit ->
             ~ limit == 0 -> Workspace.maxO config = limit).
  { intros limit Hp Hnz. unfold Workspace.maxO. rewrite Hp. simpl. unfold JS.or_else.
    destruct (Qeq_bool limit 0) eqn:E; [apply Qeq_bool_eq in E; contradiction|reflexivity]. }
  unfold ownWickets, otherWickets, otherOvers, Workspace.ledger, JS.num_eq.
  destruct (Match.team1Id m =? Team.id team)%string; simpl.
  - split; [|split; [|split]]; [intros H | intros H | intros H | exact Hlimit].
    + apply Qeq_eq_bool in H. now rewrite H.
    + apply Qeq_eq_bool in H. now rewrite H.
    + destruct (Qeq_bool _ 10) eqn:E; [apply Qeq_bool_eq in E; contradiction|reflexivity].
  - split; [|split; [|split]]; [intros H | intros H | intros H | exact Hlimit].
    + apply Qeq_eq_bool in H. now rewrite H.
    + apply Qeq_eq_bool in H. now rewrite H.
    + destruct (Qeq_bool _ 10) eqn:E; [apply Qeq_bool_eq in E; contradiction|reflexivity].
Qed.

Lemma all_out_credits_the_overs_limit_witness :
  ledgerGuard drawn = true
  /\ JS.nullish (ownWickets tigers drawn) 0 == 10
  /\ Workspace.totalTrueOversFaced
       (snd (Workspace.processMatch defaultConfig tigers
               (Acc.initial, Workspace.mkLedger 0 0 0 0) drawn))
     = 0 + Workspace.maxO defaultConfig
  /\ Workspace.maxO defaultConfig == 20
  /\ toTrueOvers (184 # 10) == 56 # 3.
Proof.
  split; [reflexivity|].
  split; [reflexivity|].
  split.
  - apply (proj1 (all_out_credits_the_overs_limit defaultConfig tigers Acc.initial
                    (Workspace.mkLedger 0 0 0 0) drawn eq_refl)).
    reflexivity.
  - split; apply Qeq_bool_eq; vm_compute; reflexivity.
Defined.



(** C10: a completed match whose result is DRAW falls through to the last
    branch for either team: one more match played, one more loss, the
    points for a loss, an [L] at the end of the form, and no change to the
    wins, ties and no-results. *)
Theorem draw_counts_as_loss
    (config : TournamentConfig.t) (team : Team.t) (a : Acc.t)
    (l : Workspace.Ledger) (m : Match.t)
    (Hdraw : Match.resultType m = Some DRAW) :
  let a' := fst (Workspace.processMatch config team (a, l) m) in
  Acc.ml a' = (Acc.ml a + 1)%Z
  /\ Acc.pts a' = Acc.pts a + TournamentConfig.pointsForLoss config
  /\ Acc.form a' = Acc.form a ++ ["L"]
  /\ Acc.mp a' = (Acc.mp a + 1)%Z
  /\ Acc.mw a' = Acc.mw a
  /\ Acc.mt a' = Acc.mt a
  /\ Acc.nr a' = Acc.nr a.
Proof.
  cbv zeta. rewrite processMatch_counters, Hdraw.
  unfold recordResult. simpl. rewrite !andb_false_r. simpl.
  rewrite !Z.add_0_r. repeat split.
Qed.

Lemma draw_counts_as_loss_witness :
  Match.resultType drawn = Some DRAW
  /\ Match.status drawn = COMPLETED
  /\ Acc.ml (fst (Workspace.processMatch defaultConfig lions
                    (Acc.initial, Workspace.mkLedger 0 0 0 0) drawn)) = (0 + 1)%Z
  /\ Acc.ml (fst (Workspace.processMatch defaultConfig tigers
                    (Acc.initial, Workspace.mkLedger 0 0 0 0) drawn)) = (0 + 1)%Z
  /\ map (fun s => (Standing.name s, Standing.ml s, Standing.form s))
       (Workspace.standings codeUnitCompare (cup [lions; tigers] [] [drawn] []))
     = [("Lions", 1%Z, ["L"]); ("Tigers", 1%Z, ["L"])].
Proof.
  split; [reflexivity|]. split; [reflexivity|].
  split.
  - apply (draw_counts_as_loss defaultConfig lions Acc.initial
             (Workspace.mkLedger 0 0 0 0) drawn). reflexivity.
  - split.
    + apply (draw_counts_as_loss defaultConfig tigers Acc.initial
               (Workspace.mkLedger 0 0 0 0) drawn). reflexivity.
    + vm_compute. reflexivity.
Defined.

(* ================================================================== *)
(** ** Standings: points *)
(* ================================================================== *)

Lemma recordResult_accounted config isT1 res a :
  pointsAccounted config a -> pointsAccounted config (recordResult config isT1 res (played a)).
Proof.
  unfold pointsAccounted, pointsWorth, recordResult. intros H.
  repeat match goal with |- context [if ?c then _ else _] => destruct c end;
    simpl; rewrite H, !inject_Z_plus;
    change (inject_Z 0) with 0; change (inject_Z 1) with 1; ring.
Qed.

Lemma aggregate_accounted tournament team :
  pointsAccounted (Tournament.config tournament)
    (fst (Workspace.aggregate tournament team)).
Proof.
  unfold Workspace.aggregate.
  apply (fold_left_invariant
           (fun al => pointsAccounted (Tournament.config tournament) (fst al))).
  - intros [a l] m Ha. rewrite processMatch_counters.
    now apply recordResult_accounted.
  - unfold pointsAccounted, pointsWorth. simpl. ring.
Qed.

Lemma penPts_fold (l : list PenaltyRecord.t) (s : Q) :
  fold_left (fun s p => s + JS.or_else (PenaltyRecord.points p) 0) l s
  == s + fold_right (fun p s => PenaltyRecord.points p + s) 0 l.
Proof.
  revert s. induction l as [|p l IH]; intros s; simpl.
  - ring.
  - rewrite IH, or_else_zero. ring.
Qed.

Lemma penPts_total penalties team :
  penPts penalties team == penaltyTotal penalties team.
Proof.
  unfold penPts, penaltyTotal. rewrite penPts_fold. ring.
Qed.

Lemma teamStanding_fields tournament team :
  let a := fst (Workspace.aggregate tournament team) in
  let s := Workspace.teamStanding tournament team in
  Standing.team s = team
  /\ Standing.mw s = Acc.mw a /\ Standing.ml s = Acc.ml a
  /\ Standing.mt s = Acc.mt a /\ Standing.nr s = Acc.nr a
  /\ Standing.pts s
     = JS.Math_max 0 (Acc.pts a - penPts (Tournament.penalties tournament) team).
Proof.
  unfold Workspace.teamStanding.
  destruct (Workspace.aggregate tournament team) as [a l]. simpl.
  repeat split.
Qed.

(** C6: the points a team is reported with are the points its wins, ties,
    no-results and losses are worth, less the sum of its penalty records,
    and zero when that difference is negative; they are never negative.
    Lions, with two wins at two points each and a five point penalty, are
    reported with 0 points. *)
Theorem reported_points_floor_at_zero (tournament : Tournament.t) (team : Team.t) :
  let s := Workspace.teamStanding tournament team in
  let earned := pointsWorth (Tournament.config tournament)
                  (Standing.mw s) (Standing.mt s) (Standing.nr s) (Standing.ml s) in
  earned == Acc.pts (fst (Workspace.aggregate tournament team))
  /\ Standing.pts s
     == Qmax 0 (earned - penaltyTotal (Tournament.penalties tournament) team)
  /\ 0 <= Standing.pts s
  /\ (earned - penaltyTotal (Tournament.penalties tournament) team < 0 ->
      Standing.pts s == 0)
  /\ Standing.mw (Workspace.teamStanding finedCup lions) = 2%Z
  /\ pointsWorth (Tournament.config finedCup) 2 0 0 0 == 4
  /\ penaltyTotal (Tournament.penalties finedCup) lions == 5
  /\ Standing.pts (Workspace.teamStanding finedCup lions) == 0.
Proof.
  cbv zeta.
  destruct (teamStanding_fields tournament team) as (_ & Hw & Hl & Ht & Hn & Hp).
  rewrite Hw, Hl, Ht, Hn, Hp.
  pose proof (aggregate_accounted tournament team) as Hacc.
  unfold pointsAccounted in Hacc.
  assert (Hmax : JS.Math_max 0
                   (Acc.pts (fst (Workspace.aggregate tournament team))
                    - penPts (Tournament.penalties tournament) team)
                 == Qmax 0 (pointsWorth (Tournament.config tournament)
                              (Acc.mw (fst (Workspace.aggregate tournament team)))
                              (Acc.mt (fst (Workspace.aggregate tournament team)))
                              (Acc.nr (fst (Workspace.aggregate tournament team)))
                              (Acc.ml (fst (Workspace.aggregate tournament team)))
                            - penaltyTotal (Tournament.penalties tournament) team)).
  { unfold JS.Math_max. now rewrite Hacc, penPts_total. }
  split; [symmetry; exact Hacc|].
  split; [exact Hmax|].
  split; [apply Q.le_max_l|].
  split.
  - intros Hneg. rewrite Hmax. apply Q.max_l. now apply Qlt_le_weak.
  - repeat split; try (apply Qeq_bool_eq); vm_compute; reflexivity.
Qed.

(* ================================================================== *)
(** ** The generator as a list of seatings *)
(* ================================================================== *)

Section Rotation.

Context {A : Type}.

Lemma pop_snoc (l : list A) (z : A) : JS.pop (l ++ [z]) = (Some z, l).
Proof.
  unfold JS.pop. rewrite rev_app_distr. simpl. now rewrite rev_involutive.
Qed.

Lemma rotate_nil : rotate (@nil A) = [].
Proof. reflexivity. Qed.

Lemma rotate_single (a : A) : rotate [a] = [a].
Proof. reflexivity. Qed.

(** One rotation: the head keeps its seat, the last entry moves to seat 1. *)
Lemma rotate_snoc (a z : A) (ring : list A) :
  rotate (a :: ring ++ [z]) = a :: z :: ring.
Proof.
  unfold rotate. change (a :: ring ++ [z]) with ((a :: ring) ++ [z]).
  now rewrite pop_snoc.
Qed.

Lemma rotate_length (l : list A) : List.length (rotate l) = List.length l.
Proof.
  destruct l as [|a l]; [reflexivity|].
  destruct l as [|b l] using rev_ind; [reflexivity|].
  rewrite rotate_snoc. simpl. rewrite length_app. simpl. lia.
Qed.

Lemma poolAt_length (r : nat) (l : list A) : List.length (poolAt r l) = List.length l.
Proof.
  induction r as [|r IH]; [reflexivity|].
  unfold poolAt in *. simpl. now rewrite rotate_length.
Qed.

Lemma poolAt_succ (r : nat) (l : list A) : poolAt (S r) l = rotate (poolAt r l).
Proof. reflexivity. Qed.

Lemma poolAt_shift (r : nat) (l : list A) : poolAt (S r) l = poolAt r (rotate l).
Proof.
  unfold poolAt. induction r as [|r IH]; [reflexivity|].
  simpl in *. now rewrite IH.
Qed.

End Rotation.

Lemma rotate_map {A B : Type} (f : A -> B) (l : list A) :
  rotate (map f l) = map f (rotate l).
Proof.
  destruct l as [|a l]; [reflexivity|].
  destruct l as [|b l] using rev_ind; [reflexivity|].
  simpl. rewrite map_app. simpl. now rewrite !rotate_snoc.
Qed.

Lemma poolAt_map {A B : Type} (f : A -> B) (r : nat) (l : list A) :
  poolAt r (map f l) = map f (poolAt r l).
Proof.
  induction r as [|r IH]; [reflexivity|].
  now rewrite !poolAt_succ, IH, rotate_map.
Qed.

(** Both reads of the inner loop stay inside the pool. *)
Lemma pool_reads_in_range {A : Type} (pool : list A) (m : nat) :
  (m < List.length pool / 2)%nat ->
  (m < List.length pool)%nat /\ (List.length pool - 1 - m < List.length pool)%nat.
Proof.
  intros H.
  pose proof (Nat.Div0.div_le_upper_bound (List.length pool) 2 (List.length pool)) as Hd.
  assert (List.length pool / 2 <= List.length pool)%nat by (apply Nat.Div0.div_le_upper_bound; lia).
  lia.
Qed.

Lemma fold_left_agree {S X : Type} (f g : S -> X -> S) (l : list X) (s : S) :
  (forall s x, f s x = g s x) -> fold_left f l s = fold_left g l s.
Proof.
  intros H. revert s. induction l as [|x l IH]; intros s; simpl; [reflexivity|].
  now rewrite H, IH.
Qed.

Lemma flat_map_seq_succ {B : Type} (f : nat -> list B) (a n : nat) :
  flat_map f (seq (S a) n) = flat_map (fun i => f (S i)) (seq a n).
Proof.
  rewrite <- seq_shift, !flat_map_concat_map, map_map. reflexivity.
Qed.

Lemma flat_map_over_map {X Y Z : Type} (f : X -> Y) (g : Y -> list Z) (l : list X) :
  flat_map g (map f l) = flat_map (fun x => g (f x)) l.
Proof.
  induction l as [|x l IH]; simpl; [reflexivity|]. now rewrite IH.
Qed.

Lemma flat_map_nested {X Y Z : Type} (f : X -> list Y) (g : Y -> list Z) (l : list X) :
  flat_map g (flat_map f l) = flat_map (fun x => flat_map g (f x)) l.
Proof.
  induction l as [|x l IH]; simpl; [reflexivity|].
  now rewrite flat_map_app, IH.
Qed.

Section Seatings.

Variable e : Env.t.
Variable stadiums : list Stadium.t.

Lemma fixture_newMatch r m k t1 t2 :
  fixture (newMatch e stadiums r m k t1 t2) = ((r + 1)%nat, Team.id t1, Team.id t2).
Proof. reflexivity. Qed.

(** The inner loop appends the kept fixtures of the seats it visits. *)
Lemma inner_loop_fixtures pool r (seats : list nat) (matches : list Match.t) :
  map fixture (fold_left (pairingStep e stadiums pool r) seats matches)
  = map fixture matches
    ++ flat_map (fun m => keptFixture
                   (r, (nth m pool byeTeam,
                        nth (List.length pool - 1 - m) pool byeTeam))) seats.
Proof.
  revert matches. induction seats as [|m seats IH]; intros matches; simpl.
  - now rewrite app_nil_r.
  - rewrite IH. unfold pairingStep, keptFixture.
    destruct (notBye (nth m pool byeTeam)
              && notBye (nth (List.length pool - 1 - m) pool byeTeam)); simpl.
    + rewrite map_app. simpl. now rewrite <- app_assoc.
    + reflexivity.
Qed.

(** The outer loop visits the rounds [start, start + len) with the pool
    rotated once per round. *)
Lemma outer_loop_fixtures mpr (len start : nat) pool (matches : list Match.t) :
  map fixture (snd (fold_left (roundStep e stadiums mpr) (seq start len) (pool, matches)))
  = map fixture matches
    ++ flat_map (fun i => flat_map
                   (fun m => keptFixture
                      ((start + i)%nat,
                       (nth m (poolAt i pool) byeTeam,
                        nth (List.length pool - 1 - m) (poolAt i pool) byeTeam)))
                   (seq 0 mpr))
         (seq 0 len).
Proof.
  revert start pool matches.
  induction len as [|len IH]; intros start pool matches; simpl.
  - now rewrite app_nil_r.
  - rewrite IH, inner_loop_fixtures, <- app_assoc. f_equal.
    rewrite Nat.add_0_r. f_equal.
    rewrite flat_map_seq_succ.
    apply flat_map_ext. intros i.
    rewrite rotate_length, <- poolAt_shift.
    replace (S start + i)%nat with (start + S i)%nat by lia. reflexivity.
Qed.

(** The fixtures of the generated matches are the kept seatings. *)
Lemma generateMatches_fixtures teams :
  map fixture (generateMatches e teams stadiums) = scheduleFixtures teams.
Proof.
  unfold generateMatches, scheduleFixtures, allPairs.
  rewrite outer_loop_fixtures, flat_map_nested. cbn [map app].
  apply flat_map_ext. intros r.
  unfold roundPairs. rewrite !flat_map_over_map, poolAt_length.
  reflexivity.
Qed.

End Seatings.

(* ================================================================== *)
(** ** The guard and the environment of the generator *)
(* ================================================================== *)

(** A property of every pushed match holds of the whole generated list. *)
Lemma generateMatches_Forall (P : Match.t -> Prop) e teams stadiums :
  (forall r m k t1 t2, P (newMatch e stadiums r m k t1 t2)) ->
  Forall P (generateMatches e teams stadiums).
Proof.
  intros Hnew. unfold generateMatches.
  apply (fold_left_invariant (fun st => Forall P (snd st))); [|constructor].
  intros [pool matches] r H. simpl in *.
  apply (fold_left_invariant (Forall P)); [|exact H].
  intros ms m Hms. unfold pairingStep.
  destruct (notBye _ && notBye _); [|exact Hms].
  apply Forall_app. split; [exact Hms|]. constructor; [apply Hnew|constructor].
Qed.

Lemma pickVenue_no_stadium e k : pickVenue e k [] = "neutral".
Proof.
  unfold pickVenue, JS.index. destruct (_ <? 0)%Z; [reflexivity|].
  now destruct (Z.to_nat _).
Qed.

Lemma pickVenue_agree e1 e2 k stadiums :
  Env.random e1 k == Env.random e2 k -> pickVenue e1 k stadiums = pickVenue e2 k stadiums.
Proof.
  intros H. unfold pickVenue. now rewrite H.
Qed.

(** C7: the generator stops on its guard exactly when fewer than two teams
    are listed; it then shows the message and leaves the tournament, with
    its match list, as it was.  With two teams or more it does not stop
    there: the tournament receives the generated list, and when no stadium
    is listed every match is played at the ['neutral'] venue. *)
Theorem insufficient_teams_guard (e : Env.t) (ui : UI.t) :
  let teams := Tournament.teams (UI.tournament ui) in
  let stadiums := Tournament.stadiums (UI.tournament ui) in
  let ui' := handleGenerateSchedule e ui in
  (generateSchedule e ui = InsufficientTeams <-> (List.length teams < 2)%nat)
  /\ ((List.length teams < 2)%nat ->
      UI.alerts ui' = UI.alerts ui ++ [insufficientTeamsMessage]
      /\ UI.tournament ui' = UI.tournament ui
      /\ Tournament.matches (UI.tournament ui') = Tournament.matches (UI.tournament ui)
      /\ UI.confirmingAction ui' = UI.confirmingAction ui
      /\ UI.securityInput ui' = UI.securityInput ui
      /\ UI.activeTab ui' = UI.activeTab ui)
  /\ ((2 <= List.length teams)%nat ->
      generateSchedule e ui = Scheduled (generateMatches e teams stadiums)
      /\ Tournament.matches (UI.tournament ui') = generateMatches e teams stadiums
      /\ Tournament.status (UI.tournament ui') = Some TournamentStatus.UPCOMING
      /\ UI.alerts ui' = UI.alerts ui ++ ["SCHEDULE GENERATED SUCCESSFULLY!"]
      /\ (stadiums = [] ->
          Forall (fun m => Match.venueId m = "neutral") (generateMatches e teams stadiums))).
Proof.
  cbv zeta. unfold generateSchedule, handleGenerateSchedule.
  destruct (List.length (Tournament.teams (UI.tournament ui)) <? 2)%nat eqn:E.
  - apply Nat.ltb_lt in E. split; [tauto|]. split; [|lia].
    intros _. simpl. repeat split.
  - apply Nat.ltb_ge in E. split; [split; [discriminate|lia]|].
    split; [lia|]. intros _. simpl. repeat split.
    intros Hs. rewrite Hs. apply generateMatches_Forall.
    intros r m k t1 t2. simpl. apply pickVenue_no_stadium.
Qed.

(* ================================================================== *)
(** ** Ranking *)
(* ================================================================== *)

Lemma inject_Z_neg (z : Z) : inject_Z z < 0 <-> (z < 0)%Z.
Proof. change 0 with (inject_Z 0). now rewrite <- Zlt_Qlt. Qed.

Lemma inject_Z_nonpos (z : Z) : inject_Z z <= 0 <-> (z <= 0)%Z.
Proof. change 0 with (inject_Z 0). now rewrite <- Zle_Qle. Qed.

Lemma inject_Z_zero (z : Z) : inject_Z z == 0 <-> z = 0%Z.
Proof. change 0 with (inject_Z 0). apply inject_Z_injective. Qed.

Lemma inject_Z_diff (x y : Z) : inject_Z x - inject_Z y == inject_Z (x - y).
Proof. unfold Qminus, Z.sub. now rewrite inject_Z_plus, inject_Z_opp. Qed.

Section SortFacts.

Context {A : Type}.
Variable cmp : A -> A -> JS.number.

Lemma sortInsert_perm (x : A) (l : list A) : Permutation (x :: l) (sortInsert cmp x l).
Proof.
  induction l as [|y l IH]; simpl; [reflexivity|].
  destruct (Qle_bool (cmp x y) 0); [reflexivity|].
  rewrite perm_swap. now constructor.
Qed.

Lemma sort_perm (l : list A) : Permutation l (sort cmp l).
Proof.
  induction l as [|x l IH]; simpl; [constructor|].
  rewrite <- sortInsert_perm. now constructor.
Qed.

(** The sort is stable: elements the comparator does not put apart keep
    their order. *)
Lemma sortInsert_stable (P : A -> bool) (x : A) (l : list A) :
  (forall y, P x = true -> P y = true -> cmp x y <= 0) ->
  filter P (sortInsert cmp x l) = filter P (x :: l).
Proof.
  intros H. induction l as [|y l IH]; [reflexivity|].
  cbn [sortInsert]. destruct (Qle_bool (cmp x y) 0) eqn:E; [reflexivity|].
  cbn [filter]. rewrite IH. cbn [filter].
  specialize (H y).
  destruct (P x), (P y); try reflexivity.
  exfalso. apply Qle_bool_iff in H; [congruence|reflexivity|reflexivity].
Qed.

Lemma sort_stable (P : A -> bool) (l : list A) :
  (forall x y, P x = true -> P y = true -> cmp x y <= 0) ->
  filter P (sort cmp l) = filter P l.
Proof.
  intros H. induction l as [|x l IH]; [reflexivity|].
  change (sort cmp (x :: l)) with (sortInsert cmp x (sort cmp l)).
  rewrite sortInsert_stable by (intros y; apply H).
  cbn [filter]. now rewrite IH.
Qed.

Hypothesis cmp_total : forall x y, ~ cmp x y <= 0 -> cmp y x <= 0.
Hypothesis cmp_trans : forall x y z, cmp x y <= 0 -> cmp y z <= 0 -> cmp x z <= 0.

Lemma sortInsert_sorted (x : A) (l : list A) :
  StronglySorted (fun a b => cmp a b <= 0) l ->
  StronglySorted (fun a b => cmp a b <= 0) (sortInsert cmp x l).
Proof.
  induction 1 as [|y l Hl IH Hy]; simpl.
  - repeat constructor.
  - destruct (Qle_bool (cmp x y) 0) eqn:E.
    + apply Qle_bool_iff in E. constructor; [now constructor|].
      constructor; [exact E|].
      eapply Forall_impl; [|exact Hy]. intros z Hz. now apply (cmp_trans x y z).
    + assert (Hyx : cmp y x <= 0).
      { apply cmp_total. intros H. apply Qle_bool_iff in H. congruence. }
      constructor; [exact IH|].
      apply (Permutation_Forall (sortInsert_perm x l)). now constructor.
Qed.

Lemma sort_sorted (l : list A) : StronglySorted (fun a b => cmp a b <= 0) (sort cmp l).
Proof.
  induction l as [|x l IH]; simpl; [constructor|]. now apply sortInsert_sorted.
Qed.

End SortFacts.

(** Two comparators that agree, in sign, on the elements of a list sort it
    alike. *)
Lemma sortInsert_agree {A : Type} (c1 c2 : A -> A -> JS.number) (x : A) (l : list A) :
  (forall y, In y l -> Qle_bool (c1 x y) 0 = Qle_bool (c2 x y) 0) ->
  sortInsert c1 x l = sortInsert c2 x l.
Proof.
  induction l as [|y l IH]; intros H; [reflexivity|].
  cbn [sortInsert]. rewrite (H y (or_introl eq_refl)).
  destruct (Qle_bool (c2 x y) 0); [reflexivity|].
  f_equal. apply IH. intros z Hz. apply H. now right.
Qed.

Lemma sort_agree {A : Type} (c1 c2 : A -> A -> JS.number) (l : list A) :
  (forall x y, In x l -> In y l -> Qle_bool (c1 x y) 0 = Qle_bool (c2 x y) 0) ->
  sort c1 l = sort c2 l.
Proof.
  induction l as [|x l IH]; intros H; [reflexivity|].
  change (sortInsert c1 x (sort c1 l) = sortInsert c2 x (sort c2 l)).
  rewrite IH by (intros a b Ha Hb; apply H; now right).
  apply sortInsert_agree. intros y Hy. apply H; [now left|].
  right. apply (Permutation_in _ (Permutation_sym (sort_perm c2 l)) Hy).
Qed.

Section RankingFacts.

Variable localeCompare : string -> string -> Z.

(** The collation is a total preorder on strings: its sign is reversed
    when the arguments are swapped, and "not after" is transitive.  It may
    return zero on two different strings. *)
Hypothesis collation_antisym : forall a b, (localeCompare a b < 0 <-> 0 < localeCompare b a)%Z.
Hypothesis collation_le_trans :
  forall a b c, (localeCompare a b <= 0 -> localeCompare b c <= 0 -> localeCompare a c <= 0)%Z.

Lemma collation_refl a : localeCompare a a = 0%Z.
Proof. pose proof (collation_antisym a a). lia. Qed.

Lemma collation_zero_sym a b : localeCompare a b = 0%Z -> localeCompare b a = 0%Z.
Proof.
  pose proof (collation_antisym a b). pose proof (collation_antisym b a). lia.
Qed.

Lemma collation_trans a b c :
  (localeCompare a b < 0 -> localeCompare b c < 0 -> localeCompare a c < 0)%Z.
Proof.
  intros Hab Hbc.
  assert (Hac : (localeCompare a c <= 0)%Z) by (apply (collation_le_trans a b c); lia).
  destruct (Z.eq_dec (localeCompare a c) 0) as [E | E]; [|lia].
  apply collation_zero_sym in E.
  assert (Hcb : (localeCompare c b <= 0)%Z) by (apply (collation_le_trans c a b); lia).
  apply collation_antisym in Hbc. lia.
Qed.

Lemma collation_zero_trans a b c :
  localeCompare a b = 0%Z -> localeCompare b c = 0%Z -> localeCompare a c = 0%Z.
Proof.
  intros Hab Hbc.
  assert (H1 : (localeCompare a c <= 0)%Z) by (apply (collation_le_trans a b c); lia).
  apply collation_zero_sym in Hab. apply collation_zero_sym in Hbc.
  assert (H2 : (localeCompare c a <= 0)%Z) by (apply (collation_le_trans c b a); lia).
  pose proof (collation_antisym a c). lia.
Qed.

(** The comparator returns the first difference that is not zero. *)
Lemma compareStandings_cases a b :
  let c := Workspace.compareStandings localeCompare a b in
  (~ Standing.pts a == Standing.pts b /\ c == Standing.pts b - Standing.pts a)
  \/ (Standing.pts a == Standing.pts b
      /\ ~ Standing.nrr a == Standing.nrr b
      /\ c == Standing.nrr b - Standing.nrr a)
  \/ (Standing.pts a == Standing.pts b
      /\ Standing.nrr a == Standing.nrr b
      /\ Standing.mw a <> Standing.mw b
      /\ c == inject_Z (Standing.mw b - Standing.mw a))
  \/ (levelOnKeys a b
      /\ c = inject_Z (localeCompare (Standing.name a) (Standing.name b))).
Proof.
  cbv zeta. unfold Workspace.compareStandings, JS.num_neq, levelOnKeys.
  destruct (Qeq_bool (JS.or_else (Standing.pts b) 0 - JS.or_else (Standing.pts a) 0) 0) eqn:Ep;
    simpl.
  2:{ left. apply Qeq_bool_neq in Ep. rewrite !or_else_zero in Ep.
      split; [lra|]. now rewrite !or_else_zero. }
  apply Qeq_bool_eq in Ep. rewrite !or_else_zero in Ep.
  destruct (Qeq_bool (JS.or_else (Standing.nrr b) 0 - JS.or_else (Standing.nrr a) 0) 0) eqn:En;
    simpl.
  2:{ right; left. apply Qeq_bool_neq in En. rewrite !or_else_zero in En.
      split; [lra|]. split; [lra|]. now rewrite !or_else_zero. }
  apply Qeq_bool_eq in En. rewrite !or_else_zero in En.
  destruct (Qeq_bool (JS.or_else (inject_Z (Standing.mw b)) 0
                      - JS.or_else (inject_Z (Standing.mw a)) 0) 0) eqn:Ew; simpl.
  2:{ right; right; left. apply Qeq_bool_neq in Ew.
      rewrite !or_else_zero, inject_Z_diff in Ew.
      split; [lra|]. split; [lra|]. split.
      - intros H. apply Ew. rewrite H, Z.sub_diag. reflexivity.
      - now rewrite !or_else_zero, inject_Z_diff. }
  apply Qeq_bool_eq in Ew. rewrite !or_else_zero, inject_Z_diff in Ew.
  apply (proj1 (inject_Z_zero _)) in Ew.
  right; right; right.
  split; [split; [lra|split; [lra|lia]]|reflexivity].
Qed.

(** A negative comparison is the ranking rule of the specification. *)
Lemma compareStandings_negative a b :
  Workspace.compareStandings localeCompare a b < 0
  <-> Workspace.rankedBefore localeCompare a b.
Proof.
  unfold Workspace.rankedBefore.
  destruct (compareStandings_cases a b)
    as [(Hp & Hc) | [(Hp & Hn & Hc) | [(Hp & Hn & Hw & Hc) | ((Hp & Hn & Hw) & Hc)]]];
    rewrite Hc; clear Hc.
  - split; [intros H; left; lra|]. intros [H | (H & _)]; [lra | contradiction].
  - split; [intros H; right; split; [exact Hp|]; left; lra|].
    intros [H | (_ & [H | (H & _)])]; [lra | lra | contradiction].
  - rewrite inject_Z_neg.
    split; [intros H; right; split; [exact Hp|]; right; split; [exact Hn|]; left; lia|].
    intros [H | (_ & [H | (_ & [H | (H & _)])])]; [lra | lra | lia | contradiction].
  - rewrite inject_Z_neg.
    split; [intros H; right; split; [exact Hp|]; right; split; [exact Hn|];
            right; split; [exact Hw|exact H]|].
    intros [H | (_ & [H | (_ & [H | (_ & H)])])]; [lra | lra | lia | exact H].
Qed.

(** A zero comparison: level on the three numbers, and names the
    collation does not tell apart. *)
Lemma compareStandings_level a b :
  Workspace.compareStandings localeCompare a b == 0 <-> rankedLevel localeCompare a b.
Proof.
  unfold rankedLevel.
  destruct (compareStandings_cases a b)
    as [(Hp & Hc) | [(Hp & Hn & Hc) | [(Hp & Hn & Hw & Hc) | (Hl & Hc)]]];
    rewrite Hc; clear Hc.
  - split; [intros H; exfalso; apply Hp; lra|].
    intros ((H & _) & _). contradiction.
  - split; [intros H; exfalso; apply Hn; lra|].
    intros ((_ & H & _) & _). contradiction.
  - split.
    + intros H. apply (proj1 (inject_Z_zero _)) in H. lia.
    + intros ((_ & _ & H) & _). congruence.
  - split.
    + intros H. apply (proj1 (inject_Z_zero _)) in H. now split.
    + intros (_ & H). rewrite H. reflexivity.
Qed.

Lemma comparesLevel_spec a b :
  comparesLevel localeCompare a b = true <-> rankedLevel localeCompare a b.
Proof.
  unfold comparesLevel. rewrite Qeq_bool_iff. apply compareStandings_level.
Qed.

Lemma rankedLevel_sym a b :
  rankedLevel localeCompare a b -> rankedLevel localeCompare b a.
Proof.
  intros ((Hp & Hn & Hw) & Hl). split; [|now apply collation_zero_sym].
  split; [lra|]. split; [lra|lia].
Qed.

Lemma rankedLevel_trans a b c :
  rankedLevel localeCompare a b -> rankedLevel localeCompare b c ->
  rankedLevel localeCompare a c.
Proof.
  intros ((Hp & Hn & Hw) & Hl) ((Hp' & Hn' & Hw') & Hl'). split.
  - split; [lra|]. split; [lra|lia].
  - eapply collation_zero_trans; eassumption.
Qed.

Lemma rankedBefore_trans a b c :
  Workspace.rankedBefore localeCompare a b ->
  Workspace.rankedBefore localeCompare b c ->
  Workspace.rankedBefore localeCompare a c.
Proof.
  unfold Workspace.rankedBefore.
  intros [H1 | (E1 & [H1 | (F1 & [H1 | (G1 & H1)])])]
         [H2 | (E2 & [H2 | (F2 & [H2 | (G2 & H2)])])];
    try (left; lra);
    try (right; split; [lra|]; left; lra);
    try (right; split; [lra|]; right; split; [lra|]; left; lia).
  right; split; [lra|]; right; split; [lra|]; right; split; [lia|].
  eapply collation_trans; eassumption.
Qed.

Lemma rankedBefore_irrefl a : ~ Workspace.rankedBefore localeCompare a a.
Proof.
  unfold Workspace.rankedBefore. rewrite collation_refl.
  intros [H | (_ & [H | (_ & [H | (_ & H)])])]; try lra; lia.
Qed.

Lemma rankedBefore_asym a b :
  Workspace.rankedBefore localeCompare a b -> ~ Workspace.rankedBefore localeCompare b a.
Proof.
  intros Hab Hba. apply (rankedBefore_irrefl a). now apply (rankedBefore_trans a b a).
Qed.

(** Of two rows one ranks before the other, or they are level. *)
Lemma rankedBefore_total a b :
  Workspace.rankedBefore localeCompare a b
  \/ rankedLevel localeCompare a b
  \/ Workspace.rankedBefore localeCompare b a.
Proof.
  unfold Workspace.rankedBefore, rankedLevel, levelOnKeys.
  destruct (Q_dec (Standing.pts a) (Standing.pts b)) as [[H | H] | H].
  { right. right. left. exact H. }
  { left. left. exact H. }
  destruct (Q_dec (Standing.nrr a) (Standing.nrr b)) as [[H' | H'] | H'].
  { right. right. right. split; [lra|]. left. exact H'. }
  { left. right. split; [lra|]. left. exact H'. }
  destruct (Z.lt_total (Standing.mw a) (Standing.mw b)) as [H'' | [H'' | H'']].
  { right. right. right. split; [lra|]. right. split; [lra|]. left. exact H''. }
  2:{ left. right. split; [lra|]. right. split; [lra|]. left. exact H''. }
  destruct (Z.lt_total (localeCompare (Standing.name a) (Standing.name b)) 0)
    as [L | [L | L]].
  - left. right. split; [lra|]. right. split; [lra|]. right. split; [lia|]. exact L.
  - right. left. repeat split; assumption.
  - right. right. right. split; [lra|]. right. split; [lra|]. right. split; [lia|].
    now apply collation_antisym.
Qed.

Lemma rankedBefore_not_level a b :
  Workspace.rankedBefore localeCompare a b -> ~ rankedLevel localeCompare a b.
Proof.
  intros Hb Hl. apply compareStandings_negative in Hb.
  apply compareStandings_level in Hl. lra.
Qed.

Lemma notAfter_spec a b :
  notAfter localeCompare a b
  <-> Workspace.rankedBefore localeCompare a b
      \/ Workspace.compareStandings localeCompare a b == 0.
Proof.
  unfold notAfter. rewrite <- compareStandings_negative. split.
  - intros H. apply Qle_lt_or_eq in H. tauto.
  - intros [H | H]; lra.
Qed.

Lemma notAfter_total a b : ~ notAfter localeCompare a b -> notAfter localeCompare b a.
Proof.
  intros H. apply notAfter_spec.
  destruct (rankedBefore_total a b) as [R | [R | R]].
  - exfalso. apply H. apply notAfter_spec. now left.
  - exfalso. apply H. apply notAfter_spec. right. now apply compareStandings_level.
  - now left.
Qed.

Lemma notAfter_trans a b c :
  notAfter localeCompare a b -> notAfter localeCompare b c -> notAfter localeCompare a c.
Proof.
  unfold notAfter. intros Hab Hbc.
  destruct (compareStandings_cases a b)
    as [(Hp & Hc) | [(Hp & Hn & Hc) | [(Hp & Hn & Hw & Hc) | ((Hp & Hn & Hw) & Hc)]]];
    destruct (compareStandings_cases b c)
    as [(Hp' & Hc') | [(Hp' & Hn' & Hc') | [(Hp' & Hn' & Hw' & Hc')
                                           | ((Hp' & Hn' & Hw') & Hc')]]];
    destruct (compareStandings_cases a c)
    as [(Hp'' & Hc'') | [(Hp'' & Hn'' & Hc'') | [(Hp'' & Hn'' & Hw'' & Hc'')
                                                | ((Hp'' & Hn'' & Hw'') & Hc'')]]];
    rewrite Hc in Hab; rewrite Hc' in Hbc; rewrite Hc'';
    rewrite ?inject_Z_nonpos in *;
    try lra; try lia;
    try (exfalso; apply Hp''; lra); try (exfalso; apply Hn''; lra);
    try (exfalso; apply Hp; lra); try (exfalso; apply Hp'; lra);
    try (exfalso; apply Hn; lra); try (exfalso; apply Hn'; lra).
  eapply collation_le_trans; eassumption.
Qed.

(** Rows level with the same row do not come apart. *)
Lemma level_rows_tie r a b :
  comparesLevel localeCompare r a = true -> comparesLevel localeCompare r b = true ->
  Workspace.compareStandings localeCompare a b <= 0.
Proof.
  rewrite !comparesLevel_spec. intros Ha Hb.
  assert (H : rankedLevel localeCompare a b).
  { apply (rankedLevel_trans a r b); [now apply rankedLevel_sym|exact Hb]. }
  apply compareStandings_level in H. lra.
Qed.

End RankingFacts.

Lemma standings_names localeCompare tournament :
  Permutation (map Team.name (Tournament.teams tournament))
              (map Standing.name (Workspace.standings localeCompare tournament)).
Proof.
  unfold Workspace.standings.
  rewrite <- (Permutation_map Standing.name (sort_perm _ _)).
  rewrite map_map.
  erewrite map_ext; [reflexivity|].
  intros team. unfold Standing.name.
  now destruct (teamStanding_fields tournament team) as (-> & _).
Qed.

Lemma codeUnitCompare_eq a b : codeUnitCompare a b = 0%Z -> a = b.
Proof.
  unfold codeUnitCompare. destruct (String.compare a b) eqn:E; try discriminate.
  intros _. now apply String.compare_eq_iff.
Qed.

Lemma codeUnitCompare_antisym a b :
  (codeUnitCompare a b < 0 <-> 0 < codeUnitCompare b a)%Z.
Proof.
  unfold codeUnitCompare. rewrite (String.compare_antisym a b).
  destruct (String.compare b a); simpl; lia.
Qed.

Lemma codeUnitCompare_lt a b :
  (codeUnitCompare a b < 0)%Z <-> OrderedTypeEx.String_as_OT.lt a b.
Proof.
  rewrite <- OrderedTypeEx.String_as_OT.cmp_lt.
  unfold codeUnitCompare, OrderedTypeEx.String_as_OT.cmp.
  destruct (String.compare a b); split; intros H; try lia; try discriminate; reflexivity.
Qed.

Lemma codeUnitCompare_trans a b c :
  (codeUnitCompare a b < 0 -> codeUnitCompare b c < 0 -> codeUnitCompare a c < 0)%Z.
Proof.
  rewrite !codeUnitCompare_lt. apply OrderedTypeEx.String_as_OT.lt_trans.
Qed.

(** Zed and Alpha are level on points and net run rate, Alpha has the
    smaller name, and Zed, with one win against none, stands first. *)
Lemma level_teams_ranked_by_wins_before_name :
  exists a b above below,
    Workspace.standings codeUnitCompare levelCup = above ++ a :: b :: below
    /\ Standing.pts a == Standing.pts b
    /\ Standing.nrr a == Standing.nrr b
    /\ Standing.name a = "Zed" /\ Standing.name b = "Alpha"
    /\ (codeUnitCompare (Standing.name b) (Standing.name a) < 0)%Z
    /\ (Standing.mw b < Standing.mw a)%Z
    /\ ~ Workspace.rankedBeforeByName codeUnitCompare a b.
Proof.
  exists (Workspace.teamStanding levelCup zed), (Workspace.teamStanding levelCup alpha),
         [Workspace.teamStanding levelCup yoke], [Workspace.teamStanding levelCup xray].
  split; [vm_compute; reflexivity|].
  split; [apply Qeq_bool_eq; vm_compute; reflexivity|].
  split; [apply Qeq_bool_eq; vm_compute; reflexivity|].
  split; [reflexivity|]. split; [reflexivity|].
  split; [vm_compute; reflexivity|].
  split; [vm_compute; reflexivity|].
  unfold Workspace.rankedBeforeByName.
  assert (Hp : Standing.pts (Workspace.teamStanding levelCup zed)
               == Standing.pts (Workspace.teamStanding levelCup alpha))
    by (apply Qeq_bool_eq; vm_compute; reflexivity).
  assert (Hn : Standing.nrr (Workspace.teamStanding levelCup zed)
               == Standing.nrr (Workspace.teamStanding levelCup alpha))
    by (apply Qeq_bool_eq; vm_compute; reflexivity).
  assert (Hl : (0 < codeUnitCompare (Standing.name (Workspace.teamStanding levelCup zed))
                      (Standing.name (Workspace.teamStanding levelCup alpha)))%Z)
    by (vm_compute; reflexivity).
  intros [H | (_ & [H | (_ & H)])]; [lra | lra | lia].
Qed.

(** The copy of the component compares points, net run rate and name
    only, and puts Alpha in front of Zed. *)
Lemma copy_ranks_level_teams_by_name :
  map Standing.name (WorkspaceCopy.standings codeUnitCompare levelCup)
  = ["Yoke"; "Alpha"; "Zed"; "Xray"]
  /\ map Standing.name (Workspace.standings codeUnitCompare levelCup)
     = ["Yoke"; "Zed"; "Alpha"; "Xray"].
Proof. split; vm_compute; reflexivity. Qed.

Lemma codeUnitCompare_le_trans a b c :
  (codeUnitCompare a b <= 0 -> codeUnitCompare b c <= 0 -> codeUnitCompare a c <= 0)%Z.
Proof.
  intros Hab Hbc.
  destruct (Z.eq_dec (codeUnitCompare a b) 0) as [E | E].
  { apply codeUnitCompare_eq in E. now subst. }
  destruct (Z.eq_dec (codeUnitCompare b c) 0) as [E' | E'].
  { apply codeUnitCompare_eq in E'. now subst. }
  assert (codeUnitCompare a c < 0)%Z by (apply (codeUnitCompare_trans a b c); lia). lia.
Qed.

Lemma caseBlindCompare_antisym a b :
  (caseBlindCompare a b < 0 <-> 0 < caseBlindCompare b a)%Z.
Proof. apply codeUnitCompare_antisym. Qed.

Lemma caseBlindCompare_le_trans a b c :
  (caseBlindCompare a b <= 0 -> caseBlindCompare b c <= 0 -> caseBlindCompare a c <= 0)%Z.
Proof. apply codeUnitCompare_le_trans. Qed.

(** Under a collation that returns zero on the names of two level teams
    the table lists them in the order of the team list, whichever comes
    first there. *)
Lemma undistinguished_names_keep_list_order :
  caseBlindCompare "Lions" "LIONS" = 0%Z
  /\ map Standing.name (Workspace.standings caseBlindCompare (cup [lions; lionsUpper] [] [] []))
     = ["Lions"; "LIONS"]
  /\ map Standing.name (Workspace.standings caseBlindCompare (cup [lionsUpper; lions] [] [] []))
     = ["LIONS"; "Lions"].
Proof. repeat split; vm_compute; reflexivity. Qed.

(** C3: for a collation that is a total preorder on strings (it may
    return zero on different strings) the table is the team rows sorted
    by the comparator, a rearrangement of them in which every row, compared
    with any row below it, has more points, or the same points and a
    higher net run rate, or the same of both and more wins, or the same of
    all three and a name the collation puts first or does not tell apart.
    The comparator returns zero on two rows exactly when they are level on
    the three numbers and the collation returns zero on their names; rows
    level with each other keep the order of the team list.  Of two rows
    one ranks before the other or they are level, never two of these, and
    ranking before is transitive.  Rows level on the three numbers are
    ordered by name, strictly when the collation tells the names apart. *)
Theorem standings_ranked
    (localeCompare : string -> string -> Z)
    (collation_antisym : forall a b, (localeCompare a b < 0 <-> 0 < localeCompare b a)%Z)
    (collation_le_trans : forall a b c,
        (localeCompare a b <= 0 -> localeCompare b c <= 0 -> localeCompare a c <= 0)%Z)
    (tournament : Tournament.t) (data : list Standing.t) :
  let table := rankRows localeCompare data in
  let before := Workspace.rankedBefore localeCompare in
  let level := rankedLevel localeCompare in
  Workspace.standings localeCompare tournament
  = rankRows localeCompare
      (map (Workspace.teamStanding tournament) (Tournament.teams tournament))
  /\ Permutation data table
  /\ StronglySorted (fun a b => before a b \/ level a b) table
  /\ (forall r, filter (comparesLevel localeCompare r) table
                = filter (comparesLevel localeCompare r) data)
  /\ (forall a b,
        (before a b <-> Workspace.compareStandings localeCompare a b < 0)
        /\ (level a b <-> Workspace.compareStandings localeCompare a b == 0)
        /\ (level a b <-> comparesLevel localeCompare a b = true))
  /\ (forall a b,
        (before a b \/ level a b \/ before b a)
        /\ ~ (before a b /\ before b a)
        /\ ~ (before a b /\ level a b))
  /\ (forall a b c, before a b -> before b c -> before a c)
  /\ (forall a b, levelOnKeys a b ->
        (before a b <-> (localeCompare (Standing.name a) (Standing.name b) < 0)%Z)
        /\ (level a b <-> localeCompare (Standing.name a) (Standing.name b) = 0%Z)).
Proof.
  cbv zeta.
  split; [reflexivity|].
  split; [apply sort_perm|].
  split.
  { assert (Hs : StronglySorted (notAfter localeCompare) (rankRows localeCompare data)).
    { unfold rankRows. apply sort_sorted.
      - apply notAfter_total; assumption.
      - apply notAfter_trans; assumption. }
    induction Hs as [|a l Hl IH Ha]; constructor; [exact IH|].
    eapply Forall_impl; [|exact Ha]. intros b Hb.
    apply notAfter_spec in Hb. destruct Hb as [Hb | Hb]; [now left|].
    right. now apply compareStandings_level. }
  split.
  { intros r. unfold rankRows. apply sort_stable.
    intros a b. now apply level_rows_tie. }
  split.
  { intros a b. split; [symmetry; apply compareStandings_negative|].
    split; [symmetry; apply compareStandings_level|].
    symmetry. now apply comparesLevel_spec. }
  split.
  { intros a b. split; [now apply rankedBefore_total|]. split.
    - intros [Hab Hba]. revert Hba. now apply rankedBefore_asym.
    - intros [Hab Hl]. revert Hl. now apply rankedBefore_not_level. }
  split; [apply rankedBefore_trans; assumption|].
  intros a b (Hp & Hn & Hw). unfold Workspace.rankedBefore, rankedLevel, levelOnKeys.
  split; split.
  - intros [H | (_ & [H | (_ & [H | (_ & H)])])]; [lra | lra | lia | exact H].
  - intros H. right. split; [exact Hp|]. right. split; [exact Hn|]. right. now split.
  - intros (_ & H). exact H.
  - intros H. repeat split; assumption.
Qed.

Lemma standings_ranked_witness :
  StronglySorted
    (fun a b => Workspace.rankedBefore codeUnitCompare a b
                \/ rankedLevel codeUnitCompare a b)
    (Workspace.standings codeUnitCompare levelCup).
Proof.
  exact (proj1 (proj2 (proj2
           (standings_ranked codeUnitCompare codeUnitCompare_antisym
              codeUnitCompare_le_trans levelCup
              (map (Workspace.teamStanding levelCup) (Tournament.teams levelCup)))))).
Defined.

(* ================================================================== *)
(** ** What the two computations depend on *)
(* ================================================================== *)

Section Lockstep.

Local Open Scope nat_scope.

Lemma pairingStep_grows e stadiums pool r (matches : list Match.t) m :
  List.length matches <= List.length (pairingStep e stadiums pool r matches m).
Proof.
  unfold pairingStep. destruct (notBye _ && notBye _); [|lia].
  rewrite length_app. simpl. lia.
Qed.

Lemma inner_loop_grows e stadiums pool r (seats : list nat) (matches : list Match.t) :
  List.length matches
  <= List.length (fold_left (pairingStep e stadiums pool r) seats matches).
Proof.
  revert matches. induction seats as [|m seats IH]; intros matches; simpl; [lia|].
  etransitivity; [apply (pairingStep_grows e stadiums pool r matches m)|apply IH].
Qed.

Lemma outer_loop_grows e stadiums mpr (rounds : list nat) pool (matches : list Match.t) :
  List.length matches
  <= List.length (snd (fold_left (roundStep e stadiums mpr) rounds (pool, matches))).
Proof.
  revert pool matches. induction rounds as [|r rounds IH]; intros pool matches; simpl; [lia|].
  etransitivity; [apply (inner_loop_grows e stadiums pool r (seq 0 mpr) matches)|apply IH].
Qed.

(** Two runs of the generator, on the same teams, push their matches in
    lockstep; what is read of the matches is the same in both runs when it
    is the same for every match pushed, the [k]-th for each [k] below a
    bound on the number of matches. *)
Context {B : Type}.
Variable g : Match.t -> B.
Variables e1 e2 : Env.t.
Variables stadiums1 stadiums2 : list Stadium.t.
Variable bound : nat.
Hypothesis same_below :
  forall r m k t1 t2, k < bound ->
    g (newMatch e1 stadiums1 r m k t1 t2) = g (newMatch e2 stadiums2 r m k t1 t2).

Lemma inner_loop_lockstep pool r (seats : list nat) (ms1 ms2 : list Match.t) :
  List.length ms1 = List.length ms2 -> map g ms1 = map g ms2 ->
  List.length (fold_left (pairingStep e1 stadiums1 pool r) seats ms1) <= bound ->
  List.length (fold_left (pairingStep e1 stadiums1 pool r) seats ms1)
  = List.length (fold_left (pairingStep e2 stadiums2 pool r) seats ms2)
  /\ map g (fold_left (pairingStep e1 stadiums1 pool r) seats ms1)
     = map g (fold_left (pairingStep e2 stadiums2 pool r) seats ms2).
Proof.
  revert ms1 ms2. induction seats as [|m seats IH]; intros ms1 ms2 Hlen Hmap Hb; simpl.
  - now split.
  - simpl in Hb.
    pose proof (inner_loop_grows e1 stadiums1 pool r seats
                  (pairingStep e1 stadiums1 pool r ms1 m)) as Hgrow.
    apply IH; [| |exact Hb]; unfold pairingStep in *;
      destruct (notBye (nth m pool byeTeam)
                && notBye (nth (List.length pool - 1 - m) pool byeTeam));
      try assumption.
    + rewrite !length_app. simpl. lia.
    + rewrite !map_app, Hmap. cbn [map]. rewrite <- Hlen. f_equal. f_equal.
      apply same_below. rewrite length_app in Hgrow. simpl in Hgrow. lia.
Qed.

Lemma outer_loop_lockstep mpr (rounds : list nat) pool (ms1 ms2 : list Match.t) :
  List.length ms1 = List.length ms2 -> map g ms1 = map g ms2 ->
  List.length (snd (fold_left (roundStep e1 stadiums1 mpr) rounds (pool, ms1))) <= bound ->
  map g (snd (fold_left (roundStep e1 stadiums1 mpr) rounds (pool, ms1)))
  = map g (snd (fold_left (roundStep e2 stadiums2 mpr) rounds (pool, ms2))).
Proof.
  revert pool ms1 ms2.
  induction rounds as [|r rounds IH]; intros pool ms1 ms2 Hlen Hmap Hb; simpl.
  - exact Hmap.
  - simpl in Hb.
    pose proof (outer_loop_grows e1 stadiums1 mpr rounds (rotate pool)
                  (fold_left (pairingStep e1 stadiums1 pool r) (seq 0 mpr) ms1)) as Hgrow.
    destruct (inner_loop_lockstep pool r (seq 0 mpr) ms1 ms2 Hlen Hmap) as [Hlen' Hmap'];
      [lia|].
    now apply IH.
Qed.

Lemma generateMatches_lockstep (teams : list Team.t) :
  List.length (generateMatches e1 teams stadiums1) <= bound ->
  map g (generateMatches e1 teams stadiums1) = map g (generateMatches e2 teams stadiums2).
Proof.
  unfold generateMatches. intros Hb. now apply outer_loop_lockstep.
Qed.

End Lockstep.

(** Two runs on the same teams and stadiums that draw different random
    numbers and read different clocks produce different match lists: the
    venues differ and the ids differ.  Two hosts whose collations order
    the names of two level teams differently produce different tables. *)
Lemma schedule_depends_on_clock_and_dice :
  ~ (forall e1 e2 teams stadiums,
        generateMatches e1 teams stadiums = generateMatches e2 teams stadiums)
  /\ map Match.venueId (generateMatches firstRun [lions; tigers] [oval; lords])
     = ["1700000000002"]
  /\ map Match.venueId (generateMatches secondRun [lions; tigers] [oval; lords])
     = ["1700000000003"]
  /\ map Match.id (generateMatches firstRun [lions; tigers] [oval; lords])
     = ["M-R1-0-1700000000100"]
  /\ map Match.id (generateMatches secondRun [lions; tigers] [oval; lords])
     = ["M-R1-0-1700000000200"]
  /\ map Standing.name
       (Workspace.standings codeUnitCompare (cup [zedTeam; alphaTeam] [] [] []))
     = ["Zed"; "alpha"]
  /\ map Standing.name
       (Workspace.standings caseBlindCompare (cup [zedTeam; alphaTeam] [] [] []))
     = ["alpha"; "Zed"]
  /\ ~ (forall lc1 lc2 tournament,
          Workspace.standings lc1 tournament = Workspace.standings lc2 tournament).
Proof.
  split.
  - intros H. specialize (H firstRun secondRun [lions; tigers] [oval; lords]).
    vm_compute in H. discriminate.
  - do 6 (split; [vm_compute; reflexivity|]).
    intros H.
    specialize (H codeUnitCompare caseBlindCompare (cup [zedTeam; alphaTeam] [] [] [])).
    apply (f_equal (map Standing.name)) in H. vm_compute in H. discriminate.
Qed.

(** C9: the pairings and rounds of the generated schedule are a function
    of the team list alone, whatever the stadiums, the random draws and the
    clock.  The ids are the same in two runs whose clocks agree on the
    readings taken, one per match; the venues are the same in two runs on
    the same stadiums whose random draws agree on the draws taken; two runs
    that agree on both produce the same match list.  The standings are the
    same for two tournaments with the same teams, matches, penalties and
    configuration under collations that agree on the names of the teams. *)
Theorem schedule_and_standings_determinism
    (e1 e2 : Env.t) (teams : list Team.t) (stadiums1 stadiums2 : list Stadium.t)
    (lc1 lc2 : string -> string -> Z) (t1 t2 : Tournament.t) :
  let taken := List.length (generateMatches e1 teams stadiums1) in
  map fixture (generateMatches e1 teams stadiums1)
  = map fixture (generateMatches e2 teams stadiums2)
  /\ List.length (generateMatches e2 teams stadiums2) = taken
  /\ ((forall k, (k < taken)%nat -> Env.now e1 k = Env.now e2 k) ->
      map Match.id (generateMatches e1 teams stadiums1)
      = map Match.id (generateMatches e2 teams stadiums2))
  /\ ((forall k, (k < taken)%nat -> Env.random e1 k == Env.random e2 k) ->
      map Match.venueId (generateMatches e1 teams stadiums1)
      = map Match.venueId (generateMatches e2 teams stadiums1))
  /\ ((forall k, (k < taken)%nat -> Env.random e1 k == Env.random e2 k) ->
      (forall k, (k < taken)%nat -> Env.now e1 k = Env.now e2 k) ->
      generateMatches e1 teams stadiums1 = generateMatches e2 teams stadiums1)
  /\ (Tournament.teams t1 = Tournament.teams t2 ->
      Tournament.matches t1 = Tournament.matches t2 ->
      Tournament.penalties t1 = Tournament.penalties t2 ->
      Tournament.config t1 = Tournament.config t2 ->
      (forall a b, In a (Tournament.teams t1) -> In b (Tournament.teams t1) ->
                   lc1 (Team.name a) (Team.name b) = lc2 (Team.name a) (Team.name b)) ->
      Workspace.standings lc1 t1 = Workspace.standings lc2 t2).
Proof.
  cbv zeta.
  assert (Hfix : map fixture (generateMatches e1 teams stadiums1)
                 = map fixture (generateMatches e2 teams stadiums2))
    by (now rewrite !generateMatches_fixtures).
  split; [exact Hfix|].
  split; [now rewrite <- (length_map fixture), <- Hfix, length_map|].
  split.
  { intros Hn. apply (generateMatches_lockstep Match.id e1 e2 stadiums1 stadiums2
                        (List.length (generateMatches e1 teams stadiums1))); [|lia].
    intros r m k a b Hk. cbn [newMatch Match.id]. now rewrite (Hn k Hk). }
  split.
  { intros Hr. apply (generateMatches_lockstep Match.venueId e1 e2 stadiums1 stadiums1
                        (List.length (generateMatches e1 teams stadiums1))); [|lia].
    intros r m k a b Hk. cbn [newMatch Match.venueId].
    apply pickVenue_agree. now apply Hr. }
  split.
  { intros Hr Hn.
    rewrite <- (map_id (generateMatches e1 teams stadiums1)).
    rewrite <- (map_id (generateMatches e2 teams stadiums1)).
    apply (generateMatches_lockstep (fun m => m) e1 e2 stadiums1 stadiums1
             (List.length (generateMatches e1 teams stadiums1))); [|lia].
    intros r m k a b Hk. unfold newMatch.
    now rewrite (pickVenue_agree e1 e2 k stadiums1 (Hr k Hk)), (Hn k Hk). }
  intros Ht Hm Hp Hc Hlc.
  unfold Workspace.standings.
  assert (Hrows : map (Workspace.teamStanding t1) (Tournament.teams t1)
                  = map (Workspace.teamStanding t2) (Tournament.teams t2)).
  { rewrite <- Ht. apply map_ext. intros team.
    unfold Workspace.teamStanding, Workspace.aggregate. now rewrite Hm, Hp, Hc. }
  rewrite <- Hrows. apply sort_agree.
  intros x y Hx Hy.
  apply in_map_iff in Hx as (a & <- & Ha). apply in_map_iff in Hy as (b & <- & Hb).
  unfold Workspace.compareStandings, Standing.name.
  destruct (teamStanding_fields t1 a) as (-> & _).
  destruct (teamStanding_fields t1 b) as (-> & _).
  now rewrite (Hlc a b Ha Hb).
Qed.

(* ================================================================== *)
(** ** The circle method on seats *)
(* ================================================================== *)

Section Circle.

Local Open Scope nat_scope.

Lemma rotate_perm {A : Type} (l : list A) : Permutation l (rotate l).
Proof.
  destruct l as [|a l]; [reflexivity|].
  destruct l as [|z l _] using rev_ind; [reflexivity|].
  rewrite rotate_snoc. constructor.
  rewrite Permutation_app_comm. reflexivity.
Qed.

Lemma poolAt_perm {A : Type} (r : nat) (l : list A) : Permutation l (poolAt r l).
Proof.
  induction r as [|r IH]; [reflexivity|].
  rewrite poolAt_succ, <- rotate_perm. exact IH.
Qed.

(** Seat by seat: the head stays, seat 1 receives the last entry, every
    other entry moves one seat up. *)
Lemma rotate_nth {A : Type} (d : A) (n : nat) (pool : list A) :
  List.length pool = S n -> (1 <= n)%nat ->
  nth 0 (rotate pool) d = nth 0 pool d
  /\ nth 1 (rotate pool) d = nth n pool d
  /\ forall j, (1 <= j < n)%nat -> nth (S j) (rotate pool) d = nth j pool d.
Proof.
  intros Hlen Hn.
  destruct pool as [|a ring]; [discriminate|].
  destruct ring as [|z ring _] using rev_ind; [simpl in Hlen; lia|].
  rewrite rotate_snoc. simpl in Hlen. rewrite length_app in Hlen. simpl in Hlen.
  assert (Hr : List.length ring = (n - 1)%nat) by lia.
  split; [reflexivity|]. split.
  - destruct n as [|n]; [lia|]. simpl.
    rewrite app_nth2 by lia. replace (n - List.length ring)%nat with 0%nat by lia.
    reflexivity.
  - intros j Hj. destruct j as [|j]; [lia|]. simpl.
    rewrite app_nth1 by lia. reflexivity.
Qed.

Lemma mod_succ_step (a b r n : nat) :
  ((a + r) mod n = b mod n -> (a + S r) mod n = S b mod n)%nat.
Proof.
  intros H.
  replace (a + S r)%nat with ((a + r) + 1)%nat by lia.
  replace (S b) with (b + 1)%nat by lia.
  rewrite <- (Nat.Div0.add_mod_idemp_l (a + r)), H, Nat.Div0.add_mod_idemp_l.
  reflexivity.
Qed.

Lemma circleAt_start (n : nat) : circleAt n 0 (seq 0 (S n)).
Proof.
  unfold circleAt. rewrite length_seq. split; [reflexivity|]. split; [reflexivity|].
  intros j Hj. rewrite seq_nth by lia. simpl.
  split; [lia|]. now rewrite Nat.add_0_r.
Qed.

Lemma circleAt_rotate (n r : nat) (pool : list nat) :
  (1 <= n)%nat -> circleAt n r pool -> circleAt n (S r) (rotate pool).
Proof.
  intros Hn (Hlen & Hhead & Hring).
  destruct (rotate_nth 0%nat n pool Hlen Hn) as (R0 & R1 & Rj).
  unfold circleAt. rewrite rotate_length.
  split; [exact Hlen|]. split; [now rewrite R0|].
  intros j Hj.
  destruct (Nat.eq_dec j 1) as [-> | Hj1].
  - rewrite R1. destruct (Hring n ltac:(lia)) as [Hb Hm].
    split; [exact Hb|].
    apply mod_succ_step with (b := 0%nat).
    rewrite Hm, Nat.Div0.mod_same, Nat.Div0.mod_0_l. reflexivity.
  - destruct j as [|j]; [lia|].
    rewrite Rj by lia. destruct (Hring j ltac:(lia)) as [Hb Hm].
    split; [exact Hb|]. now apply mod_succ_step.
Qed.

Lemma circleAt_round (n r : nat) :
  (1 <= n)%nat -> circleAt n r (poolAt r (seq 0 (S n))).
Proof.
  intros Hn. induction r as [|r IH]; [apply circleAt_start|].
  rewrite poolAt_succ. now apply circleAt_rotate.
Qed.

(** Entries of the index pool: all below the size, no two alike. *)
Lemma index_pool_bound (n r j : nat) :
  (j <= n)%nat -> (nth j (poolAt r (seq 0 (S n))) 0 <= n)%nat.
Proof.
  intros Hj.
  assert (Hin : In (nth j (poolAt r (seq 0 (S n))) 0%nat) (poolAt r (seq 0 (S n)))).
  { apply nth_In. rewrite poolAt_length, length_seq. lia. }
  apply (Permutation_in _ (Permutation_sym (poolAt_perm r (seq 0 (S n))))) in Hin.
  apply in_seq in Hin. lia.
Qed.

Lemma index_pool_injective (n r i j : nat) :
  (i <= n)%nat -> (j <= n)%nat ->
  nth i (poolAt r (seq 0 (S n))) 0%nat = nth j (poolAt r (seq 0 (S n))) 0%nat ->
  i = j.
Proof.
  intros Hi Hj H.
  assert (Hnd : NoDup (poolAt r (seq 0 (S n)))).
  { apply (Permutation_NoDup (poolAt_perm r _)), seq_NoDup. }
  apply (proj1 (NoDup_nth _ 0%nat) Hnd); try (rewrite poolAt_length, length_seq; lia).
  exact H.
Qed.

(** Every seating of round [r] has the key of round [r]. *)
Lemma seating_key (h r m : nat) :
  (1 <= h)%nat -> (m < h)%nat ->
  let n := (2 * h - 1)%nat in
  ((pairKey (seating n r m) + 2 * r) mod n = 0)%nat.
Proof.
  intros Hh Hm n.
  assert (Hn : (1 <= n)%nat) by (unfold n; lia).
  destruct (circleAt_round n r Hn) as (_ & Hhead & Hring).
  unfold seating, pairKey. cbn [fst snd].
  destruct m as [|m].
  - rewrite Hhead, Nat.sub_0_r. simpl Nat.eqb. cbv iota.
    destruct (Hring n ltac:(lia)) as [Hb Hk].
    rewrite Nat.Div0.mod_same in Hk.
    replace (2 * nth n (poolAt r (seq 0 (S n))) 0 + 2 * r)%nat
      with ((nth n (poolAt r (seq 0 (S n))) 0 + r)
            + (nth n (poolAt r (seq 0 (S n))) 0 + r))%nat by lia.
    rewrite Nat.Div0.add_mod, Hk. simpl. apply Nat.Div0.mod_0_l.
  - destruct (Hring (S m) ltac:(unfold n; lia)) as [Hb1 Hk1].
    destruct (Hring (n - S m)%nat ltac:(unfold n; lia)) as [Hb2 Hk2].
    destruct (Nat.eqb_spec (nth (S m) (poolAt r (seq 0 (S n))) 0) 0); [lia|].
    destruct (Nat.eqb_spec (nth (n - S m) (poolAt r (seq 0 (S n))) 0) 0); [lia|].
    replace (nth (S m) (poolAt r (seq 0 (S n))) 0
             + nth (n - S m) (poolAt r (seq 0 (S n))) 0 + 2 * r)%nat
      with ((nth (S m) (poolAt r (seq 0 (S n))) 0 + r)
            + (nth (n - S m) (poolAt r (seq 0 (S n))) 0 + r))%nat by lia.
    rewrite Nat.Div0.add_mod, Hk1, Hk2, <- Nat.Div0.add_mod.
    replace (S m + (n - S m))%nat with n by (unfold n; lia).
    apply Nat.Div0.mod_same.
Qed.

End Circle.

Section CirclePairs.

Local Open Scope nat_scope.

(** With an odd number of ring seats, two rounds with the same key are the
    same round. *)
Lemma round_of_key (h k r r' : nat) :
  1 <= h -> r < 2 * h - 1 -> r' < 2 * h - 1 ->
  (k + 2 * r) mod (2 * h - 1) = 0 -> (k + 2 * r') mod (2 * h - 1) = 0 ->
  r = r'.
Proof.
  intros Hh Hr Hr' H H'.
  apply Nat.Div0.mod_divides in H as [c Hc].
  apply Nat.Div0.mod_divides in H' as [c' Hc'].
  remember (2 * h - 1) as n eqn:En.
  destruct (Nat.le_ge_cases c c') as [Hle | Hle].
  - assert (Hd : n * (c' - c) = 2 * (r' - r) /\ r <= r') by nia.
    destruct Hd as [Hd Hrr].
    assert (Hlt : c' - c < 2) by nia.
    destruct (c' - c) as [|[|x]]; [lia| |lia].
    rewrite Nat.mul_1_r in Hd. lia.
  - assert (Hd : n * (c - c') = 2 * (r - r') /\ r' <= r) by nia.
    destruct Hd as [Hd Hrr].
    assert (Hlt : c - c' < 2) by nia.
    destruct (c - c') as [|[|x]]; [lia| |lia].
    rewrite Nat.mul_1_r in Hd. lia.
Qed.

Lemma pairKey_normPair (p : nat * nat) : pairKey (normPair p) = pairKey p.
Proof.
  destruct p as [x y]. unfold pairKey, normPair. cbn [fst snd].
  destruct (Nat.eqb_spec x 0), (Nat.eqb_spec y 0),
    (Nat.eqb_spec (Nat.min x y) 0), (Nat.eqb_spec (Nat.max x y) 0); lia.
Qed.

Lemma normPair_eq (p q : nat * nat) :
  normPair p = normPair q -> p = q \/ p = (snd q, fst q).
Proof.
  destruct p as [x y], q as [u v]. unfold normPair. cbn [fst snd].
  intros [= Hmin Hmax].
  assert ((x = u /\ y = v) \/ (x = v /\ y = u)) as [[-> ->] | [-> ->]] by lia; auto.
Qed.

Lemma normPair_ordered (p : nat * nat) :
  fst p <> snd p -> fst (normPair p) < snd (normPair p).
Proof. destruct p as [x y]. unfold normPair. cbn [fst snd]. lia. Qed.

(** The two seats of a seating hold different entries. *)
Lemma seating_distinct (h r m : nat) :
  1 <= h -> m < h ->
  fst (seating (2 * h - 1) r m) <> snd (seating (2 * h - 1) r m).
Proof.
  intros Hh Hm. unfold seating. cbn [fst snd]. intros H.
  apply index_pool_injective in H; lia.
Qed.

Lemma seating_bound (h r m : nat) :
  1 <= h -> m < h ->
  fst (seating (2 * h - 1) r m) < 2 * h /\ snd (seating (2 * h - 1) r m) < 2 * h.
Proof.
  intros Hh Hm. unfold seating. cbn [fst snd].
  pose proof (index_pool_bound (2 * h - 1) r m ltac:(lia)).
  pose proof (index_pool_bound (2 * h - 1) r (2 * h - 1 - m) ltac:(lia)).
  lia.
Qed.

(** No unordered pair is seated twice. *)
Lemma seating_injective (h r m r' m' : nat) :
  1 <= h -> r < 2 * h - 1 -> r' < 2 * h - 1 -> m < h -> m' < h ->
  normPair (seating (2 * h - 1) r m) = normPair (seating (2 * h - 1) r' m') ->
  r = r' /\ m = m'.
Proof.
  intros Hh Hr Hr' Hm Hm' H.
  assert (Hrr : r = r').
  { apply (round_of_key h (pairKey (normPair (seating (2 * h - 1) r m)))); try assumption.
    - rewrite pairKey_normPair. now apply seating_key.
    - rewrite H, pairKey_normPair. now apply seating_key. }
  subst r'. split; [reflexivity|].
  apply normPair_eq in H. unfold seating in H. cbn [fst snd] in H.
  destruct H as [[= H _] | [= H _]].
  - apply index_pool_injective in H; lia.
  - apply index_pool_injective in H; lia.
Qed.

Lemma NoDup_grid {B : Type} (f : nat -> nat -> B) (rs ms : list nat) :
  NoDup rs -> NoDup ms ->
  (forall r m r' m', In r rs -> In m ms -> In r' rs -> In m' ms ->
                     f r m = f r' m' -> r = r' /\ m = m') ->
  NoDup (flat_map (fun r => map (f r) ms) rs).
Proof.
  intros Hrs Hms Hinj. induction Hrs as [|r rs Hr Hrs IH]; simpl; [constructor|].
  apply NoDup_app.
  - apply Finite.Injective_map_NoDup_in; [|exact Hms].
    intros m m' Hm Hm' E.
    now destruct (Hinj r m r m' (or_introl eq_refl) Hm (or_introl eq_refl) Hm' E).
  - apply IH. intros r1 m1 r2 m2 H1 Hm1 H2 Hm2.
    apply Hinj; auto using in_cons.
  - intros x Hx Hx'.
    apply in_map_iff in Hx as (m & <- & Hm).
    apply in_flat_map in Hx' as (r' & Hr' & Hx').
    apply in_map_iff in Hx' as (m' & E & Hm').
    destruct (Hinj r' m' r m (or_intror Hr') Hm' (or_introl eq_refl) Hm E) as [-> _].
    contradiction.
Qed.

Lemma length_grid {B : Type} (f : nat -> nat -> B) (rs ms : list nat) :
  List.length (flat_map (fun r => map (f r) ms) rs) = List.length rs * List.length ms.
Proof.
  induction rs as [|r rs IH]; simpl; [reflexivity|].
  now rewrite length_app, length_map, IH.
Qed.

(** The seatings of an even pool, round by round. *)
Lemma allPairs_index (h : nat) :
  1 <= h ->
  allPairs 0 (seq 0 (2 * h))
  = flat_map (fun r => map (fun m => (r, seating (2 * h - 1) r m)) (seq 0 h))
             (seq 0 (2 * h - 1)).
Proof.
  intros Hh. unfold allPairs. rewrite length_seq.
  apply flat_map_ext. intros r. unfold roundPairs.
  rewrite poolAt_length, length_seq, map_map.
  replace (2 * h / 2) with h by (symmetry; rewrite Nat.mul_comm; apply Nat.div_mul; lia).
  apply map_ext. intros m. unfold seating.
  replace (S (2 * h - 1)) with (2 * h) by lia.
  replace (2 * h - 1 - m) with (2 * h - 1 - m) by lia. reflexivity.
Qed.

Lemma in_allUnordered (n i j : nat) : In (i, j) (allUnordered n) <-> i < j < n.
Proof.
  unfold allUnordered. rewrite in_flat_map. split.
  - intros (j' & Hj' & H). apply in_map_iff in H as (i' & [= <- <-] & Hi').
    apply in_seq in Hj', Hi'. lia.
  - intros H. exists j. split; [apply in_seq; lia|].
    apply in_map_iff. exists i. split; [reflexivity|apply in_seq; lia].
Qed.

Lemma allUnordered_succ (n : nat) :
  allUnordered (S n) = allUnordered n ++ map (fun i => (i, n)) (seq 0 n).
Proof.
  unfold allUnordered. rewrite seq_S, flat_map_app. simpl. now rewrite app_nil_r.
Qed.

Lemma length_allUnordered (n : nat) : 2 * List.length (allUnordered n) = n * (n - 1).
Proof.
  induction n as [|n IH]; [reflexivity|].
  rewrite allUnordered_succ, length_app, length_map, length_seq.
  destruct n as [|n]; [reflexivity|]. simpl in *. nia.
Qed.

Lemma NoDup_allUnordered (n : nat) : NoDup (allUnordered n).
Proof.
  induction n as [|n IH]; [constructor|].
  rewrite allUnordered_succ. apply NoDup_app; [exact IH| |].
  - apply Finite.Injective_map_NoDup_in; [|apply seq_NoDup].
    now intros x y _ _ [= ->].
  - intros [i j] Hin Hin'. apply in_allUnordered in Hin.
    apply in_map_iff in Hin' as (i' & [= <- <-] & _). lia.
Qed.

(** The unordered pairs seated over all rounds of a pool of [2 h] seats. *)
Lemma seated_pairs_NoDup (h : nat) :
  1 <= h -> NoDup (map (fun t => normPair (snd t)) (allPairs 0 (seq 0 (2 * h)))).
Proof.
  intros Hh. rewrite (allPairs_index h Hh).
  rewrite flat_map_concat_map, concat_map, map_map, <- flat_map_concat_map.
  erewrite flat_map_ext; [|intros r; rewrite map_map; cbn [snd]; reflexivity].
  apply (NoDup_grid (fun r m => normPair (seating (2 * h - 1) r m)));
    try apply seq_NoDup.
  intros r m r' m' Hr Hm Hr' Hm'. apply in_seq in Hr, Hm, Hr', Hm'.
  apply seating_injective; lia.
Qed.

Lemma seated_pairs_valid (h : nat) (t : nat * (nat * nat)) :
  1 <= h -> In t (allPairs 0 (seq 0 (2 * h))) ->
  fst t < 2 * h - 1
  /\ fst (snd t) <> snd (snd t)
  /\ fst (snd t) < 2 * h /\ snd (snd t) < 2 * h
  /\ exists m, m < h /\ snd t = seating (2 * h - 1) (fst t) m.
Proof.
  intros Hh Hin. rewrite (allPairs_index h Hh) in Hin.
  apply in_flat_map in Hin as (r & Hr & Hin).
  apply in_map_iff in Hin as (m & <- & Hm).
  apply in_seq in Hr, Hm. cbn [fst snd].
  split; [lia|]. split; [apply seating_distinct; lia|].
  split; [apply seating_bound; lia|]. split; [apply seating_bound; lia|].
  exists m. split; [lia|reflexivity].
Qed.

(** Every unordered pair of seats is seated, and seated once. *)
Lemma seated_pairs_complete (h i j : nat) :
  1 <= h -> i < j < 2 * h ->
  In (i, j) (map (fun t => normPair (snd t)) (allPairs 0 (seq 0 (2 * h)))).
Proof.
  intros Hh Hij.
  assert (Hincl : incl (allUnordered (2 * h))
                       (map (fun t => normPair (snd t)) (allPairs 0 (seq 0 (2 * h))))).
  { apply NoDup_length_incl.
    - now apply seated_pairs_NoDup.
    - rewrite length_map, (allPairs_index h Hh), length_grid, !length_seq.
      pose proof (length_allUnordered (2 * h)). nia.
    - intros [a b] Hin. apply in_map_iff in Hin as (t & E & Hin).
      destruct (seated_pairs_valid h t Hh Hin) as (_ & Hne & Hb1 & Hb2 & _).
      apply in_allUnordered.
      pose proof (normPair_ordered (snd t) Hne) as Hord. rewrite E in Hord.
      cbn [fst snd] in Hord.
      destruct (snd t) as [x y]. unfold normPair in E. cbn [fst snd] in *.
      injection E as <- <-. lia. }
  apply Hincl, in_allUnordered. exact Hij.
Qed.

End CirclePairs.

(* ================================================================== *)
(** ** From seats to teams *)
(* ================================================================== *)

Section Fixtures.

Local Open Scope nat_scope.

Lemma poolSize_spec (n : nat) :
  exists h, poolSize n = 2 * h /\ n <= 2 * h <= S n /\ (1 <= n -> 1 <= h).
Proof.
  unfold poolSize. destruct (Nat.eqb_spec (n mod 2) 0) as [E | E].
  - exists (n / 2). pose proof (Nat.div_mod_eq n 2). lia.
  - exists (S (n / 2)). pose proof (Nat.div_mod_eq n 2).
    pose proof (Nat.mod_upper_bound n 2). lia.
Qed.

Lemma poolSize_rounds (n : nat) : 1 <= n -> poolSize n - 1 = expectedRounds n.
Proof.
  intros Hn. unfold poolSize, expectedRounds.
  destruct (Nat.even n) eqn:E.
  - apply Nat.even_spec in E as [k ->].
    rewrite Nat.mul_comm, Nat.Div0.mod_mul. reflexivity.
  - assert (Ho : Nat.odd n = true) by (rewrite <- Nat.negb_even, E; reflexivity).
    apply Nat.odd_spec in Ho as [k ->].
    rewrite Nat.add_comm, Nat.mul_comm, Nat.Div0.mod_add. simpl. lia.
Qed.

Lemma initialPool_length (teams : list Team.t) :
  List.length (initialPool teams) = poolSize (List.length teams).
Proof.
  unfold initialPool, poolSize.
  destruct (List.length teams mod 2 =? 0); [reflexivity|].
  rewrite length_app. simpl. lia.
Qed.

Lemma initialPool_real (teams : list Team.t) (i : nat) :
  i < List.length teams -> nth i (initialPool teams) byeTeam = nth i teams byeTeam.
Proof.
  intros Hi. unfold initialPool.
  destruct (List.length teams mod 2 =? 0); [reflexivity|].
  now rewrite app_nth1.
Qed.

Lemma initialPool_bye (teams : list Team.t) (i : nat) :
  List.length teams <= i -> nth i (initialPool teams) byeTeam = byeTeam.
Proof.
  intros Hi. unfold initialPool.
  destruct (List.length teams mod 2 =? 0).
  - now apply nth_overflow.
  - rewrite app_nth2 by lia.
    destruct (i - List.length teams) as [|[|k]]; reflexivity.
Qed.

Lemma nth_map_in_range {A B : Type} (f : A -> B) (l : list A) (d : A) (d' : B) (i : nat) :
  i < List.length l -> nth i (map f l) d' = f (nth i l d).
Proof.
  intros Hi. rewrite (nth_indep _ d' (f d)) by (now rewrite length_map).
  apply map_nth.
Qed.

Lemma pool_as_map {A : Type} (d : A) (pool : list A) :
  pool = map (fun i => nth i pool d) (seq 0 (List.length pool)).
Proof.
  apply (nth_ext _ _ d d).
  - now rewrite length_map, length_seq.
  - intros i Hi.
    rewrite (nth_map_in_range _ _ 0) by (now rewrite length_seq).
    now rewrite seq_nth.
Qed.

Lemma roundPairs_map {A B : Type} (f : A -> B) (d : A) (d' : B) (pool : list A) :
  roundPairs d' (map f pool)
  = map (fun p => (f (fst p), f (snd p))) (roundPairs d pool).
Proof.
  unfold roundPairs. rewrite map_map, length_map.
  apply map_ext_in. intros m Hm. apply in_seq in Hm. cbn [fst snd].
  destruct (pool_reads_in_range pool m ltac:(lia)) as [H1 H2].
  now rewrite !(nth_map_in_range f pool d d') by assumption.
Qed.

Lemma map_flat_map {X Y Z : Type} (f : X -> list Y) (g : Y -> Z) (l : list X) :
  map g (flat_map f l) = flat_map (fun x => map g (f x)) l.
Proof.
  induction l as [|x l IH]; simpl; [reflexivity|]. now rewrite map_app, IH.
Qed.

Lemma allPairs_map {A B : Type} (f : A -> B) (d : A) (d' : B) (pool : list A) :
  allPairs d' (map f pool)
  = map (fun t => (fst t, (f (fst (snd t)), f (snd (snd t))))) (allPairs d pool).
Proof.
  unfold allPairs. rewrite length_map, map_flat_map.
  apply flat_map_ext. intros r.
  rewrite poolAt_map, (roundPairs_map f d d'), !map_map. reflexivity.
Qed.

Lemma flat_map_kept {X Y : Type} (k : X -> list Y) (p : X -> bool) (g : X -> Y)
    (l : list X) :
  (forall x, In x l -> k x = if p x then [g x] else []) ->
  flat_map k l = map g (filter p l).
Proof.
  induction l as [|x l IH]; intros H; simpl; [reflexivity|].
  rewrite (H x (or_introl eq_refl)), IH by (intros y Hy; apply H; now right).
  now destruct (p x).
Qed.

Variable teams : list Team.t.
Hypothesis enough_teams : 2 <= List.length teams.
Hypothesis no_bye_id : forall t, In t teams -> Team.id t <> "BYE"%string.

Lemma real_team_kept (i : nat) :
  i < List.length teams -> notBye (nth i (initialPool teams) byeTeam) = true.
Proof.
  intros Hi. rewrite initialPool_real by assumption. unfold notBye.
  destruct (String.eqb_spec (Team.id (nth i teams byeTeam)) "BYE") as [E | E];
    [|reflexivity].
  exfalso. apply (no_bye_id (nth i teams byeTeam)); [now apply nth_In|exact E].
Qed.

(** The fixtures of the schedule are the played seatings, read on the
    team list. *)
Lemma scheduleFixtures_seatings :
  scheduleFixtures teams
  = map (fixtureOf teams) (playedSeatings (List.length teams)).
Proof.
  unfold scheduleFixtures, playedSeatings. fold (poolSize (List.length teams)).
  rewrite (pool_as_map byeTeam (initialPool teams)) at 1.
  rewrite initialPool_length, (allPairs_map _ 0 byeTeam), flat_map_over_map.
  apply flat_map_kept. intros [r [i j]] Hin. cbn [fst snd].
  unfold keptFixture, realSeats, fixtureOf, idAt. cbn [fst snd].
  destruct (Nat.ltb_spec i (List.length teams)) as [Hi | Hi].
  - rewrite (real_team_kept i Hi).
    destruct (Nat.ltb_spec j (List.length teams)) as [Hj | Hj].
    + rewrite (real_team_kept j Hj), !initialPool_real by assumption. reflexivity.
    + rewrite (initialPool_bye teams j Hj). reflexivity.
  - rewrite (initialPool_bye teams i Hi). reflexivity.
Qed.

Lemma playedSeatings_valid (t : nat * (nat * nat)) :
  In t (playedSeatings (List.length teams)) ->
  fst t < expectedRounds (List.length teams)
  /\ fst (snd t) <> snd (snd t)
  /\ fst (snd t) < List.length teams /\ snd (snd t) < List.length teams.
Proof.
  unfold playedSeatings. fold (poolSize (List.length teams)).
  destruct (poolSize_spec (List.length teams)) as (h & Hsz & Hb & Hh).
  rewrite Hsz. intros Hin. apply filter_In in Hin as [Hin Hreal].
  destruct (seated_pairs_valid h t ltac:(lia) Hin) as (Hr & Hne & _).
  unfold realSeats in Hreal. apply andb_prop in Hreal as [H1 H2].
  apply Nat.ltb_lt in H1, H2.
  rewrite <- poolSize_rounds, Hsz by lia. auto.
Qed.

Lemma NoDup_map_filter {X Y : Type} (g : X -> Y) (p : X -> bool) (l : list X) :
  NoDup (map g l) -> NoDup (map g (filter p l)).
Proof.
  induction l as [|x l IH]; simpl; intros H; [constructor|].
  inversion H as [|y ys Hnotin Hnd]; subst.
  destruct (p x); simpl; [|now apply IH].
  constructor; [|now apply IH].
  intros Hin. apply Hnotin. apply in_map_iff in Hin as (z & E & Hz).
  apply filter_In in Hz as [Hz _]. apply in_map_iff. now exists z.
Qed.

Lemma played_pairs_NoDup :
  NoDup (map (fun t => normPair (snd t)) (playedSeatings (List.length teams))).
Proof.
  unfold playedSeatings. fold (poolSize (List.length teams)).
  destruct (poolSize_spec (List.length teams)) as (h & Hsz & Hb & Hh).
  rewrite Hsz. apply NoDup_map_filter, seated_pairs_NoDup. lia.
Qed.

Lemma played_pairs_complete (i j : nat) :
  i < j < List.length teams ->
  In (i, j) (map (fun t => normPair (snd t)) (playedSeatings (List.length teams))).
Proof.
  intros Hij. unfold playedSeatings. fold (poolSize (List.length teams)).
  destruct (poolSize_spec (List.length teams)) as (h & Hsz & Hb & Hh).
  rewrite Hsz.
  pose proof (seated_pairs_complete h i j ltac:(lia) ltac:(lia)) as Hin.
  apply in_map_iff in Hin as (t & E & Hin).
  apply in_map_iff. exists t. split; [exact E|].
  apply filter_In. split; [exact Hin|].
  unfold realSeats. destruct (snd t) as [x y]. unfold normPair in E.
  cbn [fst snd] in *. injection E as Hmin Hmax.
  apply andb_true_intro. split; apply Nat.ltb_lt; lia.
Qed.

Lemma played_pairs_count (i j : nat) :
  i < j < List.length teams ->
  count_occ seat_pair_dec
    (map (fun t => normPair (snd t)) (playedSeatings (List.length teams))) (i, j) = 1.
Proof.
  intros Hij.
  apply (proj1 (NoDup_count_occ' seat_pair_dec _) played_pairs_NoDup).
  now apply played_pairs_complete.
Qed.

Lemma playedSeatings_length :
  List.length (playedSeatings (List.length teams))
  = List.length teams * (List.length teams - 1) / 2.
Proof.
  assert (Hperm : Permutation
            (map (fun t => normPair (snd t)) (playedSeatings (List.length teams)))
            (allUnordered (List.length teams))).
  { apply NoDup_Permutation;
      [apply played_pairs_NoDup | apply NoDup_allUnordered |].
    intros [a b]. rewrite in_allUnordered. split.
    - intros Hin. apply in_map_iff in Hin as (t & E & Hin).
      destruct (playedSeatings_valid t Hin) as (_ & Hne & H1 & H2).
      pose proof (normPair_ordered (snd t) Hne) as Hord. rewrite E in Hord.
      destruct (snd t) as [x y]. unfold normPair in E. cbn [fst snd] in *.
      injection E as <- <-. lia.
    - apply played_pairs_complete. }
  apply Permutation_length in Hperm. rewrite length_map in Hperm.
  rewrite Hperm.
  pose proof (length_allUnordered (List.length teams)) as H2.
  rewrite <- H2, Nat.mul_comm, Nat.div_mul by lia. reflexivity.
Qed.

(** Every round seats at least one pair of real teams. *)
Lemma every_round_played (r : nat) :
  r < expectedRounds (List.length teams) ->
  In r (map fst (playedSeatings (List.length teams))).
Proof.
  intros Hr. unfold playedSeatings. fold (poolSize (List.length teams)).
  rewrite <- poolSize_rounds in Hr by lia.
  destruct (poolSize_spec (List.length teams)) as (h & Hsz & Hb & Hh).
  rewrite Hsz in *. specialize (Hh ltac:(lia)).
  assert (Hseat : forall m, m < h ->
            In (r, seating (2 * h - 1) r m) (allPairs 0 (seq 0 (2 * h)))).
  { intros m Hm. rewrite (allPairs_index h Hh). apply in_flat_map.
    exists r. split; [apply in_seq; lia|].
    apply in_map_iff. exists m. split; [reflexivity|apply in_seq; lia]. }
  assert (Hkeep : forall m, m < h ->
            fst (seating (2 * h - 1) r m) < List.length teams ->
            snd (seating (2 * h - 1) r m) < List.length teams ->
            In r (map fst (filter (realSeats (List.length teams))
                             (allPairs 0 (seq 0 (2 * h)))))).
  { intros m Hm H1 H2. apply in_map_iff. exists (r, seating (2 * h - 1) r m).
    split; [reflexivity|]. apply filter_In. split; [now apply Hseat|].
    unfold realSeats. cbn [fst snd].
    apply andb_true_intro. split; now apply Nat.ltb_lt. }
  pose proof (seating_bound h r 0 Hh ltac:(lia)) as [B1 B2].
  destruct (Nat.eq_dec (2 * h) (List.length teams)) as [Heven | Hodd].
  - apply (Hkeep 0); lia.
  - assert (Hsize : 2 * h = S (List.length teams)) by lia.
    assert (Hh2 : 2 <= h) by lia.
    destruct (circleAt_round (2 * h - 1) r ltac:(lia)) as (_ & Hhead & _).
    destruct (Nat.eq_dec (snd (seating (2 * h - 1) r 0)) (List.length teams))
      as [Hbye | Hreal].
    + pose proof (seating_bound h r 1 Hh ltac:(lia)) as [C1 C2].
      apply (Hkeep 1); [lia| |].
      * assert (fst (seating (2 * h - 1) r 1) <> snd (seating (2 * h - 1) r 0)).
        { unfold seating. cbn [fst snd]. intros E.
          apply index_pool_injective in E; lia. }
        lia.
      * assert (snd (seating (2 * h - 1) r 1) <> snd (seating (2 * h - 1) r 0)).
        { unfold seating. cbn [fst snd]. intros E.
          apply index_pool_injective in E; lia. }
        lia.
    + apply (Hkeep 0); [lia| |lia].
      unfold seating. cbn [fst snd].
      replace (S (2 * h - 1)) with (2 * h) in Hhead by lia.
      replace (S (2 * h - 1)) with (2 * h) by lia. rewrite Hhead. lia.
Qed.

End Fixtures.

(* ================================================================== *)
(** ** The schedule is a round robin *)
(* ================================================================== *)

Section RoundRobin.

Local Open Scope nat_scope.

Lemma filter_over_map {X Y : Type} (g : X -> Y) (q : Y -> bool) (l : list X) :
  List.length (filter (fun x => q (g x)) l) = List.length (filter q (map g l)).
Proof.
  induction l as [|x l IH]; simpl; [reflexivity|].
  destruct (q (g x)); simpl; now rewrite IH.
Qed.

Lemma count_by_filter {X : Type} (g : X -> nat * nat) (q : X -> bool)
    (x : nat * nat) (l : list X) :
  (forall t, In t l -> (q t = true <-> g t = x)) ->
  List.length (filter q l) = count_occ seat_pair_dec (map g l) x.
Proof.
  induction l as [|t l IH]; intros H; simpl; [reflexivity|].
  rewrite <- IH by (intros u Hu; apply H; now right).
  pose proof (H t (or_introl eq_refl)) as Ht.
  destruct (seat_pair_dec (g t) x) as [E | E].
  - rewrite (proj2 Ht E). reflexivity.
  - destruct (q t); [|reflexivity]. exfalso. apply E. now apply Ht.
Qed.

Lemma idAt_injective (teams : list Team.t) (i j : nat) :
  NoDup (map Team.id teams) ->
  i < List.length teams -> j < List.length teams ->
  idAt teams i = idAt teams j -> i = j.
Proof.
  intros Hnd Hi Hj E. unfold idAt in E.
  rewrite <- !(map_nth Team.id) in E.
  apply (proj1 (NoDup_nth _ _) Hnd) in E; [exact E| |]; now rewrite length_map.
Qed.

Lemma normPair_iff (i j a b : nat) :
  normPair (i, j) = normPair (a, b) <-> (i = a /\ j = b) \/ (i = b /\ j = a).
Proof.
  unfold normPair. cbn [fst snd]. split.
  - intros [= H1 H2]. lia.
  - intros [[-> ->] | [-> ->]]; f_equal; lia.
Qed.

Variable e : Env.t.
Variable teams : list Team.t.
Variable stadiums : list Stadium.t.
Hypothesis enough_teams : 2 <= List.length teams.
Hypothesis no_bye_id : forall t, In t teams -> Team.id t <> "BYE"%string.

Lemma generated_fixtures :
  map fixture (generateMatches e teams stadiums)
  = map (fixtureOf teams) (playedSeatings (List.length teams)).
Proof.
  rewrite generateMatches_fixtures. now apply scheduleFixtures_seatings.
Qed.

Lemma generated_once (a b : Team.t) :
  NoDup (map Team.id teams) -> In a teams -> In b teams -> Team.id a <> Team.id b ->
  List.length (filter (fun m => pairs m (Team.id a) (Team.id b))
                 (generateMatches e teams stadiums)) = 1.
Proof.
  intros Hnd Ha Hb Hab.
  apply (In_nth _ _ byeTeam) in Ha as (ia & Hia & Ea).
  apply (In_nth _ _ byeTeam) in Hb as (ib & Hib & Eb).
  assert (Hne : ia <> ib) by (intros ->; apply Hab; congruence).
  change (fun m => pairs m (Team.id a) (Team.id b))
    with (fun m => fixturePairs (Team.id a) (Team.id b) (fixture m)).
  rewrite (filter_over_map fixture), generated_fixtures, <- filter_over_map.
  rewrite (count_by_filter (fun t => normPair (snd t)) _ (normPair (ia, ib))).
  - unfold normPair. cbn [fst snd]. apply played_pairs_count; [assumption|lia].
  - intros [r [i j]] Hin.
    destruct (playedSeatings_valid teams enough_teams (r, (i, j)) Hin) as (_ & _ & Hi & Hj).
    cbn [fst snd] in *. rewrite normPair_iff.
    unfold fixturePairs, fixtureOf. cbn [fst snd].
    rewrite orb_true_iff, !andb_true_iff, !String.eqb_eq, <- Ea, <- Eb.
    fold (idAt teams ia). fold (idAt teams ib).
    split.
    + intros [[H1 H2] | [H1 H2]];
        apply idAt_injective in H1; try assumption;
        apply idAt_injective in H2; try assumption; auto.
    + intros [[-> ->] | [-> ->]]; auto.
Qed.

End RoundRobin.

(** Two teams, one of them with the id ['BYE']: no match is generated
    where one is due. *)
Lemma bye_id_is_skipped :
  ~ (forall e teams stadiums,
        (2 <= List.length teams)%nat ->
        List.length (generateMatches e teams stadiums)
        = (List.length teams * (List.length teams - 1) / 2)%nat)
  /\ generateMatches firstRun [byes; lions] [oval] = []
  /\ (List.length [byes; lions] * (List.length [byes; lions] - 1) / 2 = 1)%nat.
Proof.
  split; [|split; reflexivity].
  intros H. specialize (H firstRun [byes; lions] [oval] (le_n 2)).
  vm_compute in H. discriminate.
Qed.

(** The two end-to-end schedules of the specification: four teams play six
    matches over three rounds, five teams ten matches over five rounds. *)
Lemma schedules_of_four_and_five :
  map fixture (generateMatches firstRun [zed; alpha; xray; yoke] [])
  = [(1, "team-0", "team-3"); (1, "team-1", "team-2");
     (2, "team-0", "team-2"); (2, "team-3", "team-1");
     (3, "team-0", "team-1"); (3, "team-2", "team-3")]%nat
  /\ map fixture (generateMatches firstRun
                    [zed; alpha; xray; yoke; newTeam "team-4" "Whisky"] [])
     = [(1, "team-1", "team-4"); (1, "team-2", "team-3");
        (2, "team-0", "team-4"); (2, "team-1", "team-2");
        (3, "team-0", "team-3"); (3, "team-4", "team-2");
        (4, "team-0", "team-2"); (4, "team-3", "team-1");
        (5, "team-0", "team-1"); (5, "team-3", "team-4")]%nat.
Proof. split; vm_compute; reflexivity. Qed.

(** C1: for a list of [n >= 2] teams none of which carries the id ['BYE'],
    and any stadiums, random draws and clock, the generated list has
    [n (n - 1) / 2] matches; the two sides of every match are two
    different positions of the team list and every unordered pair of
    positions is played exactly once, so that, when the ids are
    distinct, exactly one match pairs any two teams; the round numbers
    are exactly 1, ..., [n - 1] for even [n] and 1, ..., [n] for odd [n]. *)
Theorem round_robin_schedule
    (e : Env.t) (teams : list Team.t) (stadiums : list Stadium.t)
    (enough_teams : (2 <= List.length teams)%nat)
    (no_bye_id : forall t, In t teams -> Team.id t <> "BYE"%string) :
  let n := List.length teams in
  let matches := generateMatches e teams stadiums in
  List.length matches = (n * (n - 1) / 2)%nat
  /\ (exists seats : list (nat * nat),
         map (fun m => (Match.team1Id m, Match.team2Id m)) matches
         = map (fun p => (idAt teams (fst p), idAt teams (snd p))) seats
         /\ Forall (fun p => (fst p < n)%nat /\ (snd p < n)%nat /\ fst p <> snd p) seats
         /\ forall i j, (i < j < n)%nat ->
                        count_occ seat_pair_dec (map normPair seats) (i, j) = 1%nat)
  /\ (NoDup (map Team.id teams) ->
      forall a b, In a teams -> In b teams -> Team.id a <> Team.id b ->
                  List.length (filter (fun m => pairs m (Team.id a) (Team.id b)) matches)
                  = 1%nat)
  /\ (forall r, In r (map Match.round matches) <-> (1 <= r <= expectedRounds n)%nat).
Proof.
  cbv zeta.
  pose proof (generated_fixtures e teams stadiums no_bye_id) as Hfix.
  split.
  { rewrite <- (length_map fixture), Hfix, length_map.
    now apply playedSeatings_length. }
  split.
  { exists (map snd (playedSeatings (List.length teams))).
    split; [|split].
    - apply (f_equal (map (fun f => (snd (fst f), snd f)))) in Hfix.
      rewrite !map_map in Hfix. rewrite map_map. exact Hfix.
    - apply Forall_forall. intros p Hp.
      apply in_map_iff in Hp as (t & <- & Hin).
      destruct (playedSeatings_valid teams enough_teams t Hin) as (_ & Hne & H1 & H2).
      auto.
    - intros i j Hij. rewrite map_map. now apply played_pairs_count. }
  split.
  { intros Hnd a b. now apply generated_once. }
  intros r.
  assert (Hrounds : map Match.round (generateMatches e teams stadiums)
                    = map (fun t => (fst t + 1)%nat) (playedSeatings (List.length teams))).
  { apply (f_equal (map (fun f => fst (fst f)))) in Hfix.
    rewrite !map_map in Hfix. exact Hfix. }
  rewrite Hrounds, in_map_iff. split.
  - intros (t & <- & Hin).
    destruct (playedSeatings_valid teams enough_teams t Hin) as (Hr & _). lia.
  - intros Hr.
    assert (Hin : In (r - 1)%nat (map fst (playedSeatings (List.length teams)))).
    { apply every_round_played; [assumption|lia]. }
    apply in_map_iff in Hin as (t & Et & Hin).
    exists t. split; [lia|exact Hin].
Qed.

Lemma round_robin_schedule_witness :
  (2 <= List.length [lions; tigers; bears])%nat
  /\ (forall t, In t [lions; tigers; bears] -> Team.id t <> "BYE"%string)
  /\ List.length (generateMatches firstRun [lions; tigers; bears] [oval; lords])
     = (3 * (3 - 1) / 2)%nat.
Proof.
  assert (H2 : (2 <= List.length [lions; tigers; bears])%nat) by (simpl; lia).
  assert (Hb : forall t, In t [lions; tigers; bears] -> Team.id t <> "BYE"%string).
  { simpl. intros t [<- | [<- | [<- | []]]]; discriminate. }
  split; [exact H2|]. split; [exact Hb|].
  apply (round_robin_schedule firstRun [lions; tigers; bears] [oval; lords] H2 Hb).
Defined.

(* ================================================================== *)
(** ** Further properties of the standings *)
(* ================================================================== *)

Lemma recordResult_tally config isT1 res a :
  let a' := recordResult config isT1 res (played a) in
  Acc.mp a' = (Acc.mp a + 1)%Z
  /\ (Acc.mw a' + Acc.ml a' + Acc.mt a' + Acc.nr a'
      = Acc.mw a + Acc.ml a + Acc.mt a + Acc.nr a + 1)%Z
  /\ (Acc.mw a <= Acc.mw a')%Z /\ (Acc.ml a <= Acc.ml a')%Z
  /\ (Acc.mt a <= Acc.mt a')%Z /\ (Acc.nr a <= Acc.nr a')%Z.
Proof.
  unfold recordResult;
    repeat match goal with |- context [if ?c then _ else _] => destruct c end;
    simpl; lia.
Qed.

Lemma recordResult_form config team m a :
  Acc.form (recordResult config (Match.team1Id m =? Team.id team)%string
              (Match.resultType m) (played a))
  = Acc.form a ++ [formCode team m].
Proof.
  unfold recordResult, formCode;
    repeat match goal with |- context [if ?c then _ else _] => destruct c end;
    reflexivity.
Qed.

(** The counters after a run of matches, whatever the ledger holds. *)
Lemma fold_counters config team (l : list Match.t) (a : Acc.t) (g : Workspace.Ledger) :
  let a' := fst (fold_left (Workspace.processMatch config team) l (a, g)) in
  Acc.mp a' = (Acc.mp a + Z.of_nat (List.length l))%Z
  /\ (Acc.mw a' + Acc.ml a' + Acc.mt a' + Acc.nr a'
      = Acc.mw a + Acc.ml a + Acc.mt a + Acc.nr a + Z.of_nat (List.length l))%Z
  /\ (Acc.mw a <= Acc.mw a')%Z /\ (Acc.ml a <= Acc.ml a')%Z
  /\ (Acc.mt a <= Acc.mt a')%Z /\ (Acc.nr a <= Acc.nr a')%Z
  /\ Acc.form a' = Acc.form a ++ map (formCode team) l.
Proof.
  revert a g. induction l as [|m l IH]; intros a g; cbv zeta.
  - simpl. rewrite app_nil_r. repeat split; lia.
  - cbn [fold_left].
    destruct (Workspace.processMatch config team (a, g) m) as [a1 g1] eqn:E.
    pose proof (processMatch_counters config team a g m) as Hc. rewrite E in Hc.
    cbn [fst] in Hc.
    pose proof (recordResult_tally config (Match.team1Id m =? Team.id team)%string
                  (Match.resultType m) a) as Ht.
    pose proof (recordResult_form config team m a) as Hf.
    cbv zeta in Ht. rewrite <- Hc in Ht, Hf.
    destruct Ht as (T1 & T2 & T3 & T4 & T5 & T6).
    destruct (IH a1 g1) as (I1 & I2 & I3 & I4 & I5 & I6 & I7).
    rewrite I7, Hf, <- app_assoc. cbn [List.length map app].
    repeat split; try lia.
Qed.

Lemma standing_matches_played (tournament : Tournament.t) (team : Team.t) :
  Standing.mp (Workspace.teamStanding tournament team)
  = Z.of_nat (List.length (filter (playedBy team) (Tournament.matches tournament))).
Proof.
  unfold Workspace.teamStanding, Workspace.aggregate.
  pose proof (fold_counters (Tournament.config tournament) team
                (filter (playedBy team) (Tournament.matches tournament))
                Acc.initial (Workspace.mkLedger 0 0 0 0)) as H.
  cbv zeta in H.
  destruct (fold_left _ _ _) as [a g]. cbn [fst] in H. simpl.
  destruct H as (H1 & _). simpl in *. lia.
Qed.

(** X3: in the standing of a team the matches played are the completed
    matches that name the team on either side, every one of them is
    counted as exactly one of win, loss, tie or no-result, and no counter
    is negative. *)
Theorem standing_counters_add_up (tournament : Tournament.t) (team : Team.t) :
  let s := Workspace.teamStanding tournament team in
  Standing.mp s
  = Z.of_nat (List.length (filter (playedBy team) (Tournament.matches tournament)))
  /\ (Standing.mw s + Standing.ml s + Standing.mt s + Standing.nr s = Standing.mp s)%Z
  /\ (0 <= Standing.mw s)%Z /\ (0 <= Standing.ml s)%Z
  /\ (0 <= Standing.mt s)%Z /\ (0 <= Standing.nr s)%Z.
Proof.
  cbv zeta. unfold Workspace.teamStanding, Workspace.aggregate.
  pose proof (fold_counters (Tournament.config tournament) team
                (filter (playedBy team) (Tournament.matches tournament))
                Acc.initial (Workspace.mkLedger 0 0 0 0)) as H.
  cbv zeta in H.
  destruct (fold_left _ _ _) as [a g]. cbn [fst] in H. simpl.
  destruct H as (H1 & H2 & H3 & H4 & H5 & H6 & _). simpl in *. lia.
Qed.

Lemma last_five_reversed {A : Type} (l : list A) :
  rev (JS.slice_last 5 l) = firstn 5 (rev l).
Proof.
  unfold JS.slice_last. symmetry. apply firstn_rev.
Qed.

Lemma in_firstn {A : Type} (n : nat) (l : list A) (x : A) :
  In x (firstn n l) -> In x l.
Proof.
  intros H. rewrite <- (firstn_skipn n l). apply in_or_app. now left.
Qed.

(** X4: the form of a team lists the letters of its completed matches,
    newest first, cut after five: at most five entries, fewer only when
    fewer matches were played. *)
Theorem standing_form_newest_first (tournament : Tournament.t) (team : Team.t) :
  let s := Workspace.teamStanding tournament team in
  let results := map (formCode team)
                   (filter (playedBy team) (Tournament.matches tournament)) in
  Standing.form s = firstn 5 (rev results)
  /\ List.length (Standing.form s) = Nat.min 5 (Z.to_nat (Standing.mp s))
  /\ Forall (fun c => c = "W" \/ c = "T" \/ c = "NR" \/ c = "L") (Standing.form s).
Proof.
  cbv zeta.
  rewrite (standing_matches_played tournament team).
  unfold Workspace.teamStanding, Workspace.aggregate.
  pose proof (fold_counters (Tournament.config tournament) team
                (filter (playedBy team) (Tournament.matches tournament))
                Acc.initial (Workspace.mkLedger 0 0 0 0)) as H.
  cbv zeta in H.
  destruct (fold_left _ _ _) as [a g]. cbn [fst] in H. simpl.
  destruct H as (_ & _ & _ & _ & _ & _ & Hf). simpl in Hf.
  unfold recentForm. rewrite Hf, last_five_reversed.
  split; [reflexivity|]. split.
  - rewrite length_firstn, length_rev, length_map, Nat2Z.id. reflexivity.
  - apply Forall_forall. intros c Hc.
    apply in_firstn in Hc. apply in_rev in Hc.
    apply in_map_iff in Hc as (m & <- & _).
    unfold formCode.
    repeat match goal with |- context [if ?c then _ else _] => destruct c end; auto.
Qed.

(** X5: the table has one entry per team of the tournament, teams without
    a match included, whatever the collation does. *)
Theorem standings_one_entry_per_team
    (localeCompare : string -> string -> Z) (tournament : Tournament.t) :
  Permutation (Tournament.teams tournament)
    (map Standing.team (Workspace.standings localeCompare tournament))
  /\ List.length (Workspace.standings localeCompare tournament)
     = List.length (Tournament.teams tournament).
Proof.
  assert (Hp : Permutation (Tournament.teams tournament)
                 (map Standing.team (Workspace.standings localeCompare tournament))).
  { unfold Workspace.standings.
    rewrite <- (Permutation_map Standing.team (sort_perm _ _)), map_map.
    erewrite map_ext; [rewrite map_id; reflexivity|].
    intros team. now destruct (teamStanding_fields tournament team) as (-> & _). }
  split; [exact Hp|].
  apply Permutation_length in Hp. rewrite length_map in Hp. now symmetry.
Qed.

(* ================================================================== *)
(** ** Regeneration and team edits *)
(* ================================================================== *)

Lemma generated_not_started e teams stadiums :
  Forall (fun m => Match.status m = NOT_STARTED /\ Match.resultType m = None)
    (generateMatches e teams stadiums).
Proof.
  apply generateMatches_Forall. intros r m k t1 t2. split; reflexivity.
Qed.

Lemma nobody_played (team : Team.t) (matches : list Match.t) :
  Forall (fun m => Match.status m = NOT_STARTED /\ Match.resultType m = None) matches ->
  filter (playedBy team) matches = [].
Proof.
  induction 1 as [|m l [Hs _] _ IH]; [reflexivity|].
  simpl. unfold playedBy at 1. rewrite Hs. simpl. rewrite andb_false_r. exact IH.
Qed.

Lemma nobody_advanced (s : MatchStatus) (matches : list Match.t) :
  s <> NOT_STARTED ->
  Forall (fun m => Match.status m = NOT_STARTED /\ Match.resultType m = None) matches ->
  filter (hasStatus s) matches = [].
Proof.
  intros Hs. induction 1 as [|m l [Hm _] _ IH]; [reflexivity|].
  simpl. unfold hasStatus at 1. rewrite Hm.
  destruct s; try contradiction; simpl; exact IH.
Qed.

(** X6: regenerating the schedule is refused, with nothing but an alert,
    unless the security input equals the tournament name; when it is
    accepted for two teams or more, every recorded result is gone: no team
    has a match played, a net run rate other than zero or a form, the
    dashboard counts every match as remaining and the settings are
    unlocked. *)
Theorem regenerate_is_guarded_and_wipes_results (e : Env.t) (ui : UI.t) :
  let ui' := handleRegenerateSchedule e ui in
  (UI.securityInput ui <> Tournament.name (UI.tournament ui) ->
   UI.tournament ui' = UI.tournament ui
   /\ UI.alerts ui' = UI.alerts ui ++ [securityAlertMessage])
  /\ (UI.securityInput ui = Tournament.name (UI.tournament ui) ->
      (2 <= List.length (Tournament.teams (UI.tournament ui)))%nat ->
      (forall team,
          let s := Workspace.teamStanding (UI.tournament ui') team in
          Standing.mp s = 0%Z /\ Standing.mw s = 0%Z /\ Standing.ml s = 0%Z
          /\ Standing.mt s = 0%Z /\ Standing.nr s = 0%Z
          /\ Standing.nrr s == 0 /\ Standing.form s = [])
      /\ Dashboard.remaining (dashboardCounts (UI.tournament ui'))
         = Dashboard.total (dashboardCounts (UI.tournament ui'))
      /\ isLocked (UI.tournament ui') = false
      /\ Tournament.teams (UI.tournament ui') = Tournament.teams (UI.tournament ui)
      /\ Tournament.penalties (UI.tournament ui')
         = Tournament.penalties (UI.tournament ui)).
Proof.
  cbv zeta. unfold handleRegenerateSchedule. split.
  - intros Hne. apply String.eqb_neq in Hne. rewrite Hne. simpl. split; reflexivity.
  - intros Heq Hn. apply String.eqb_eq in Heq. rewrite Heq. simpl.
    unfold handleGenerateSchedule.
    apply Nat.ltb_ge in Hn. rewrite Hn. simpl.
    pose proof (generated_not_started e (Tournament.teams (UI.tournament ui))
                  (Tournament.stadiums (UI.tournament ui))) as Hfresh.
    split; [|split; [|split; [|split]]].
    + intros team. unfold Workspace.teamStanding, Workspace.aggregate. simpl.
      rewrite (nobody_played team _ Hfresh). simpl. repeat split.
    + unfold dashboardCounts. simpl.
      rewrite (nobody_advanced COMPLETED _ ltac:(discriminate) Hfresh).
      rewrite (nobody_advanced IN_PROGRESS _ ltac:(discriminate) Hfresh).
      simpl. lia.
    + unfold isLocked. simpl.
      pose proof (nobody_advanced COMPLETED _ ltac:(discriminate) Hfresh) as Hc.
      destruct (existsb _ _) eqn:Ex; [|reflexivity].
      apply existsb_exists in Ex as (m & Hin & Hm).
      assert (Hf : In m (filter (hasStatus COMPLETED)
                           (generateMatches e (Tournament.teams (UI.tournament ui))
                              (Tournament.stadiums (UI.tournament ui)))))
        by (apply filter_In; auto).
      rewrite Hc in Hf. contradiction.
    + reflexivity.
    + reflexivity.
Qed.

Lemma processMatch_by_id config (t1 t2 : Team.t) :
  Team.id t1 = Team.id t2 ->
  forall s m, Workspace.processMatch config t1 s m = Workspace.processMatch config t2 s m.
Proof.
  intros H [a g] m. unfold Workspace.processMatch. now rewrite H.
Qed.

Lemma teamStanding_by_id (T1 T2 : Tournament.t) (t1 t2 : Team.t) :
  Team.id t1 = Team.id t2 ->
  Tournament.matches T1 = Tournament.matches T2 ->
  Tournament.penalties T1 = Tournament.penalties T2 ->
  Tournament.config T1 = Tournament.config T2 ->
  let s1 := Workspace.teamStanding T1 t1 in
  let s2 := Workspace.teamStanding T2 t2 in
  Standing.mp s1 = Standing.mp s2 /\ Standing.mw s1 = Standing.mw s2
  /\ Standing.ml s1 = Standing.ml s2 /\ Standing.mt s1 = Standing.mt s2
  /\ Standing.nr s1 = Standing.nr s2 /\ Standing.pts s1 = Standing.pts s2
  /\ Standing.nrr s1 = Standing.nrr s2 /\ Standing.form s1 = Standing.form s2.
Proof.
  intros Hid Hm Hp Hc. cbv zeta.
  unfold Workspace.teamStanding, Workspace.aggregate, penPts, playedBy.
  rewrite Hm, Hp, Hc, Hid.
  rewrite (fold_left_agree _ _ _ _ (processMatch_by_id (Tournament.config T2) t1 t2 Hid)).
  destruct (fold_left _ _ _) as [a g]. simpl. repeat split.
Qed.

(** X7: saving an edited team replaces the teams with its id and nothing
    else: the list keeps its length and its ids, the matches are untouched,
    and every number of the table (played, won, lost, tied, no result,
    points, net run rate, form) is the same for the edited team as for the
    team it replaces. *)
Theorem team_edit_keeps_the_table (updated : Team.t) (ui : UI.t) :
  let before := UI.tournament ui in
  let after := UI.tournament (updateTeam updated ui) in
  map Team.id (Tournament.teams after) = map Team.id (Tournament.teams before)
  /\ Tournament.matches after = Tournament.matches before
  /\ (forall x, In x (Tournament.teams before) -> Team.id x <> Team.id updated ->
                In x (Tournament.teams after))
  /\ (forall x, Team.id x = Team.id updated ->
        let s := Workspace.teamStanding before x in
        let s' := Workspace.teamStanding after updated in
        Standing.mp s = Standing.mp s' /\ Standing.mw s = Standing.mw s'
        /\ Standing.ml s = Standing.ml s' /\ Standing.mt s = Standing.mt s'
        /\ Standing.nr s = Standing.nr s' /\ Standing.pts s = Standing.pts s'
        /\ Standing.nrr s = Standing.nrr s' /\ Standing.form s = Standing.form s').
Proof.
  cbv zeta. unfold updateTeam. simpl.
  split; [|split; [reflexivity|split]].
  - rewrite map_map. apply map_ext. intros x.
    destruct (String.eqb_spec (Team.id x) (Team.id updated)); congruence.
  - intros x Hin Hne. apply in_map_iff. exists x. split; [|exact Hin].
    apply String.eqb_neq in Hne. now rewrite Hne.
  - intros x Hid. now apply teamStanding_by_id.
Qed.

(* ================================================================== *)
(** ** Recording a result *)
(* ================================================================== *)

Lemma find_none_no_id (mId : string) (matches : list Match.t) :
  find (fun m => (Match.id m =? mId)%string) matches = None ->
  forall m, In m matches -> (Match.id m =? mId)%string = false.
Proof.
  intros H m Hin. exact (find_none _ _ H m Hin).
Qed.

Lemma replaceMatch_ids loForm mId matches :
  map Match.id (replaceMatch loForm mId matches) = map Match.id matches.
Proof.
  unfold replaceMatch.
  destruct (find (fun m => (Match.id m =? mId)%string) matches) as [m0|] eqn:F.
  - apply find_some in F as [_ H0]. apply String.eqb_eq in H0.
    rewrite map_map. apply map_ext. intros m.
    destruct (String.eqb_spec (Match.id m) mId); [simpl; congruence|reflexivity].
  - rewrite map_map. apply map_ext. intros m.
    now destruct (Match.id m =? mId)%string.
Qed.

Lemma replaceMatch_unknown loForm mId matches :
  ~ In mId (map Match.id matches) -> replaceMatch loForm mId matches = matches.
Proof.
  intros H. unfold replaceMatch. rewrite <- (map_id matches) at 2.
  apply map_ext_in. intros m Hin.
  destruct (String.eqb_spec (Match.id m) mId) as [E | E]; [|reflexivity].
  exfalso. apply H. rewrite <- E. now apply in_map.
Qed.

Lemma unique_by_id (matches : list Match.t) (m m' : Match.t) :
  NoDup (map Match.id matches) -> In m matches -> In m' matches ->
  Match.id m = Match.id m' -> m = m'.
Proof.
  induction matches as [|x l IH]; simpl; intros Hnd Hm Hm' E; [contradiction|].
  inversion Hnd as [|y ys Hnotin Hnd']; subst.
  destruct Hm as [-> | Hm], Hm' as [-> | Hm']; auto.
  - exfalso. apply Hnotin. rewrite E. now apply in_map.
  - exfalso. apply Hnotin. rewrite <- E. now apply in_map.
Qed.

(** With distinct ids the match with the pending id is the only entry that
    changes. *)
Lemma replaceMatch_split loForm (before after : list Match.t) (m : Match.t) :
  NoDup (map Match.id (before ++ m :: after)) ->
  replaceMatch loForm (Match.id m) (before ++ m :: after)
  = before ++ updatedMatch loForm m :: after.
Proof.
  intros Hnd. unfold replaceMatch.
  assert (Hin : In m (before ++ m :: after)) by (apply in_elt).
  destruct (find _ _) as [m0|] eqn:F.
  2:{ pose proof (find_none_no_id _ _ F m Hin) as H. rewrite String.eqb_refl in H.
      discriminate. }
  apply find_some in F as [Hin0 H0]. apply String.eqb_eq in H0.
  assert (m0 = m) by (apply (unique_by_id _ _ _ Hnd Hin0 Hin H0)). subst m0.
  assert (Hframe : forall l, (forall x, In x l -> In x (before ++ m :: after)) ->
                             ~ In m l ->
                             map (fun x => if (Match.id x =? Match.id m)%string
                                           then updatedMatch loForm m else x) l = l).
  { intros l Hsub Hnot. rewrite <- (map_id l) at 2. apply map_ext_in. intros x Hx.
    destruct (String.eqb_spec (Match.id x) (Match.id m)) as [E | E]; [|reflexivity].
    exfalso. apply Hnot.
    now rewrite <- (unique_by_id _ _ _ Hnd (Hsub x Hx) Hin E). }
  rewrite map_app. simpl. rewrite String.eqb_refl.
  rewrite map_app in Hnd. simpl in Hnd.
  pose proof (NoDup_remove_2 _ _ _ Hnd) as Hout.
  rewrite !Hframe; [reflexivity| | | |].
  - intros x Hx. apply in_or_app. right. now right.
  - intros Hx. apply Hout. apply in_or_app. right. now apply in_map.
  - intros x Hx. apply in_or_app. now left.
  - intros Hx. apply Hout. apply in_or_app. left. now apply in_map.
Qed.

(** X8: without a pending match id (no dialog, no id, or the empty id)
    [saveMatchResult] does nothing at all; with an id that no match
    carries, the match list is returned as it was. *)
Theorem save_without_a_target (loForm : LoForm.t) (ui : UI.t) :
  (pendingMatchId ui = None \/ pendingMatchId ui = Some "" ->
   saveMatchResult loForm ui = ui)
  /\ (forall mId, pendingMatchId ui = Some mId ->
        ~ In mId (map Match.id (Tournament.matches (UI.tournament ui))) ->
        Tournament.matches (UI.tournament (saveMatchResult loForm ui))
        = Tournament.matches (UI.tournament ui)).
Proof.
  unfold saveMatchResult. split.
  - intros [H | H]; rewrite H; reflexivity.
  - intros mId H Hnot. rewrite H.
    destruct (mId =? "")%string; [reflexivity|]. simpl.
    now apply replaceMatch_unknown.
Qed.

Lemma resultOfForm_cases (loForm : LoForm.t) :
  (LoForm.isAbandoned loForm = true /\ resultOfForm loForm = ABANDONED)
  \/ (LoForm.isAbandoned loForm = false
      /\ ((LoForm.t2Runs loForm < LoForm.t1Runs loForm /\ resultOfForm loForm = T1_WIN)
          \/ (LoForm.t1Runs loForm < LoForm.t2Runs loForm /\ resultOfForm loForm = T2_WIN)
          \/ (LoForm.t1Runs loForm == LoForm.t2Runs loForm /\ resultOfForm loForm = TIE))).
Proof.
  unfold resultOfForm, JS.num_gt.
  destruct (LoForm.isAbandoned loForm); [left; auto|right]. split; [reflexivity|].
  simpl.
  destruct (Qle_bool (LoForm.t1Runs loForm) (LoForm.t2Runs loForm)) eqn:E1; simpl.
  - apply Qle_bool_iff in E1.
    destruct (Qle_bool (LoForm.t2Runs loForm) (LoForm.t1Runs loForm)) eqn:E2; simpl.
    + apply Qle_bool_iff in E2. right; right. split; [lra|reflexivity].
    + right; left. split; [|reflexivity].
      apply Qnot_le_lt. intros H. apply Qle_bool_iff in H. congruence.
  - left. split; [|reflexivity].
    apply Qnot_le_lt. intros H. apply Qle_bool_iff in H. congruence.
Qed.

(** X9: after [saveMatchResult] every match with the pending id is
    completed, carries all six score fields, and has as result the first
    team's win, the second team's win or a tie according to the two run
    totals, or ABANDONED when the form says so; it is never DRAW or
    NO_RESULT.  Such a match reaches the net-run-rate ledger exactly when
    it is not abandoned. *)
Theorem saved_result_is_complete (loForm : LoForm.t) (ui : UI.t) (mId : string)
    (Hpending : pendingMatchId ui = Some mId) (Hid : mId <> "") :
  forall m, In m (Tournament.matches (UI.tournament (saveMatchResult loForm ui))) ->
            Match.id m = mId ->
  Match.status m = COMPLETED
  /\ Match.resultType m = Some (resultOfForm loForm)
  /\ Match.t1Runs m = Some (LoForm.t1Runs loForm)
  /\ Match.t1Wickets m = Some (LoForm.t1Wickets loForm)
  /\ Match.t1Overs m = Some (LoForm.t1Overs loForm)
  /\ Match.t2Runs m = Some (LoForm.t2Runs loForm)
  /\ Match.t2Wickets m = Some (LoForm.t2Wickets loForm)
  /\ Match.t2Overs m = Some (LoForm.t2Overs loForm)
  /\ ledgerGuard m = negb (LoForm.isAbandoned loForm)
  /\ resultOfForm loForm <> DRAW /\ resultOfForm loForm <> NO_RESULT
  /\ (resultOfForm loForm = T1_WIN
      <-> LoForm.isAbandoned loForm = false
          /\ LoForm.t2Runs loForm < LoForm.t1Runs loForm)
  /\ (resultOfForm loForm = T2_WIN
      <-> LoForm.isAbandoned loForm = false
          /\ LoForm.t1Runs loForm < LoForm.t2Runs loForm)
  /\ (resultOfForm loForm = TIE
      <-> LoForm.isAbandoned loForm = false
          /\ LoForm.t1Runs loForm == LoForm.t2Runs loForm)
  /\ (resultOfForm loForm = ABANDONED <-> LoForm.isAbandoned loForm = true).
Proof.
  intros m Hin Hm.
  unfold saveMatchResult in Hin. rewrite Hpending in Hin.
  apply String.eqb_neq in Hid. rewrite Hid in Hin. simpl in Hin.
  unfold replaceMatch in Hin. apply in_map_iff in Hin as (x & Hx & Hin).
  destruct (String.eqb_spec (Match.id x) mId) as [E | E];
    [|subst m; contradiction].
  destruct (find _ _) as [m0|] eqn:F.
  2:{ pose proof (find_none_no_id _ _ F x Hin) as Hno.
      apply String.eqb_neq in Hno. contradiction. }
  subst m. simpl.
  assert (Hguard : ledgerGuard (updatedMatch loForm m0)
                   = negb (LoForm.isAbandoned loForm)).
  { unfold ledgerGuard. simpl.
    destruct (resultOfForm_cases loForm)
      as [[Ha ->] | [Ha [[_ ->] | [[_ ->] | [_ ->]]]]]; rewrite Ha; reflexivity. }
  repeat (split; [reflexivity|]).
  split; [exact Hguard|].
  destruct (resultOfForm_cases loForm)
    as [[Ha Hr] | [Ha [[Hlt Hr] | [[Hlt Hr] | [Heq Hr]]]]]; rewrite Hr, Ha;
    repeat split; try discriminate; try tauto;
    try (intros [_ H]; exfalso; lra); try (intros [H _]; discriminate).
Qed.

Lemma saved_result_is_complete_witness :
  let ui := snd (openScorecard chase (screen (cup [lions; tigers] [] [chase] []))) in
  pendingMatchId ui = Some (Match.id chase)
  /\ Match.id chase <> ""
  /\ Match.resultType
       (updatedMatch (scorecardOf chase) chase) = Some T2_WIN.
Proof.
  cbv zeta.
  assert (Hp : pendingMatchId
                 (snd (openScorecard chase (screen (cup [lions; tigers] [] [chase] []))))
               = Some (Match.id chase)) by reflexivity.
  assert (Hn : Match.id chase <> "") by discriminate.
  split; [exact Hp|]. split; [exact Hn|].
  pose proof (saved_result_is_complete (scorecardOf chase) _ _ Hp Hn
                (updatedMatch (scorecardOf chase) chase)) as H.
  assert (Hin : In (updatedMatch (scorecardOf chase) chase)
                  (Tournament.matches
                     (UI.tournament
                        (saveMatchResult (scorecardOf chase)
                           (snd (openScorecard chase
                                   (screen (cup [lions; tigers] [] [chase] []))))))))
    by (left; reflexivity).
  destruct (H Hin eq_refl) as (_ & Hr & _).
  rewrite Hr. reflexivity.
Defined.

Lemma fixture_updatedMatch loForm m :
  fixture (updatedMatch loForm m) = fixture m
  /\ Match.venueId (updatedMatch loForm m) = Match.venueId m.
Proof. split; reflexivity. Qed.

(** X10: [saveMatchResult] never adds, removes or reorders a match and
    never touches the teams, stadiums, penalties or configuration; the
    ids of the matches stay as they are, every match with another id is
    kept as it is, and when the ids are distinct the rounds, pairings and
    venues stay as they are too. *)
Theorem saving_keeps_the_fixtures (loForm : LoForm.t) (ui : UI.t) :
  let before := UI.tournament ui in
  let after := UI.tournament (saveMatchResult loForm ui) in
  map Match.id (Tournament.matches after) = map Match.id (Tournament.matches before)
  /\ List.length (Tournament.matches after) = List.length (Tournament.matches before)
  /\ Tournament.teams after = Tournament.teams before
  /\ Tournament.stadiums after = Tournament.stadiums before
  /\ Tournament.penalties after = Tournament.penalties before
  /\ Tournament.config after = Tournament.config before
  /\ (forall m, In m (Tournament.matches before) ->
                pendingMatchId ui <> Some (Match.id m) ->
                In m (Tournament.matches after))
  /\ (NoDup (map Match.id (Tournament.matches before)) ->
      map fixture (Tournament.matches after) = map fixture (Tournament.matches before)
      /\ map Match.venueId (Tournament.matches after)
         = map Match.venueId (Tournament.matches before)).
Proof.
  cbv zeta. unfold saveMatchResult.
  destruct (pendingMatchId ui) as [mId|] eqn:P.
  2:{ repeat split; auto. }
  destruct (mId =? "")%string eqn:E.
  { repeat split; auto. }
  simpl.
  split; [apply replaceMatch_ids|].
  split; [unfold replaceMatch; apply length_map|].
  repeat (split; [reflexivity|]).
  split.
  - intros m Hin Hne. unfold replaceMatch. apply in_map_iff. exists m.
    split; [|exact Hin].
    destruct (String.eqb_spec (Match.id m) mId) as [Em | Em]; [|reflexivity].
    exfalso. apply Hne. now rewrite Em.
  - intros Hnd.
    destruct (in_dec string_dec mId (map Match.id (Tournament.matches (UI.tournament ui))))
      as [Hin | Hout].
    + apply in_map_iff in Hin as (m & <- & Hin).
      apply in_split in Hin as (l1 & l2 & Hsplit).
      rewrite Hsplit in *. rewrite (replaceMatch_split loForm l1 l2 m Hnd).
      rewrite !map_app. simpl. split; reflexivity.
    + rewrite (replaceMatch_unknown loForm mId _ Hout). split; reflexivity.
Qed.

Lemma Qle_bool_respects (x x' y y' : Q) :
  x == x' -> y == y' -> Qle_bool x y = Qle_bool x' y'.
Proof.
  intros Hx Hy.
  destruct (Qle_bool x y) eqn:E, (Qle_bool x' y') eqn:E'; try reflexivity.
  - apply Qle_bool_iff in E. rewrite Hx, Hy in E. apply Qle_bool_iff in E. congruence.
  - apply Qle_bool_iff in E'. rewrite <- Hx, <- Hy in E'.
    apply Qle_bool_iff in E'. congruence.
Qed.

Lemma resultOfForm_respects (f f' : LoForm.t) :
  sameForm f f' -> resultOfForm f = resultOfForm f'.
Proof.
  intros (H1 & _ & _ & H2 & _ & _ & _ & _ & Ha).
  unfold resultOfForm, JS.num_gt. rewrite Ha.
  rewrite (Qle_bool_respects _ _ _ _ H1 H2), (Qle_bool_respects _ _ _ _ H2 H1).
  reflexivity.
Qed.

Lemma abandoned_flag_of_result (f : LoForm.t) :
  res_is (Some (resultOfForm f)) ABANDONED = LoForm.isAbandoned f.
Proof.
  destruct (resultOfForm_cases f)
    as [[Ha ->] | [Ha [[_ ->] | [[_ ->] | [_ ->]]]]]; rewrite Ha; reflexivity.
Qed.

(** X11: opening the scorecard of a match that was saved from a form
    shows that form again, and finalising it without a change stores the
    same match. *)
Theorem scorecard_round_trip (loForm : LoForm.t) (m0 : Match.t) :
  let saved := updatedMatch loForm m0 in
  sameForm (scorecardOf saved) loForm
  /\ sameMatch (updatedMatch (scorecardOf saved) saved) saved.
Proof.
  cbv zeta.
  assert (Hform : sameForm (scorecardOf (updatedMatch loForm m0)) loForm).
  { unfold sameForm, scorecardOf. cbn -[res_is resultOfForm JS.or_else].
    rewrite !or_else_zero, abandoned_flag_of_result.
    repeat split; reflexivity. }
  split; [exact Hform|].
  pose proof (resultOfForm_respects _ _ Hform) as Hres.
  destruct Hform as (H1 & H2 & H3 & H4 & H5 & H6 & H7 & H8 & H9).
  unfold sameMatch, sameScore. cbn -[resultOfForm scorecardOf].
  rewrite Hres, H7, H8.
  repeat split; assumption.
Qed.

Lemma countCode_app team c (l1 l2 : list Match.t) :
  countCode team c (l1 ++ l2) = (countCode team c l1 + countCode team c l2)%Z.
Proof.
  unfold countCode. rewrite map_app, count_occ_app. lia.
Qed.

Lemma recordResult_code config team m a :
  let a' := recordResult config (Match.team1Id m =? Team.id team)%string
              (Match.resultType m) (played a) in
  Acc.mw a' = (Acc.mw a + countCode team "W" [m])%Z
  /\ Acc.ml a' = (Acc.ml a + countCode team "L" [m])%Z
  /\ Acc.mt a' = (Acc.mt a + countCode team "T" [m])%Z
  /\ Acc.nr a' = (Acc.nr a + countCode team "NR" [m])%Z.
Proof.
  unfold countCode. cbn [map]. unfold recordResult, formCode;
    repeat match goal with |- context [if ?c then _ else _] => destruct c end;
    cbn; repeat split; lia.
Qed.

(** Each counter is the number of matches with its letter. *)
Lemma fold_code_counts config team (l : list Match.t) (a : Acc.t) (g : Workspace.Ledger) :
  let a' := fst (fold_left (Workspace.processMatch config team) l (a, g)) in
  Acc.mw a' = (Acc.mw a + countCode team "W" l)%Z
  /\ Acc.ml a' = (Acc.ml a + countCode team "L" l)%Z
  /\ Acc.mt a' = (Acc.mt a + countCode team "T" l)%Z
  /\ Acc.nr a' = (Acc.nr a + countCode team "NR" l)%Z.
Proof.
  revert a g. induction l as [|m l IH]; intros a g; cbv zeta.
  - unfold countCode. simpl. repeat split; lia.
  - cbn [fold_left].
    destruct (Workspace.processMatch config team (a, g) m) as [a1 g1] eqn:E.
    pose proof (processMatch_counters config team a g m) as Hc. rewrite E in Hc.
    cbn [fst] in Hc.
    pose proof (recordResult_code config team m a) as Ht. cbv zeta in Ht.
    rewrite <- Hc in Ht. destruct Ht as (T1 & T2 & T3 & T4).
    destruct (IH a1 g1) as (I1 & I2 & I3 & I4).
    change (m :: l) with ([m] ++ l). rewrite !countCode_app.
    repeat split; lia.
Qed.

Lemma standing_code_counts (tournament : Tournament.t) (team : Team.t) :
  let s := Workspace.teamStanding tournament team in
  let played := filter (playedBy team) (Tournament.matches tournament) in
  Standing.mw s = countCode team "W" played
  /\ Standing.ml s = countCode team "L" played
  /\ Standing.mt s = countCode team "T" played
  /\ Standing.nr s = countCode team "NR" played.
Proof.
  cbv zeta. unfold Workspace.teamStanding, Workspace.aggregate.
  pose proof (fold_code_counts (Tournament.config tournament) team
                (filter (playedBy team) (Tournament.matches tournament))
                Acc.initial (Workspace.mkLedger 0 0 0 0)) as H.
  cbv zeta in H. destruct (fold_left _ _ _) as [a g]. cbn [fst] in H. simpl.
  simpl in H. exact H.
Qed.

Lemma playedBy_open (team : Team.t) (m : Match.t) :
  Match.status m <> COMPLETED -> playedBy team m = false.
Proof.
  intros H. unfold playedBy. destruct (Match.status m); try contradiction;
    simpl; apply andb_false_r.
Qed.

(** X12: when the scorecard of a match that was not completed is
    finalised with more runs for the first team (not abandoned), on a
    schedule with distinct match ids and two different teams in the match,
    the first team gains one match played and one win, the second team one
    match played and one loss, and the standing of every other team is
    what it was. *)
Theorem decisive_result_moves_the_table
    (loForm : LoForm.t) (ui : UI.t) (m : Match.t) (earlier later : list Match.t)
    (Hmatches : Tournament.matches (UI.tournament ui) = earlier ++ m :: later)
    (Hids : NoDup (map Match.id (Tournament.matches (UI.tournament ui))))
    (Hpending : pendingMatchId ui = Some (Match.id m))
    (Hid : Match.id m <> "")
    (Hopen : Match.status m <> COMPLETED)
    (Hplayed : LoForm.isAbandoned loForm = false)
    (Hwon : LoForm.t2Runs loForm < LoForm.t1Runs loForm)
    (Hsides : Match.team1Id m <> Match.team2Id m) :
  forall team,
    let s := Workspace.teamStanding (UI.tournament ui) team in
    let s' := Workspace.teamStanding (UI.tournament (saveMatchResult loForm ui)) team in
    (Team.id team = Match.team1Id m ->
     Standing.mp s' = (Standing.mp s + 1)%Z /\ Standing.mw s' = (Standing.mw s + 1)%Z
     /\ Standing.ml s' = Standing.ml s /\ Standing.mt s' = Standing.mt s
     /\ Standing.nr s' = Standing.nr s)
    /\ (Team.id team = Match.team2Id m ->
        Standing.mp s' = (Standing.mp s + 1)%Z /\ Standing.ml s' = (Standing.ml s + 1)%Z
        /\ Standing.mw s' = Standing.mw s /\ Standing.mt s' = Standing.mt s
        /\ Standing.nr s' = Standing.nr s)
    /\ (Team.id team <> Match.team1Id m -> Team.id team <> Match.team2Id m ->
        s' = s).
Proof.
  intros team. cbv zeta.
  assert (Hres : resultOfForm loForm = T1_WIN).
  { destruct (resultOfForm_cases loForm)
      as [[Ha _] | [_ [[_ Hr] | [[Hlt _] | [Heq _]]]]];
      [congruence | exact Hr | lra | lra]. }
  assert (Hafter : Tournament.matches (UI.tournament (saveMatchResult loForm ui))
                   = earlier ++ updatedMatch loForm m :: later).
  { unfold saveMatchResult. rewrite Hpending.
    apply String.eqb_neq in Hid. rewrite Hid. simpl.
    rewrite Hmatches in *. now apply replaceMatch_split. }
  assert (Hconfig : Tournament.config (UI.tournament (saveMatchResult loForm ui))
                    = Tournament.config (UI.tournament ui)
                    /\ Tournament.penalties (UI.tournament (saveMatchResult loForm ui))
                       = Tournament.penalties (UI.tournament ui)).
  { unfold saveMatchResult. rewrite Hpending.
    destruct (Match.id m =? "")%string; split; reflexivity. }
  destruct Hconfig as [Hconfig Hpen].
  pose proof (standing_matches_played (UI.tournament ui) team) as Hmp.
  pose proof (standing_matches_played (UI.tournament (saveMatchResult loForm ui)) team)
    as Hmp'.
  pose proof (standing_code_counts (UI.tournament ui) team) as (Hw & Hl & Ht & Hn).
  pose proof (standing_code_counts (UI.tournament (saveMatchResult loForm ui)) team)
    as (Hw' & Hl' & Ht' & Hn').
  cbv zeta in *.
  rewrite Hafter in Hmp', Hw', Hl', Ht', Hn'.
  rewrite Hmatches in Hmp, Hw, Hl, Ht, Hn.
  rewrite filter_app in *. cbn [filter] in *.
  rewrite (playedBy_open team m Hopen) in *.
  split; [|split].
  - intros Hteam.
    assert (Hp : playedBy team (updatedMatch loForm m) = true).
    { unfold playedBy. simpl. rewrite <- Hteam, String.eqb_refl. reflexivity. }
    assert (Hcode : formCode team (updatedMatch loForm m) = "W").
    { unfold formCode. simpl. rewrite <- Hteam, String.eqb_refl, Hres. reflexivity. }
    rewrite Hp in *.
    change (updatedMatch loForm m :: filter (playedBy team) later)
      with ([updatedMatch loForm m] ++ filter (playedBy team) later) in *.
    rewrite !countCode_app in *. rewrite !length_app in *.
    assert (C : countCode team "W" [updatedMatch loForm m] = 1%Z
                /\ countCode team "L" [updatedMatch loForm m] = 0%Z
                /\ countCode team "T" [updatedMatch loForm m] = 0%Z
                /\ countCode team "NR" [updatedMatch loForm m] = 0%Z).
    { unfold countCode. cbn [map]. rewrite Hcode. repeat split; reflexivity. }
    destruct C as (C1 & C2 & C3 & C4). rewrite C1, C2, C3, C4 in *.
    cbn [List.length] in *. repeat split; lia.
  - intros Hteam.
    assert (Hnot1 : (Match.team1Id m =? Team.id team)%string = false).
    { apply String.eqb_neq. congruence. }
    assert (Hp : playedBy team (updatedMatch loForm m) = true).
    { unfold playedBy. simpl. rewrite <- Hteam, String.eqb_refl.
      now rewrite orb_true_r. }
    assert (Hcode : formCode team (updatedMatch loForm m) = "L").
    { unfold formCode. simpl. rewrite Hnot1, Hres. reflexivity. }
    rewrite Hp in *.
    change (updatedMatch loForm m :: filter (playedBy team) later)
      with ([updatedMatch loForm m] ++ filter (playedBy team) later) in *.
    rewrite !countCode_app in *. rewrite !length_app in *.
    assert (C : countCode team "W" [updatedMatch loForm m] = 0%Z
                /\ countCode team "L" [updatedMatch loForm m] = 1%Z
                /\ countCode team "T" [updatedMatch loForm m] = 0%Z
                /\ countCode team "NR" [updatedMatch loForm m] = 0%Z).
    { unfold countCode. cbn [map]. rewrite Hcode. repeat split; reflexivity. }
    destruct C as (C1 & C2 & C3 & C4). rewrite C1, C2, C3, C4 in *.
    cbn [List.length] in *. repeat split; lia.
  - intros H1 H2.
    assert (Hp : playedBy team (updatedMatch loForm m) = false).
    { unfold playedBy. simpl.
      apply not_eq_sym, String.eqb_neq in H1. apply not_eq_sym, String.eqb_neq in H2.
      now rewrite H1, H2. }
    unfold Workspace.teamStanding, Workspace.aggregate.
    rewrite Hconfig, Hpen, Hafter, Hmatches, !filter_app. cbn [filter].
    rewrite Hp, (playedBy_open team m Hopen). reflexivity.
Qed.

Lemma decisive_result_moves_the_table_witness :
  let ui := snd (openScorecard opener
                   (screen (cup [lions; tigers; bears] [] [opener] []))) in
  Match.status opener <> COMPLETED
  /\ LoForm.t2Runs lionsWin < LoForm.t1Runs lionsWin
  /\ Standing.mw (Workspace.teamStanding
                    (UI.tournament (saveMatchResult lionsWin ui)) lions)
     = (Standing.mw (Workspace.teamStanding (UI.tournament ui) lions) + 1)%Z.
Proof.
  cbv zeta.
  assert (Hopen : Match.status opener <> COMPLETED) by discriminate.
  assert (Hwon : LoForm.t2Runs lionsWin < LoForm.t1Runs lionsWin) by reflexivity.
  split; [exact Hopen|]. split; [exact Hwon|].
  assert (Hids : NoDup (map Match.id [opener])).
  { constructor; [intros []|constructor]. }
  assert (Hid : Match.id opener <> "") by discriminate.
  assert (Hsides : Match.team1Id opener <> Match.team2Id opener) by discriminate.
  destruct (decisive_result_moves_the_table lionsWin
              (snd (openScorecard opener
                      (screen (cup [lions; tigers; bears] [] [opener] []))))
              opener [] [] eq_refl Hids eq_refl Hid Hopen eq_refl Hwon Hsides lions)
    as (H1 & _).
  destruct (H1 eq_refl) as (_ & Hw & _). exact Hw.
Defined.

(* ================================================================== *)
(** ** Match ids *)
(* ================================================================== *)

Section MatchIds.

Local Open Scope nat_scope.

Lemma string_of_uint_digits (d : Decimal.uint) :
  allDigits (NilEmpty.string_of_uint d) = true.
Proof. induction d; simpl; auto. Qed.

Lemma show_nat_digits (n : nat) : allDigits (JS.show_nat n) = true.
Proof. apply string_of_uint_digits. Qed.

Lemma show_nat_injective (n n' : nat) : JS.show_nat n = JS.show_nat n' -> n = n'.
Proof.
  unfold JS.show_nat. intros H.
  apply DecimalNat.Unsigned.to_uint_inj.
  apply (f_equal NilEmpty.uint_of_string) in H.
  rewrite !NilEmpty.usu in H. congruence.
Qed.

(** Two digit strings followed by a dash and more: the first dash tells
    where the digits end. *)
Lemma split_at_dash (s s' t t' : string) :
  allDigits s = true -> allDigits s' = true ->
  (s ++ String "-" t = s' ++ String "-" t')%string ->
  s = s' /\ t = t'.
Proof.
  revert s'. induction s as [|c s IH]; intros s' Hs Hs' E.
  - destruct s' as [|c' s']; simpl in E.
    + injection E as ->. auto.
    + injection E as <- _. simpl in Hs'. discriminate.
  - destruct s' as [|c' s']; simpl in E.
    + injection E as -> _. simpl in Hs. discriminate.
    + injection E as <- E. simpl in Hs, Hs'.
      apply andb_prop in Hs as [_ Hs]. apply andb_prop in Hs' as [_ Hs'].
      destruct (IH s' Hs Hs' E) as [-> ->]. auto.
Qed.

Lemma matchIdOf_injective (r m r' m' : nat) (c c' : string) :
  matchIdOf r m c = matchIdOf r' m' c' -> r = r' /\ m = m'.
Proof.
  unfold matchIdOf. simpl. intros [= E].
  apply split_at_dash in E as [Er E]; try apply show_nat_digits.
  apply split_at_dash in E as [Em _]; try apply show_nat_digits.
  apply show_nat_injective in Er, Em. lia.
Qed.

Lemma newMatch_id e stadiums r m k t1 t2 :
  Match.id (newMatch e stadiums r m k t1 t2) = matchIdOf r m (JS.show_Z (Env.now e k)).
Proof. reflexivity. Qed.

Lemma pushedBefore_next_seat r0 m0 i : pushedBefore r0 m0 i -> pushedBefore r0 (S m0) i.
Proof.
  intros (r & m & c & E & H). exists r, m, c. split; [exact E|lia].
Qed.

Lemma pushedBefore_next_round r0 m0 i : pushedBefore r0 m0 i -> pushedBefore (S r0) 0 i.
Proof.
  intros (r & m & c & E & H). exists r, m, c. split; [exact E|lia].
Qed.

Lemma fold_left_seq_invariant {S : Type} (P : nat -> S -> Prop) (f : S -> nat -> S)
    (len start : nat) (s : S) :
  (forall i x, start <= i < start + len -> P i x -> P (Datatypes.S i) (f x i)) ->
  P start s -> P (start + len) (fold_left f (seq start len) s).
Proof.
  revert start s. induction len as [|len IH]; intros start s Hstep H0; simpl.
  - now rewrite Nat.add_0_r.
  - replace (start + Datatypes.S len) with (Datatypes.S start + len) by lia.
    apply IH.
    + intros i x Hi. apply Hstep. lia.
    + apply Hstep; [lia|exact H0].
Qed.

Variable e : Env.t.
Variable stadiums : list Stadium.t.

Lemma pairingStep_ids pool r m (matches : list Match.t) :
  NoDup (map Match.id matches) /\ Forall (pushedBefore r m) (map Match.id matches) ->
  NoDup (map Match.id (pairingStep e stadiums pool r matches m))
  /\ Forall (pushedBefore r (S m)) (map Match.id (pairingStep e stadiums pool r matches m)).
Proof.
  intros [Hnd Hall]. unfold pairingStep.
  assert (Hold : Forall (pushedBefore r (S m)) (map Match.id matches)).
  { eapply Forall_impl; [|exact Hall]. intros i. apply pushedBefore_next_seat. }
  destruct (notBye _ && notBye _); [|now split].
  rewrite map_app. cbn [map]. rewrite newMatch_id. split.
  - apply NoDup_app; [exact Hnd|repeat constructor; intros []|].
    intros i Hin [<- | []].
    rewrite Forall_forall in Hall. destruct (Hall _ Hin) as (r' & m' & c & E & H).
    apply matchIdOf_injective in E. lia.
  - apply Forall_app. split; [exact Hold|].
    constructor; [|constructor].
    exists r, m, (JS.show_Z (Env.now e (List.length matches))). split; [reflexivity|lia].
Qed.

Lemma generated_ids_NoDup (teams : list Team.t) :
  NoDup (map Match.id (generateMatches e teams stadiums)).
Proof.
  unfold generateMatches.
  set (mpr := List.length (initialPool teams) / 2).
  set (rounds := List.length (initialPool teams) - 1).
  pose proof (fold_left_seq_invariant
                (fun r (st : list Team.t * list Match.t) =>
                   NoDup (map Match.id (snd st))
                   /\ Forall (pushedBefore r 0) (map Match.id (snd st)))
                (roundStep e stadiums mpr) rounds 0 (initialPool teams, [])) as H.
  apply H; [|split; constructor].
  intros r [pool matches] _ Hinv. cbn [snd] in *. unfold roundStep. cbn [snd].
  pose proof (fold_left_seq_invariant
                (fun m (ms : list Match.t) =>
                   NoDup (map Match.id ms) /\ Forall (pushedBefore r m) (map Match.id ms))
                (pairingStep e stadiums pool r) mpr 0 matches) as Hin.
  destruct Hin as [Hnd Hall].
  - intros m ms _. apply pairingStep_ids.
  - exact Hinv.
  - split; [exact Hnd|].
    eapply Forall_impl; [|exact Hall]. intros i. apply pushedBefore_next_round.
Qed.

Lemma generated_ids_truthy (teams : list Team.t) :
  Forall (fun m => Match.id m <> ""%string) (generateMatches e teams stadiums).
Proof.
  apply generateMatches_Forall. intros r m k t1 t2. rewrite newMatch_id.
  unfold matchIdOf. simpl. discriminate.
Qed.

(** X13: the ids of a generated schedule are pairwise distinct, whatever
    the teams, the stadiums and the clock, even a clock that stands still;
    none of them is the empty string, which the scorecard would take for
    no match at all. *)
Theorem generated_ids_are_distinct (teams : list Team.t) :
  NoDup (map Match.id (generateMatches e teams stadiums))
  /\ Forall (fun m => Match.id m <> ""%string) (generateMatches e teams stadiums).
Proof.
  split; [apply generated_ids_NoDup|apply generated_ids_truthy].
Qed.

End MatchIds.

(* ================================================================== *)
(** ** The dashboard *)
(* ================================================================== *)

Section DashboardFacts.

Local Open Scope nat_scope.

Lemma status_split (matches : list Match.t) :
  List.length matches
  = List.length (filter (hasStatus COMPLETED) matches)
    + List.length (filter (hasStatus IN_PROGRESS) matches)
    + List.length (filter (hasStatus NOT_STARTED) matches).
Proof.
  induction matches as [|m l IH]; [reflexivity|].
  assert (H : forall s, List.length (filter (hasStatus s) (m :: l))
                     = (if status_eqb (Match.status m) s then 1 else 0)
                       + List.length (filter (hasStatus s) l)).
  { intros s. cbn [filter]. unfold hasStatus at 1.
    destruct (status_eqb (Match.status m) s); reflexivity. }
  rewrite !H. cbn [List.length]. destruct (Match.status m); cbn [status_eqb]; lia.
Qed.

(** X14: the dashboard counts split the matches by status: [remaining] is
    the number of matches not started, no count is negative and the
    three add up to the total. *)
Theorem dashboard_counts_split (tournament : Tournament.t) :
  let d := dashboardCounts tournament in
  Dashboard.remaining d
  = Z.of_nat (List.length (filter (hasStatus NOT_STARTED) (Tournament.matches tournament)))
  /\ (0 <= Dashboard.completed d)%Z /\ (0 <= Dashboard.ongoing d)%Z
  /\ (0 <= Dashboard.remaining d)%Z
  /\ (Dashboard.completed d + Dashboard.ongoing d + Dashboard.remaining d
      = Dashboard.total d)%Z.
Proof.
  cbv zeta. unfold dashboardCounts. cbn [Dashboard.remaining Dashboard.completed
    Dashboard.ongoing Dashboard.total].
  pose proof (status_split (Tournament.matches tournament)) as H.
  repeat split; lia.
Qed.

Lemma uniqFrom_In (a seen : list nat) (x : nat) :
  In x (uniqFrom seen a) <-> In x a /\ ~ In x seen.
Proof.
  revert seen. induction a as [|y a IH]; intros seen; simpl; [tauto|].
  destruct (existsb (Nat.eqb y) seen) eqn:E.
  - apply existsb_exists in E as (z & Hz & Ez). apply Nat.eqb_eq in Ez. subst z.
    rewrite IH. split.
    + intros [H1 H2]. auto.
    + intros [[-> | H1] H2]; [contradiction|auto].
  - assert (Hy : ~ In y seen).
    { intros Hy. apply not_true_iff_false in E. apply E.
      apply existsb_exists. exists y. split; [exact Hy|apply Nat.eqb_refl]. }
    simpl. rewrite IH. simpl. split.
    + intros [<- | [H1 H2]]; [auto|]. split; [auto|]. intros H. apply H2. auto.
    + intros [[<- | H1] H2]; [auto|].
      destruct (Nat.eq_dec y x) as [->|Hne]; [auto|].
      right. split; [exact H1|]. intros [H|H]; [contradiction|auto].
Qed.

Lemma uniqFrom_NoDup (a seen : list nat) : NoDup (uniqFrom seen a).
Proof.
  revert seen. induction a as [|y a IH]; intros seen; simpl; [constructor|].
  destruct (existsb (Nat.eqb y) seen); [apply IH|].
  constructor; [|apply IH].
  rewrite uniqFrom_In. simpl. intros [_ H]. apply H. auto.
Qed.

Lemma byNumber_le (a b : nat) : (byNumber a b <= 0)%Q <-> a <= b.
Proof.
  unfold byNumber. rewrite (Nat2Z.inj_le a b), Zle_Qle. split; intros H; lra.
Qed.

Lemma sorted_numbers (l : list nat) : StronglySorted le (sort byNumber l).
Proof.
  assert (H : StronglySorted (fun a b => (byNumber a b <= 0)%Q) (sort byNumber l)).
  { apply sort_sorted.
    - intros x y Hxy. rewrite byNumber_le in *. lia.
    - intros x y z. rewrite !byNumber_le. lia. }
  induction H as [|x xs Hs IH Hx]; constructor; [exact IH|].
  eapply Forall_impl; [|exact Hx]. intros y. apply byNumber_le.
Qed.

Lemma strictly_sorted (l : list nat) :
  NoDup l -> StronglySorted le l -> StronglySorted lt l.
Proof.
  intros Hnd Hs. induction Hs as [|x xs Hs IH Hx]; [constructor|].
  inversion Hnd as [|y ys Hnotin Hnd']; subst.
  constructor; [now apply IH|].
  rewrite Forall_forall in *. intros y Hy. specialize (Hx y Hy).
  assert (x <> y) by (intros ->; contradiction). lia.
Qed.

Lemma strictly_sorted_unique (l l' : list nat) :
  StronglySorted lt l -> StronglySorted lt l' ->
  (forall x, In x l <-> In x l') -> l = l'.
Proof.
  intros Hl. revert l'. induction Hl as [|x xs Hs IH Hx]; intros l' Hl' Hiff.
  - destruct l' as [|y ys]; [reflexivity|]. destruct (proj2 (Hiff y)); simpl; auto.
  - destruct Hl' as [|y ys Hs' Hy].
    + destruct (proj1 (Hiff x)); simpl; auto.
    + rewrite Forall_forall in Hx, Hy.
      assert (x = y).
      { destruct (proj1 (Hiff x) (or_introl eq_refl)) as [E|Hin]; [auto|].
        destruct (proj2 (Hiff y) (or_introl eq_refl)) as [E|Hin']; [auto|].
        specialize (Hx _ Hin'). specialize (Hy _ Hin). lia. }
      subst y. f_equal. apply IH; [exact Hs'|].
      intros z. split; intros Hz.
      * destruct (proj1 (Hiff z) (or_intror Hz)) as [E|H]; [|exact H].
        specialize (Hx _ Hz). lia.
      * destruct (proj2 (Hiff z) (or_intror Hz)) as [E|H]; [|exact H].
        specialize (Hy _ Hz). lia.
Qed.

Lemma forallb_false_exists {A : Type} (f : A -> bool) (l : list A) :
  forallb f l = false -> exists x, In x l /\ f x = false.
Proof.
  induction l as [|x l IH]; simpl; [discriminate|].
  destruct (f x) eqn:E; simpl.
  - intros H. destruct (IH H) as (y & Hy & Ey). eauto.
  - intros _. eauto.
Qed.

Lemma roundList_In (tournament : Tournament.t) (r : nat) :
  In r (roundList tournament) <-> In r (map Match.round (Tournament.matches tournament)).
Proof.
  unfold roundList. fold byNumber. split.
  - intros H. apply (Permutation_in _ (Permutation_sym (sort_perm byNumber _))) in H.
    now apply uniqFrom_In in H.
  - intros H. apply (Permutation_in _ (sort_perm byNumber _)).
    apply uniqFrom_In. auto.
Qed.

Lemma roundList_sorted (tournament : Tournament.t) :
  StronglySorted lt (roundList tournament).
Proof.
  unfold roundList. fold byNumber. apply strictly_sorted; [|apply sorted_numbers].
  eapply Permutation_NoDup; [apply sort_perm|apply uniqFrom_NoDup].
Qed.

(** X15: the progress tracker lists the round numbers that occur among the
    matches, each once and in increasing order; a listed round is green
    exactly when all its matches are completed, grey exactly when none
    has started, and yellow otherwise. *)
Theorem round_tracker (tournament : Tournament.t) :
  StronglySorted lt (roundList tournament)
  /\ (forall r, In r (roundList tournament)
                <-> exists m, In m (Tournament.matches tournament) /\ Match.round m = r)
  /\ forall r, In r (roundList tournament) ->
       let ofRound m := In m (Tournament.matches tournament) /\ Match.round m = r in
       (roundColor tournament r = "bg-emerald-400"%string
        <-> forall m, ofRound m -> Match.status m = COMPLETED)
       /\ (roundColor tournament r = "bg-gray-300"%string
           <-> forall m, ofRound m -> Match.status m = NOT_STARTED)
       /\ (roundColor tournament r = "bg-yellow-400"%string
           <-> (exists m, ofRound m /\ Match.status m <> COMPLETED)
               /\ exists m, ofRound m /\ Match.status m <> NOT_STARTED).
Proof.
  split; [apply roundList_sorted|].
  split.
  { intros r. rewrite roundList_In, in_map_iff. split; intros (m & H1 & H2); eauto. }
  intros r Hr. cbv zeta.
  apply roundList_In, in_map_iff in Hr as (m0 & Hr0 & Hin0).
  unfold roundColor, roundDone, roundProgress.
  set (ms := filter (fun m => Match.round m =? r) (Tournament.matches tournament)).
  assert (Hms : forall m, In m ms <-> In m (Tournament.matches tournament) /\ Match.round m = r).
  { intros m. unfold ms. rewrite filter_In, Nat.eqb_eq. tauto. }
  assert (Hm0 : In m0 ms) by (apply Hms; auto).
  assert (Hdone : forallb (hasStatus COMPLETED) ms = true
                  <-> forall m, In m ms -> Match.status m = COMPLETED).
  { rewrite forallb_forall. split; intros H m Hm; specialize (H m Hm);
      unfold hasStatus in *; destruct (Match.status m); simpl in *; congruence. }
  assert (Hprog : existsb (fun m => hasStatus COMPLETED m || hasStatus IN_PROGRESS m) ms
                  = false
                  <-> forall m, In m ms -> Match.status m = NOT_STARTED).
  { split.
    - intros H m Hm. destruct (Match.status m) eqn:S; [reflexivity| |];
        (assert (existsb (fun m => hasStatus COMPLETED m || hasStatus IN_PROGRESS m) ms
                 = true)
          by (apply existsb_exists; exists m; split; [exact Hm|];
              unfold hasStatus; rewrite S; reflexivity); congruence).
    - intros H. apply not_true_iff_false. intros Ex.
      apply existsb_exists in Ex as (m & Hm & Hs). specialize (H m Hm).
      unfold hasStatus in Hs. rewrite H in Hs. discriminate. }
  destruct (forallb (hasStatus COMPLETED) ms) eqn:D.
  - pose proof (proj1 Hdone eq_refl) as Hall.
    split; [|split].
    + split; [|reflexivity]. intros _ m Hm. apply Hall, Hms, Hm.
    + split; [discriminate|]. intros H.
      specialize (H m0 (proj1 (Hms m0) Hm0)). rewrite (Hall m0 Hm0) in H. discriminate.
    + split; [discriminate|]. intros [(m & Hm & Hs) _].
      destruct Hs. apply Hall, Hms, Hm.
  - assert (Hsome : exists m, In m ms /\ Match.status m <> COMPLETED).
    { destruct (forallb_false_exists (hasStatus COMPLETED) ms D) as (m & Hm & Hs).
      exists m. split; [exact Hm|]. intros E. unfold hasStatus in Hs.
      rewrite E in Hs. discriminate. }
    destruct (existsb (fun m => hasStatus COMPLETED m || hasStatus IN_PROGRESS m) ms) eqn:P.
    + apply existsb_exists in P as (m & Hm & Hs).
      assert (Hst : Match.status m <> NOT_STARTED).
      { intros E. unfold hasStatus in Hs. rewrite E in Hs. discriminate. }
      split; [|split].
      * split; [discriminate|]. intros H. destruct Hsome as (m' & Hm' & Hs').
        destruct Hs'. apply H, Hms, Hm'.
      * split; [discriminate|]. intros H. destruct Hst. apply H, Hms, Hm.
      * split; [|reflexivity]. intros _. split.
        -- destruct Hsome as (m' & Hm' & Hs'). exists m'. split; [apply Hms, Hm'|exact Hs'].
        -- exists m. split; [apply Hms, Hm|exact Hst].
    + pose proof (proj1 Hprog eq_refl) as Hnone.
      split; [|split].
      * split; [discriminate|]. intros H.
        specialize (H m0 (proj1 (Hms m0) Hm0)). rewrite (Hnone m0 Hm0) in H.
        discriminate.
      * split; [|reflexivity]. intros _ m Hm. apply Hnone, Hms, Hm.
      * split; [discriminate|]. intros [_ (m & Hm & Hs)].
        destruct Hs. apply Hnone, Hms, Hm.
Qed.

End DashboardFacts.

(* ================================================================== *)
(** ** Further properties of the generated schedule *)
(* ================================================================== *)

Section ScheduleOrder.

Local Open Scope nat_scope.

Variable e : Env.t.

Lemma sorted_snoc (l : list nat) (x : nat) :
  StronglySorted le l -> Forall (fun y => y <= x) l -> StronglySorted le (l ++ [x]).
Proof.
  induction 1 as [|y l Hs IH Hy]; intros Hle; simpl.
  - repeat constructor.
  - inversion Hle as [|? ? Hyx Hle']; subst.
    constructor; [now apply IH|].
    apply Forall_app. split; [exact Hy|]. repeat constructor. exact Hyx.
Qed.

Lemma pairingStep_rounds stadiums pool r (matches : list Match.t) m :
  StronglySorted le (map Match.round matches)
  /\ Forall (fun x => x <= r + 1) (map Match.round matches) ->
  StronglySorted le (map Match.round (pairingStep e stadiums pool r matches m))
  /\ Forall (fun x => x <= r + 1)
       (map Match.round (pairingStep e stadiums pool r matches m)).
Proof.
  intros [Hs Hle]. unfold pairingStep.
  destruct (notBye _ && notBye _); [|now split].
  rewrite map_app. cbn [map newMatch Match.round]. split.
  - now apply sorted_snoc.
  - apply Forall_app. split; [exact Hle|]. repeat constructor.
Qed.

Lemma generated_round_by_round (teams : list Team.t) (stadiums : list Stadium.t) :
  StronglySorted le (map Match.round (generateMatches e teams stadiums)).
Proof.
  unfold generateMatches.
  set (mpr := List.length (initialPool teams) / 2).
  set (rounds := List.length (initialPool teams) - 1).
  pose proof (fold_left_seq_invariant
                (fun r (st : list Team.t * list Match.t) =>
                   StronglySorted le (map Match.round (snd st))
                   /\ Forall (fun x => x <= r) (map Match.round (snd st)))
                (roundStep e stadiums mpr) rounds 0 (initialPool teams, [])) as H.
  apply H; [|split; constructor].
  intros r [pool matches] _ [Hs Hle]. cbn [snd] in *. unfold roundStep. cbn [snd].
  pose proof (fold_left_seq_invariant
                (fun (m : nat) (ms : list Match.t) =>
                   StronglySorted le (map Match.round ms)
                   /\ Forall (fun x => x <= r + 1) (map Match.round ms))
                (pairingStep e stadiums pool r) mpr 0 matches) as Hin.
  destruct Hin as [Hs' Hle'].
  - intros m ms _. apply pairingStep_rounds.
  - split; [exact Hs|]. eapply Forall_impl; [|exact Hle]. intros x. cbv beta. lia.
  - split; [exact Hs'|]. eapply Forall_impl; [|exact Hle']. intros x. cbv beta. lia.
Qed.

Lemma seq_strictly_sorted (len start : nat) : StronglySorted lt (seq start len).
Proof.
  revert start. induction len as [|len IH]; intros start; simpl; constructor.
  - apply IH.
  - apply Forall_forall. intros x Hx. apply in_seq in Hx. lia.
Qed.

(** X16: the schedule generated for two or more teams, none with the id
    ['BYE'], lists its matches round by round; the progress tracker of
    the dashboard then shows the rounds 1, 2, ... up to the last one
    without a gap, every one of them grey. *)
Theorem generated_schedule_on_the_tracker (ui : UI.t)
    (enough_teams : 2 <= List.length (Tournament.teams (UI.tournament ui)))
    (no_bye_id : forall t, In t (Tournament.teams (UI.tournament ui)) ->
                           Team.id t <> "BYE"%string) :
  let after := UI.tournament (handleGenerateSchedule e ui) in
  StronglySorted le (map Match.round (Tournament.matches after))
  /\ roundList after
     = seq 1 (expectedRounds (List.length (Tournament.teams (UI.tournament ui))))
  /\ forall r, In r (roundList after) -> roundColor after r = "bg-gray-300"%string.
Proof.
  cbv zeta. unfold handleGenerateSchedule.
  pose proof enough_teams as Hn. apply Nat.ltb_ge in Hn. rewrite Hn.
  cbn [UI.tournament].
  set (teams := Tournament.teams (UI.tournament ui)) in *.
  set (matches := generateMatches e teams (Tournament.stadiums (UI.tournament ui))).
  split; [apply generated_round_by_round|].
  split.
  - apply strictly_sorted_unique;
      [apply roundList_sorted|apply seq_strictly_sorted|].
    intros r. rewrite roundList_In, in_seq. cbn [withSchedule Tournament.matches].
    pose proof (generated_fixtures e teams (Tournament.stadiums (UI.tournament ui))
                  no_bye_id) as Hfix.
    assert (Hrounds : map Match.round matches
                      = map (fun t => fst t + 1) (playedSeatings (List.length teams))).
    { apply (f_equal (map (fun f => fst (fst f)))) in Hfix.
      rewrite !map_map in Hfix. exact Hfix. }
    rewrite Hrounds, in_map_iff. split.
    + intros (t & <- & Hin).
      destruct (playedSeatings_valid teams enough_teams t Hin) as (Hr & _). lia.
    + intros Hr.
      assert (Hin : In (r - 1) (map fst (playedSeatings (List.length teams)))).
      { apply every_round_played; [assumption|lia]. }
      apply in_map_iff in Hin as (t & Et & Hin).
      exists t. split; [lia|exact Hin].
  - intros r Hr. apply roundList_In in Hr. cbn [withSchedule Tournament.matches] in Hr.
    apply in_map_iff in Hr as (m0 & Hr0 & Hin0).
    unfold roundColor, roundDone, roundProgress.
    cbn [withSchedule Tournament.matches].
    pose proof (generated_not_started e teams (Tournament.stadiums (UI.tournament ui)))
      as Hfresh. fold matches in Hfresh. rewrite Forall_forall in Hfresh.
    set (ms := filter (fun m => Match.round m =? r) matches).
    assert (Hms : forall m, In m ms -> Match.status m = NOT_STARTED).
    { intros m Hm. apply filter_In in Hm as [Hm _]. apply (Hfresh m Hm). }
    assert (Hm0 : In m0 ms) by (apply filter_In; split; [exact Hin0|now apply Nat.eqb_eq]).
    destruct (forallb (hasStatus COMPLETED) ms) eqn:D.
    + rewrite forallb_forall in D. specialize (D m0 Hm0).
      unfold hasStatus in D. rewrite (Hms m0 Hm0) in D. discriminate.
    + destruct (existsb _ ms) eqn:P; [|reflexivity].
      apply existsb_exists in P as (m & Hm & Hs).
      unfold hasStatus in Hs. rewrite (Hms m Hm) in Hs. discriminate.
Qed.

End ScheduleOrder.

Lemma generated_schedule_on_the_tracker_witness :
  let ui := screen (cup [lions; tigers; bears] [oval; lords] [] []) in
  (2 <= List.length (Tournament.teams (UI.tournament ui)))%nat
  /\ roundList (UI.tournament (handleGenerateSchedule firstRun ui)) = [1; 2; 3]%nat.
Proof.
  cbv zeta.
  assert (H2 : (2 <= List.length
                       (Tournament.teams
                          (UI.tournament
                             (screen (cup [lions; tigers; bears] [oval; lords] [] [])))))%nat)
    by (simpl; lia).
  split; [exact H2|].
  refine (proj1 (proj2 (generated_schedule_on_the_tracker firstRun _ H2 _))).
  simpl. intros t [<- | [<- | [<- | []]]]; discriminate.
Defined.

(* ================================================================== *)
(** ** Venues *)
(* ================================================================== *)

Lemma index_in_range {A : Type} (l : list A) (i : Z) :
  (0 <= i < Z.of_nat (List.length l))%Z -> exists x, JS.index l i = Some x /\ In x l.
Proof.
  intros Hi. unfold JS.index.
  destruct (i <? 0)%Z eqn:E; [apply Z.ltb_lt in E; lia|].
  destruct (nth_error l (Z.to_nat i)) as [x|] eqn:N.
  - exists x. split; [reflexivity|]. eapply nth_error_In, N.
  - apply nth_error_None in N. lia.
Qed.

Lemma index_some_in {A : Type} (l : list A) (i : Z) (x : A) :
  JS.index l i = Some x -> In x l.
Proof.
  unfold JS.index. destruct (i <? 0)%Z; [discriminate|].
  intros H. eapply nth_error_In, H.
Qed.

(** X17: the venue of a generated match is ['neutral'] or the id of one of
    the stadiums of the tournament; it is the id of a stadium whenever
    there is a stadium, no stadium has the empty id and [Math.random]
    returns numbers from 0 up to, not including, 1. *)
Theorem generated_venues (e : Env.t) (teams : list Team.t) (stadiums : list Stadium.t) :
  Forall (fun m => In (Match.venueId m) ("neutral"%string :: map Stadium.id stadiums))
         (generateMatches e teams stadiums)
  /\ (stadiums <> [] ->
      (forall s, In s stadiums -> Stadium.id s <> ""%string) ->
      (forall k, 0 <= Env.random e k < 1) ->
      Forall (fun m => In (Match.venueId m) (map Stadium.id stadiums))
             (generateMatches e teams stadiums)).
Proof.
  split.
  - apply generateMatches_Forall. intros r m k t1 t2.
    cbn [newMatch Match.venueId]. unfold pickVenue.
    destruct (JS.index stadiums _) as [v|] eqn:V; [|left; reflexivity].
    destruct (Stadium.id v =? "")%string; [left; reflexivity|].
    right. apply in_map. eapply index_some_in, V.
  - intros Hne Hids Hrand.
    apply generateMatches_Forall. intros r m k t1 t2.
    cbn [newMatch Match.venueId]. unfold pickVenue.
    set (len := Z.of_nat (List.length stadiums)).
    assert (Hlen : (0 < len)%Z).
    { unfold len. destruct stadiums; [contradiction|]. simpl. lia. }
    destruct (index_in_range stadiums (Qfloor (Env.random e k * inject_Z len)))
      as (v & Ev & Hv).
    { specialize (Hrand k).
      assert (Hq : 0 < inject_Z len) by (change 0 with (inject_Z 0); now rewrite <- Zlt_Qlt).
      split.
      - change 0%Z with (Qfloor 0). apply Qfloor_resp_le. nra.
      - rewrite Zlt_Qlt.
        apply Qle_lt_trans with (Env.random e k * inject_Z len); [apply Qfloor_le|].
        pose proof (Qmult_lt_compat_r _ _ (inject_Z len) Hq (proj2 Hrand)) as Hm.
        now rewrite Qmult_1_l in Hm. }
    fold len. rewrite Ev.
    destruct (Stadium.id v =? "")%string eqn:E.
    + apply String.eqb_eq in E. destruct (Hids v Hv E).
    + now apply in_map.
Qed.

(* ================================================================== *)
(** ** The matches of one team *)
(* ================================================================== *)

Section TeamFixtures.

Local Open Scope nat_scope.

Lemma length_at_most_one {X : Type} (l : list X) :
  NoDup l -> (forall x y, In x l -> In y l -> x = y) -> List.length l <= 1.
Proof.
  intros Hnd Heq. destruct l as [|x [|y l]]; simpl; try lia.
  inversion Hnd as [|? ? Hnotin _]; subst.
  destruct Hnotin. rewrite (Heq x y); simpl; auto.
Qed.

Lemma NoDup_of_map {X Y : Type} (g : X -> Y) (l : list X) : NoDup (map g l) -> NoDup l.
Proof.
  induction l as [|x l IH]; simpl; intros H; [constructor|].
  inversion H as [|? ? Hnotin Hnd]; subst.
  constructor; [|now apply IH]. intros Hin. apply Hnotin. now apply in_map.
Qed.

Lemma NoDup_map_injective {X Y : Type} (g : X -> Y) (l : list X) :
  (forall x y, In x l -> In y l -> g x = g y -> x = y) -> NoDup l -> NoDup (map g l).
Proof.
  intros Hinj. induction 1 as [|x l Hnotin Hnd IH]; simpl; constructor.
  - rewrite in_map_iff. intros (y & E & Hy). apply Hnotin.
    rewrite (Hinj x y); simpl; auto.
  - apply IH. intros a b Ha Hb. apply Hinj; simpl; auto.
Qed.

Lemma length_others (n i : nat) :
  i < n -> List.length (filter (fun j => negb (j =? i)) (seq 0 n)) = n - 1.
Proof.
  intros Hi.
  assert (H : forall len start,
             List.length (filter (fun j => negb (j =? i)) (seq start len))
             = if (start <=? i) && (i <? start + len) then len - 1 else len).
  { induction len as [|len IH]; intros start.
    - simpl. destruct (Nat.leb_spec start i), (Nat.ltb_spec i (start + 0)); simpl; lia.
    - cbn [seq filter]. destruct (Nat.eqb_spec start i) as [E|E]; cbn [negb List.length];
        rewrite IH;
        destruct (Nat.leb_spec (S start) i), (Nat.leb_spec start i),
                 (Nat.ltb_spec i (S start + len)), (Nat.ltb_spec i (start + S len));
        cbn [andb]; lia. }
  rewrite H. destruct (0 <=? i) eqn:A; [|apply Nat.leb_nle in A; lia].
  destruct (i <? 0 + n) eqn:B; [reflexivity|apply Nat.ltb_nlt in B; lia].
Qed.

Variable e : Env.t.
Variable teams : list Team.t.
Variable stadiums : list Stadium.t.
Hypothesis enough_teams : 2 <= List.length teams.
Hypothesis no_bye_id : forall t, In t teams -> Team.id t <> "BYE"%string.
Hypothesis distinct_ids : NoDup (map Team.id teams).

Lemma seatings_NoDup : NoDup (playedSeatings (List.length teams)).
Proof.
  eapply NoDup_of_map. apply (played_pairs_NoDup teams enough_teams).
Qed.

(** On the played seatings, a match involves the team at position [i]
    exactly when the seating has [i] on one side. *)
Lemma involves_seats (i : nat) (t : nat * (nat * nat)) :
  i < List.length teams ->
  In t (playedSeatings (List.length teams)) ->
  (let f := fixtureOf teams t in
   (snd (fst f) =? idAt teams i)%string || (snd f =? idAt teams i)%string)
  = seats i (snd t).
Proof.
  intros Hi Hin. cbv zeta.
  destruct (playedSeatings_valid teams enough_teams t Hin) as (_ & _ & H1 & H2).
  unfold fixtureOf, seats. cbn [fst snd].
  assert (H : forall j, j < List.length teams ->
                        (idAt teams j =? idAt teams i)%string = (j =? i)).
  { intros j Hj. destruct (Nat.eqb_spec j i) as [->|Hne].
    - apply String.eqb_refl.
    - apply String.eqb_neq. intros E. apply Hne.
      now apply (idAt_injective teams j i). }
  now rewrite !H.
Qed.

Lemma matches_of_position (i : nat) (q : nat -> bool) :
  i < List.length teams ->
  List.length (filter (fun m => q (Match.round m) && involves (idAt teams i) m)
                 (generateMatches e teams stadiums))
  = List.length (filter (fun t => q (fst t + 1) && seats i (snd t))
                   (playedSeatings (List.length teams))).
Proof.
  intros Hi.
  pose proof (generated_fixtures e teams stadiums no_bye_id) as Hfix.
  set (Q := fun f : nat * string * string =>
              q (fst (fst f))
              && ((snd (fst f) =? idAt teams i)%string || (snd f =? idAt teams i)%string)).
  transitivity (List.length (filter (fun m => Q (fixture m))
                               (generateMatches e teams stadiums))); [reflexivity|].
  rewrite (filter_over_map fixture Q), Hfix, <- filter_over_map. unfold Q.
  f_equal. apply filter_ext_in. intros t Ht.
  rewrite <- (involves_seats i t Hi Ht). reflexivity.
Qed.

Lemma one_seating_per_round (i r : nat) :
  List.length (filter (fun t => (fst t + 1 =? r) && seats i (snd t))
                 (playedSeatings (List.length teams))) <= 1.
Proof.
  apply length_at_most_one.
  - apply NoDup_filter, seatings_NoDup.
  - intros t t' Ht Ht'.
    apply filter_In in Ht as [Ht Hq]. apply filter_In in Ht' as [Ht' Hq'].
    apply andb_prop in Hq as [Hr Hs]. apply andb_prop in Hq' as [Hr' Hs'].
    apply Nat.eqb_eq in Hr, Hr'.
    unfold playedSeatings in Ht, Ht'. fold (poolSize (List.length teams)) in Ht, Ht'.
    apply filter_In in Ht as [Ht _]. apply filter_In in Ht' as [Ht' _].
    destruct (poolSize_spec (List.length teams)) as (h & Eh & _ & Hh).
    rewrite Eh in Ht, Ht'.
    assert (H1 : 1 <= h) by (apply Hh; lia).
    destruct (seated_pairs_valid h t H1 Ht) as (_ & _ & _ & _ & m & Hm & Et).
    destruct (seated_pairs_valid h t' H1 Ht') as (_ & _ & _ & _ & m' & Hm' & Et').
    assert (Er : fst t = fst t') by lia.
    destruct t as [r0 p], t' as [r1 p']. cbn [fst snd] in *. subst r1.
    f_equal. subst p p'.
    unfold seats, seating in Hs, Hs'. cbn [fst snd] in Hs, Hs'.
    apply orb_prop in Hs, Hs'. rewrite !Nat.eqb_eq in Hs, Hs'.
    assert (m = m'); [|now subst].
    destruct Hs as [Hs|Hs], Hs' as [Hs'|Hs']; rewrite <- Hs' in Hs;
      apply index_pool_injective in Hs; lia.
Qed.

Lemma opponents_of_position (i : nat) :
  i < List.length teams ->
  List.length (filter (fun t => seats i (snd t)) (playedSeatings (List.length teams)))
  = List.length teams - 1.
Proof.
  intros Hi.
  set (n := List.length teams).
  rewrite <- (length_others n i Hi).
  rewrite <- (length_map (fun t : nat * (nat * nat) => normPair (snd t))
                (filter (fun t => seats i (snd t)) (playedSeatings n))).
  rewrite <- (length_map (fun j => normPair (i, j))
                (filter (fun j => negb (j =? i)) (seq 0 n))).
  apply Permutation_length, NoDup_Permutation.
  - apply NoDup_map_filter. apply (played_pairs_NoDup teams enough_teams).
  - apply NoDup_map_injective.
    + intros j j' Hj Hj' E. apply filter_In in Hj as [_ Hj].
      apply filter_In in Hj' as [_ Hj'].
      apply negb_true_iff, Nat.eqb_neq in Hj. apply negb_true_iff, Nat.eqb_neq in Hj'.
      apply normPair_iff in E. lia.
    + apply NoDup_filter, seq_NoDup.
  - intros x. rewrite !in_map_iff. split.
    + intros (t & <- & Ht). apply filter_In in Ht as [Ht Hs].
      destruct (playedSeatings_valid teams enough_teams t Ht) as (_ & Hne & H1 & H2).
      unfold seats in Hs. apply orb_prop in Hs. rewrite !Nat.eqb_eq in Hs.
      destruct t as [r [a b]]. cbn [fst snd] in *.
      destruct Hs as [-> | ->].
      * exists b. split; [reflexivity|]. apply filter_In. split.
        -- apply in_seq. fold n. lia.
        -- apply negb_true_iff, Nat.eqb_neq. auto.
      * exists a. split; [apply normPair_iff; auto|]. apply filter_In. split.
        -- apply in_seq. fold n. lia.
        -- apply negb_true_iff, Nat.eqb_neq. auto.
    + intros (j & <- & Hj). apply filter_In in Hj as [Hj Hne].
      apply in_seq in Hj. apply negb_true_iff, Nat.eqb_neq in Hne.
      assert (Hin : In (Nat.min i j, Nat.max i j)
                       (map (fun t : nat * (nat * nat) => normPair (snd t))
                          (playedSeatings n))).
      { apply (played_pairs_complete teams enough_teams). fold n. lia. }
      apply in_map_iff in Hin as (t & Et & Ht).
      exists t. split; [exact Et|]. apply filter_In. split; [exact Ht|].
      destruct t as [r [a b]]. cbn [fst snd] in *.
      change (Nat.min i j, Nat.max i j) with (normPair (i, j)) in Et.
      apply normPair_iff in Et. unfold seats. cbn [fst snd].
      apply orb_true_iff. rewrite !Nat.eqb_eq. lia.
Qed.

Lemma position_of_team (a : Team.t) :
  In a teams -> exists i, i < List.length teams /\ idAt teams i = Team.id a.
Proof.
  intros Ha. destruct (In_nth teams a byeTeam Ha) as (i & Hi & Ei).
  exists i. split; [exact Hi|]. unfold idAt. now rewrite Ei.
Qed.

(** X18: in the schedule generated for two or more teams with distinct
    ids, none of them ['BYE'], every team has exactly [n - 1] matches and
    never two in the same round. *)
Theorem team_plays_all_others_once_a_round (a : Team.t) (Ha : In a teams) :
  let matches := generateMatches e teams stadiums in
  List.length (filter (involves (Team.id a)) matches) = List.length teams - 1
  /\ forall r,
       List.length (filter (fun m => (Match.round m =? r) && involves (Team.id a) m)
                      matches) <= 1.
Proof.
  cbv zeta. destruct (position_of_team a Ha) as (i & Hi & <-). split.
  - pose proof (matches_of_position i (fun _ => true) Hi) as H.
    cbn [andb] in H. rewrite <- (opponents_of_position i Hi), <- H.
    f_equal.
  - intros r. rewrite (matches_of_position i (fun x => x =? r) Hi).
    apply one_seating_per_round.
Qed.

End TeamFixtures.

Lemma team_plays_all_others_once_a_round_witness :
  (2 <= List.length [lions; tigers; bears])%nat
  /\ List.length (filter (involves (Team.id lions))
                    (generateMatches firstRun [lions; tigers; bears] [oval; lords]))
     = (List.length [lions; tigers; bears] - 1)%nat.
Proof.
  assert (H2 : (2 <= List.length [lions; tigers; bears])%nat) by (simpl; lia).
  split; [exact H2|].
  refine (proj1 (team_plays_all_others_once_a_round firstRun [lions; tigers; bears]
                   [oval; lords] H2 _ _ lions _)).
  - simpl. intros t [<- | [<- | [<- | []]]]; discriminate.
  - simpl. repeat constructor; simpl; intuition discriminate.
  - simpl. auto.
Defined.

(* ================================================================== *)
(** ** The saved tournaments *)
(* ================================================================== *)

Lemma filter_all {X : Type} (p : X -> bool) (l : list X) :
  (forall x, In x l -> p x = true) -> filter p l = l.
Proof.
  induction l as [|x l IH]; simpl; intros H; [reflexivity|].
  rewrite (H x (or_introl eq_refl)). f_equal. apply IH. auto.
Qed.

(** X19: [handleUpdateTournament] puts the updated tournament in the place
    of every saved tournament with its id and touches no other one: ids,
    number and order of the saved tournaments stay, a look-up by the id
    finds the updated tournament if it found one before, and the
    workspace shows the updated tournament. *)
Theorem update_replaces_by_id (updated : Tournament.t) (app : App.t) :
  let app' := handleUpdateTournament updated app in
  let byId id := fun t => (Tournament.id t =? id)%string in
  map Tournament.id (App.tournaments app') = map Tournament.id (App.tournaments app)
  /\ (forall i t, nth_error (App.tournaments app) i = Some t ->
        nth_error (App.tournaments app') i
        = Some (if byId (Tournament.id updated) t then updated else t))
  /\ find (byId (Tournament.id updated)) (App.tournaments app')
     = option_map (fun _ => updated)
         (find (byId (Tournament.id updated)) (App.tournaments app))
  /\ (forall id, id <> Tournament.id updated ->
        find (byId id) (App.tournaments app') = find (byId id) (App.tournaments app))
  /\ App.selectedTournament app' = Some updated
  /\ App.activeView app' = App.activeView app
  /\ App.activeMainTab app' = App.activeMainTab app.
Proof.
  cbv zeta. unfold handleUpdateTournament. cbn [App.tournaments App.selectedTournament
    App.activeView App.activeMainTab].
  split; [|split; [|split; [|split; [|repeat split]]]].
  - rewrite map_map. apply map_ext. intros t.
    destruct (String.eqb_spec (Tournament.id t) (Tournament.id updated)); congruence.
  - intros i t H. rewrite nth_error_map, H. reflexivity.
  - induction (App.tournaments app) as [|t l IH]; [reflexivity|]. cbn [map find].
    destruct (String.eqb_spec (Tournament.id t) (Tournament.id updated)) as [E|E].
    + rewrite String.eqb_refl. reflexivity.
    + apply String.eqb_neq in E. rewrite E. exact IH.
  - intros id Hid. induction (App.tournaments app) as [|t l IH]; [reflexivity|].
    cbn [map find].
    destruct (String.eqb_spec (Tournament.id t) (Tournament.id updated)) as [E|E].
    + assert (E1 : (Tournament.id updated =? id)%string = false)
        by (apply String.eqb_neq; congruence).
      assert (E2 : (Tournament.id t =? id)%string = false)
        by (apply String.eqb_neq; congruence).
      rewrite E1, E2. exact IH.
    + destruct (Tournament.id t =? id)%string; [reflexivity|exact IH].
Qed.

(** X20: the button of the delete dialog removes nothing unless the name
    typed equals the name of the first saved tournament with the pending
    id; a mismatch only raises the alert.  On a match every saved
    tournament with that id is removed, the others stay in their order
    and the dialog closes. *)
Theorem delete_needs_the_name (l : ManageList.t) (app : App.t) (id : string)
    (t0 : Tournament.t)
    (Hpending : ManageList.deleteConfirmId l = Some id)
    (Hid : id <> ""%string)
    (Hfound : find (fun t => (Tournament.id t =? id)%string) (App.tournaments app)
              = Some t0) :
  let st' := confirmDeleteClick (l, app) in
  (ManageList.confirmName l <> Tournament.name t0 ->
   snd st' = app
   /\ ManageList.deleteConfirmId (fst st') = Some id
   /\ ManageList.alerts (fst st') = ManageList.alerts l ++ [nameMismatchMessage])
  /\ (ManageList.confirmName l = Tournament.name t0 ->
      App.tournaments (snd st')
      = filter (fun t => negb (Tournament.id t =? id)%string) (App.tournaments app)
      /\ (forall t, In t (App.tournaments (snd st')) <->
                    In t (App.tournaments app) /\ Tournament.id t <> id)
      /\ (List.length (App.tournaments (snd st')) < List.length (App.tournaments app))%nat
      /\ ManageList.deleteConfirmId (fst st') = None
      /\ ManageList.alerts (fst st') = ManageList.alerts l).
Proof.
  cbv zeta. unfold confirmDeleteClick. cbn [fst snd]. rewrite Hpending.
  apply String.eqb_neq in Hid. rewrite Hid, Hfound.
  pose proof (find_some _ _ Hfound) as [Hin0 Hid0]. apply String.eqb_eq in Hid0.
  unfold finalizeDelete. split.
  - intros Hne. apply String.eqb_neq in Hne. rewrite Hne. cbn [fst snd].
    rewrite Hpending. repeat split.
  - intros Heq. apply String.eqb_eq in Heq. rewrite Heq. cbn [fst snd].
    unfold handleDeleteTournament. cbn [App.tournaments ManageList.deleteConfirmId
      ManageList.alerts]. rewrite Hid0.
    split; [reflexivity|]. split; [|split; [|split; reflexivity]].
    + intros t. rewrite filter_In, negb_true_iff, String.eqb_neq. tauto.
    + clear Hfound. induction (App.tournaments app) as [|t ts IH]; [contradiction|].
      cbn [filter List.length].
      pose proof (filter_length_le (fun t => negb (Tournament.id t =? id)%string) ts) as Hle.
      destruct Hin0 as [-> | Hin0].
      * rewrite Hid0, String.eqb_refl. cbn [negb]. lia.
      * specialize (IH Hin0).
        destruct (negb (Tournament.id t =? id)%string); cbn [List.length]; lia.
Qed.

Lemma delete_needs_the_name_witness :
  let app := App.mk [cup [lions; tigers] [] [] []] MAIN MANAGE None in
  let l := ManageList.mk (Some "1700000000000"%string) "CUP" [] in
  ManageList.confirmName l = Tournament.name (cup [lions; tigers] [] [] [])
  /\ App.tournaments (snd (confirmDeleteClick (l, app))) = [].
Proof.
  cbv zeta. split; [reflexivity|].
  assert (Hid : "1700000000000"%string <> ""%string) by discriminate.
  destruct (delete_needs_the_name
              (ManageList.mk (Some "1700000000000"%string) "CUP" [])
              (App.mk [cup [lions; tigers] [] [] []] MAIN MANAGE None)
              "1700000000000" (cup [lions; tigers] [] [] [])
              eq_refl Hid eq_refl) as [_ H].
  destruct (H eq_refl) as [H1 _]. rewrite H1. reflexivity.
Defined.

(** X21: creating a tournament appends it to the saved ones and shows the
    list; deleting by its id afterwards gives back the saved tournaments
    as they were, provided no saved tournament had the same id (the id
    is the clock reading at submission; an older tournament with the
    same id is deleted with it). *)
Theorem delete_undoes_create (created : Tournament.t) (app : App.t) :
  let app' := handleCreateTournament created app in
  let app'' := handleDeleteTournament (Tournament.id created) app' in
  App.tournaments app' = App.tournaments app ++ [created]
  /\ App.activeMainTab app' = MANAGE
  /\ App.tournaments app''
     = filter (fun t => negb (Tournament.id t =? Tournament.id created)%string)
         (App.tournaments app)
  /\ ((forall t, In t (App.tournaments app) -> Tournament.id t <> Tournament.id created) ->
      App.tournaments app'' = App.tournaments app).
Proof.
  cbv zeta. unfold handleDeleteTournament, handleCreateTournament.
  cbn [App.tournaments App.activeMainTab].
  assert (H : filter (fun t => negb (Tournament.id t =? Tournament.id created)%string)
                (App.tournaments app ++ [created])
              = filter (fun t => negb (Tournament.id t =? Tournament.id created)%string)
                  (App.tournaments app)).
  { rewrite filter_app. cbn [filter]. rewrite String.eqb_refl. cbn [negb].
    apply app_nil_r. }
  repeat split.
  - exact H.
  - intros Hfresh. rewrite H. apply filter_all. intros t Ht.
    apply negb_true_iff, String.eqb_neq. auto.
Qed.

(* ================================================================== *)
(** ** The creation form *)
(* ================================================================== *)

Section FormFacts.

Local Open Scope nat_scope.

Lemma slot_id_injective (i j : nat) :
  ("team-" ++ JS.show_nat i)%string = ("team-" ++ JS.show_nat j)%string -> i = j.
Proof. simpl. intros [= E]. now apply show_nat_injective. Qed.

Lemma slotIds_NoDup (k : nat) : NoDup (slotIds k).
Proof.
  unfold slotIds. apply NoDup_map_injective; [|apply seq_NoDup].
  intros i j _ _. apply slot_id_injective.
Qed.

Lemma slotIds_no_bye (k : nat) : ~ In "BYE"%string (slotIds k).
Proof.
  unfold slotIds. rewrite in_map_iff. intros (i & E & _). simpl in E. discriminate.
Qed.

Lemma mapi_keeps {A B : Type} (h : A -> B) (g : A -> nat -> A) (l : list A) :
  (forall t i, h (g t i) = h t) -> map h (mapi g l) = map h l.
Proof.
  intros Hg. unfold mapi. generalize 0.
  induction l as [|t l IH]; intros start; simpl; [reflexivity|].
  now rewrite Hg, IH.
Qed.

Lemma mapi_nth_error {A : Type} (g : A -> nat -> A) (l : list A) (i : nat) :
  nth_error (mapi g l) i = option_map (fun t => g t i) (nth_error l i).
Proof.
  unfold mapi.
  assert (H : forall start,
             nth_error (map (fun p => g (snd p) (fst p))
                          (combine (seq start (List.length l)) l)) i
             = option_map (fun t => g t (start + i)) (nth_error l i)).
  { revert i. induction l as [|t l IH]; intros i start; simpl.
    - destruct i; reflexivity.
    - destruct i as [|i]; simpl.
      + now rewrite Nat.add_0_r.
      + rewrite IH. now rewrite Nat.add_succ_r. }
  apply H.
Qed.

(** X22: after the number of teams is set, the form holds as many team
    slots as the integer part of the number, with the ids
    [team-0], [team-1], ..., which differ from each other and from
    ['BYE']; the names typed before are kept in the slots that remain and
    new slots have the empty name.  Filling in generated names or typing
    a name changes no id. *)
Theorem team_slots_keep_what_was_typed (value : JS.number) (f : Form.t) :
  let f' := setNumTeams value f in
  let k := toLength value in
  List.length (Form.teams f') = k
  /\ map Team.id (Form.teams f') = slotIds k
  /\ NoDup (slotIds k)
  /\ ~ In "BYE"%string (slotIds k)
  /\ (forall i t, i < k -> nth_error (Form.teams f) i = Some t ->
        exists t', nth_error (Form.teams f') i = Some t' /\ Team.name t' = Team.name t)
  /\ (forall i t', List.length (Form.teams f) <= i ->
        nth_error (Form.teams f') i = Some t' -> Team.name t' = ""%string)
  /\ map Team.id (Form.teams (fillAiTeams f')) = slotIds k
  /\ forall i name,
       map Team.id (Form.teams (setTeamName i name f')) = slotIds k
       /\ (i < k ->
           option_map Team.name (nth_error (Form.teams (setTeamName i name f')) i)
           = Some name).
Proof.
  cbv zeta. unfold setNumTeams, slotEffect, setTeams.
  cbn [Form.teams Form.numTeams].
  set (k := toLength value).
  set (slots := map (teamSlot (Form.teams f)) (seq 0 k)).
  assert (Hlen : List.length slots = k).
  { unfold slots. now rewrite length_map, length_seq. }
  assert (Hids : map Team.id slots = slotIds k).
  { unfold slots, slotIds. rewrite map_map. reflexivity. }
  assert (Hnth : forall i, i < k -> nth_error slots i = Some (teamSlot (Form.teams f) i)).
  { intros i Hi. unfold slots. rewrite nth_error_map.
    rewrite (nth_error_nth' (seq 0 k) 0) by (rewrite length_seq; exact Hi).
    rewrite seq_nth by exact Hi. reflexivity. }
  split; [exact Hlen|]. split; [exact Hids|].
  split; [apply slotIds_NoDup|]. split; [apply slotIds_no_bye|].
  split; [|split; [|split]].
  - intros i t Hi Ht. exists (teamSlot (Form.teams f) i).
    split; [now apply Hnth|]. unfold teamSlot. cbn [Team.name]. now rewrite Ht.
  - intros i t' Hi Ht'.
    assert (Hik : i < k).
    { rewrite <- Hlen. apply nth_error_Some. congruence. }
    rewrite (Hnth i Hik) in Ht'. injection Ht' as <-.
    unfold teamSlot. cbn [Team.name].
    now rewrite (proj2 (nth_error_None (Form.teams f) i) Hi).
  - unfold fillAiTeams, setTeams. cbn [Form.teams].
    rewrite mapi_keeps; [exact Hids|reflexivity].
  - intros i name. unfold setTeamName, setTeams. cbn [Form.teams]. split.
    + rewrite mapi_keeps; [exact Hids|].
      intros t j. destruct (j =? i); reflexivity.
    + intros Hi. rewrite mapi_nth_error, (Hnth i Hi). cbn [option_map].
      now rewrite Nat.eqb_refl.
Qed.

Lemma pairs_product_even (k : nat) : 2 * (k * (k - 1) / 2) = k * (k - 1).
Proof.
  destruct (Nat.Even_or_Odd k) as [[c ->] | [c ->]].
  - replace (2 * c * (2 * c - 1)) with ((c * (2 * c - 1)) * 2) by lia.
    rewrite Nat.div_mul by lia. lia.
  - replace ((2 * c + 1) * (2 * c + 1 - 1)) with (((2 * c + 1) * c) * 2) by lia.
    rewrite Nat.div_mul by lia. lia.
Qed.

Lemma pairs_as_number (k : nat) (N : Q) :
  1 <= k -> (N == inject_Z (Z.of_nat k))%Q ->
  ((N * (N - 1)) / 2 == inject_Z (Z.of_nat (k * (k - 1) / 2)))%Q
  /\ (N * (N - 1) == 2 * inject_Z (Z.of_nat (k * (k - 1) / 2)))%Q.
Proof.
  intros Hk HN.
  assert (H : (2 * inject_Z (Z.of_nat (k * (k - 1) / 2))
               == inject_Z (Z.of_nat k) * (inject_Z (Z.of_nat k) - 1))%Q).
  { change 2%Q with (inject_Z 2). change 1%Q with (inject_Z 1).
    unfold Qminus. rewrite <- inject_Z_opp, <- inject_Z_plus, <- !inject_Z_mult.
    apply inject_Z_injective.
    rewrite <- (Nat2Z.inj_mul 2), pairs_product_even.
    rewrite Nat2Z.inj_mul, Nat2Z.inj_sub by exact Hk. reflexivity. }
  rewrite HN. split.
  - rewrite <- H. field.
  - now rewrite H.
Qed.

Variable trim : string -> string.
Variable now : Z.
Variable today : string.

Lemma handleSubmit_tournament (f : Form.t) (T : Tournament.t) :
  handleSubmit trim now today f = inr T ->
  Tournament.teams T = Form.teams f /\ Tournament.matches T = []
  /\ Tournament.penalties T = [] /\ Tournament.stadiums T = Form.stadiums f
  /\ Tournament.name T = Form.name f
  /\ trim (Form.name f) <> ""%string
  /\ forall t, In t (Form.teams f) -> trim (Team.name t) <> ""%string.
Proof.
  unfold handleSubmit.
  destruct (trim (Form.name f) =? "")%string eqn:E1; [discriminate|].
  destruct (existsb _ (Form.teams f)) eqn:E2; [discriminate|].
  intros [= <-]. cbn. repeat split.
  - now apply String.eqb_neq.
  - intros t Ht E. apply not_true_iff_false in E2. apply E2.
    apply existsb_exists. exists t. split; [exact Ht|now apply String.eqb_eq].
Qed.

(** X23: a tournament that [handleSubmit] passes on has the teams of the
    form, no match and no penalty; its name and team names are not
    blank.  With fewer than two team slots the schedule generator only
    raises its alert; with [k >= 2] slots it produces [k (k - 1) / 2]
    matches, [k - 1] for every team, whatever schedule format was
    chosen: when the number of teams entered is the integer [k], the
    figure the form previews for a single round robin, and half the
    figure it previews for a double round robin. *)
Theorem created_tournament_schedule (e : Env.t) (f : Form.t) (T : Tournament.t)
    (ui : UI.t)
    (Hslots : map Team.id (Form.teams f) = slotIds (List.length (Form.teams f)))
    (Hsubmit : handleSubmit trim now today f = inr T)
    (Hopen : UI.tournament ui = T) :
  let k := List.length (Form.teams f) in
  let ui' := handleGenerateSchedule e ui in
  let matches := Tournament.matches (UI.tournament ui') in
  Tournament.teams T = Form.teams f /\ Tournament.matches T = []
  /\ trim (Tournament.name T) <> ""%string
  /\ (k < 2 -> UI.tournament ui' = T
               /\ UI.alerts ui' = UI.alerts ui ++ [insufficientTeamsMessage])
  /\ (2 <= k ->
      List.length matches = k * (k - 1) / 2
      /\ (forall a, In a (Form.teams f) ->
                    List.length (filter (involves (Team.id a)) matches) = k - 1)
      /\ ((Form.numTeams f == inject_Z (Z.of_nat k))%Q ->
          (includes (Form.scheduleFormat f) "SINGLE ROUND ROBIN" = true ->
           exists q, calcMatches f = Count q
                     /\ (q == inject_Z (Z.of_nat (List.length matches)))%Q)
          /\ (Form.scheduleFormat f = "DOUBLE ROUND ROBIN (DRR)"%string ->
              exists q, calcMatches f = Count q
                        /\ (q == 2 * inject_Z (Z.of_nat (List.length matches)))%Q))).
Proof.
  cbv zeta.
  destruct (handleSubmit_tournament f T Hsubmit) as (Hteams & Hmatches & _ & _ & Hname & Hn & _).
  split; [exact Hteams|]. split; [exact Hmatches|].
  split; [now rewrite Hname|].
  unfold handleGenerateSchedule. rewrite Hopen, Hteams.
  split.
  - intros Hk. apply Nat.ltb_lt in Hk. rewrite Hk. cbn [UI.tournament UI.alerts].
    split; reflexivity.
  - intros Hk. pose proof Hk as Hk'. apply Nat.ltb_ge in Hk'. rewrite Hk'.
    cbn [UI.tournament withSchedule Tournament.matches].
    set (teams := Form.teams f) in *.
    assert (Hbye : forall t, In t teams -> Team.id t <> "BYE"%string).
    { intros t Ht E. apply (slotIds_no_bye (List.length teams)).
      rewrite <- Hslots, <- E. now apply in_map. }
    assert (Hnd : NoDup (map Team.id teams)).
    { rewrite Hslots. apply slotIds_NoDup. }
    assert (Hcount : List.length (generateMatches e teams (Tournament.stadiums T))
                     = List.length teams * (List.length teams - 1) / 2).
    { rewrite <- (length_map fixture), (generated_fixtures e teams _ Hbye), length_map.
      now apply playedSeatings_length. }
    split; [exact Hcount|]. split.
    + intros a Ha. destruct (In_nth teams a byeTeam Ha) as (i & Hi & Ei).
      assert (Eid : idAt teams i = Team.id a) by (unfold idAt; now rewrite Ei).
      rewrite <- Eid.
      transitivity
        (List.length
           (filter (fun m => (fun _ : nat => true) (Match.round m)
                             && involves (idAt teams i) m)
                   (generateMatches e teams (Tournament.stadiums T))));
        [reflexivity|].
      rewrite (matches_of_position e teams (Tournament.stadiums T) Hk Hbye Hnd i
                 (fun _ => true) Hi).
      exact (opponents_of_position teams Hk i Hi).
    + intros HN. rewrite Hcount.
      destruct (pairs_as_number (List.length teams) (Form.numTeams f)) as [H1 H2];
        [lia|exact HN|].
      split.
      * intros Hsrr. unfold calcMatches. rewrite Hsrr. eexists. split; [reflexivity|].
        exact H1.
      * intros Hdrr. unfold calcMatches. rewrite Hdrr.
        replace (includes "DOUBLE ROUND ROBIN (DRR)" "SINGLE ROUND ROBIN") with false
          by (vm_compute; reflexivity).
        replace (includes "DOUBLE ROUND ROBIN (DRR)" "DOUBLE ROUND ROBIN") with true
          by (vm_compute; reflexivity).
        eexists. split; [reflexivity|]. exact H2.
Qed.

End FormFacts.

Lemma created_tournament_schedule_witness :
  handleSubmit trimBlanks 1700000000000 "1/1/2026" threeTeamForm = inr submitted
  /\ List.length
       (Tournament.matches
          (UI.tournament (handleGenerateSchedule firstRun (screen submitted))))
     = (3 * (3 - 1) / 2)%nat.
Proof.
  assert (Hsubmit : handleSubmit trimBlanks 1700000000000 "1/1/2026" threeTeamForm
                    = inr submitted) by (vm_compute; reflexivity).
  split; [exact Hsubmit|].
  assert (Hslots : map Team.id (Form.teams threeTeamForm)
                   = slotIds (List.length (Form.teams threeTeamForm)))
    by (vm_compute; reflexivity).
  destruct (created_tournament_schedule trimBlanks 1700000000000 "1/1/2026" firstRun
              threeTeamForm submitted (screen submitted) Hslots Hsubmit eq_refl)
    as (_ & _ & _ & _ & H).
  assert (H2 : (2 <= List.length (Form.teams threeTeamForm))%nat)
    by (vm_compute; lia).
  exact (proj1 (H H2)).
Defined.

(* ================================================================== *)
(** ** The two copies of the standings *)
(* ================================================================== *)

Lemma fold_left_fst {S L M : Type} (f : S * L -> M -> S * L) (g : S -> M -> S)
    (ms : list M) :
  (forall a l m, fst (f (a, l) m) = g a m) ->
  forall a l, fst (fold_left f ms (a, l)) = fold_left g ms a.
Proof.
  intros H. induction ms as [|m ms IH]; intros a l; simpl; [reflexivity|].
  specialize (H a l m). destruct (f (a, l) m) as [a' l']. simpl in H. subst a'.
  apply IH.
Qed.

(** X24: the standings of the component and of its older copy give every
    team the same matches played, won, lost, tied and without result, the
    same points and the same form; they can differ in the net run rate
    only. *)
Theorem copies_agree_but_for_run_rate (tournament : Tournament.t) (team : Team.t) :
  let s := Workspace.teamStanding tournament team in
  let s' := WorkspaceCopy.teamStanding tournament team in
  Standing.mp s = Standing.mp s' /\ Standing.mw s = Standing.mw s'
  /\ Standing.ml s = Standing.ml s' /\ Standing.mt s = Standing.mt s'
  /\ Standing.nr s = Standing.nr s' /\ Standing.pts s = Standing.pts s'
  /\ Standing.form s = Standing.form s' /\ Standing.name s = Standing.name s'.
Proof.
  cbv zeta. unfold Workspace.teamStanding, WorkspaceCopy.teamStanding,
    Workspace.aggregate, WorkspaceCopy.aggregate.
  set (config := Tournament.config tournament).
  set (ms := filter (playedBy team) (Tournament.matches tournament)).
  set (g := fun (a : Acc.t) (m : Match.t) =>
              recordResult config (Match.team1Id m =? Team.id team)%string
                (Match.resultType m) (played a)).
  assert (H1 : fst (fold_left (Workspace.processMatch config team) ms
                      (Acc.initial, Workspace.mkLedger 0 0 0 0))
               = fold_left g ms Acc.initial).
  { apply fold_left_fst. intros a l m. unfold Workspace.processMatch.
    destruct (ledgerGuard m); reflexivity. }
  assert (H2 : fst (fold_left (WorkspaceCopy.processMatch config team) ms
                      (Acc.initial, WorkspaceCopy.mkLedger 0 (Some 0) 0 (Some 0)))
               = fold_left g ms Acc.initial).
  { apply fold_left_fst. intros a l m. unfold WorkspaceCopy.processMatch.
    destruct (ledgerGuard m); reflexivity. }
  destruct (fold_left (Workspace.processMatch config team) ms _) as [a l].
  destruct (fold_left (WorkspaceCopy.processMatch config team) ms _) as [a' l'].
  cbn [fst] in H1, H2. rewrite H1, H2. cbn. repeat split.
Qed.

Lemma copy_overs_lost (config : TournamentConfig.t) (team : Team.t) (ms : list Match.t) :
  forall a l,
    WorkspaceCopy.tf l = None ->
    WorkspaceCopy.tf (snd (fold_left (WorkspaceCopy.processMatch config team) ms (a, l)))
    = None.
Proof.
  induction ms as [|m ms IH]; intros a l Hl; simpl; [exact Hl|].
  destruct (ledgerGuard m); apply IH; [|exact Hl].
  unfold WorkspaceCopy.ledger. cbn [WorkspaceCopy.tf]. now rewrite Hl.
Qed.

(** X25: in the older copy, one completed match of a team that passes the
    guard of the run-rate ledger with both run totals but without the
    overs of the team, the team not being all out, makes the team's net
    run rate zero, whatever its other matches. *)
Theorem copy_run_rate_lost_without_overs
    (tournament : Tournament.t) (team : Team.t) (m : Match.t)
    (Hin : In m (Tournament.matches tournament))
    (Hplayed : playedBy team m = true)
    (Hguard : ledgerGuard m = true)
    (Hovers : (if (Match.team1Id m =? Team.id team)%string
               then Match.t1Overs m else Match.t2Overs m) = None)
    (Hwickets : forall w,
        (if (Match.team1Id m =? Team.id team)%string
         then Match.t1Wickets m else Match.t2Wickets m) = Some w -> ~ w == 10) :
  Standing.nrr (WorkspaceCopy.teamStanding tournament team) = 0.
Proof.
  unfold WorkspaceCopy.teamStanding, WorkspaceCopy.aggregate.
  set (config := Tournament.config tournament).
  assert (Hm : In m (filter (playedBy team) (Tournament.matches tournament)))
    by (apply filter_In; auto).
  assert (H : forall ms a l,
             In m ms ->
             WorkspaceCopy.tf
               (snd (fold_left (WorkspaceCopy.processMatch config team) ms (a, l)))
             = None).
  { induction ms as [|x ms IH]; intros a l Hx; [contradiction|].
    destruct Hx as [-> | Hx]; simpl.
    - rewrite Hguard. apply copy_overs_lost.
      unfold WorkspaceCopy.ledger. cbn [WorkspaceCopy.tf].
      assert (E : WorkspaceCopy.trueOvers config
                    (if (Match.team1Id m =? Team.id team)%string
                     then Match.t1Wickets m else Match.t2Wickets m)
                    (if (Match.team1Id m =? Team.id team)%string
                     then Match.t1Overs m else Match.t2Overs m) = None).
      { rewrite Hovers. unfold WorkspaceCopy.trueOvers.
        destruct (if (Match.team1Id m =? Team.id team)%string
                  then Match.t1Wickets m else Match.t2Wickets m) as [w|] eqn:W;
          [|reflexivity].
        unfold JS.num_eq. destruct (Qeq_bool w 10) eqn:Q; [|reflexivity].
        apply Qeq_bool_iff in Q. destruct (Hwickets w eq_refl Q). }
      rewrite E. destruct (WorkspaceCopy.tf l); reflexivity.
    - destruct (ledgerGuard x); now apply IH. }
  specialize (H _ Acc.initial (WorkspaceCopy.mkLedger 0 (Some 0) 0 (Some 0)) Hm).
  destruct (fold_left _ _ _) as [a l]. cbn [snd] in H.
  cbn [Standing.nrr]. unfold WorkspaceCopy.ledgerRunRate. now rewrite H.
Qed.

Lemma copy_run_rate_lost_without_overs_witness :
  In runsOnly (Tournament.matches (cup [lions; tigers] [] [chase; runsOnly] []))
  /\ playedBy lions runsOnly = true
  /\ Standing.nrr (WorkspaceCopy.teamStanding
                     (cup [lions; tigers] [] [chase; runsOnly] []) lions) = 0.
Proof.
  assert (Hin : In runsOnly
                  (Tournament.matches (cup [lions; tigers] [] [chase; runsOnly] [])))
    by (simpl; auto).
  split; [exact Hin|]. split; [reflexivity|].
  apply (copy_run_rate_lost_without_overs _ lions runsOnly Hin eq_refl eq_refl eq_refl).
  intros w Hw. discriminate Hw.
Defined.

(* ================================================================== *)
(** ** From the schedule to the first result *)
(* ================================================================== *)

Lemma count_status_app (s : MatchStatus) (l1 l2 : list Match.t) :
  List.length (filter (hasStatus s) (l1 ++ l2))
  = (List.length (filter (hasStatus s) l1) + List.length (filter (hasStatus s) l2))%nat.
Proof. now rewrite filter_app, length_app. Qed.

Lemma none_with_status (s : MatchStatus) (l : list Match.t) :
  s <> NOT_STARTED ->
  Forall (fun m => Match.status m = NOT_STARTED) l ->
  filter (hasStatus s) l = [].
Proof.
  intros Hs. induction 1 as [|m l Hm _ IH]; [reflexivity|].
  simpl. unfold hasStatus at 1. rewrite Hm.
  destruct s; try contradiction; simpl; exact IH.
Qed.

(** X26: on a schedule just generated for two teams or more, opening the
    scorecard of any match and saving it completes that match and no
    other: the dashboard then counts one completed match, none ongoing
    and the rest remaining, the settings are locked, the fixtures are the
    ones generated and the dialog is closed. *)
Theorem first_result_on_a_generated_schedule
    (e : Env.t) (ui0 : UI.t) (loForm : LoForm.t) (m : Match.t)
    (enough_teams : (2 <= List.length (Tournament.teams (UI.tournament ui0)))%nat)
    (Hin : In m (Tournament.matches (UI.tournament (handleGenerateSchedule e ui0)))) :
  let ui := handleGenerateSchedule e ui0 in
  let ui' := saveMatchResult loForm (snd (openScorecard m ui)) in
  let d := dashboardCounts (UI.tournament ui') in
  (exists earlier later,
      Tournament.matches (UI.tournament ui) = earlier ++ m :: later
      /\ Tournament.matches (UI.tournament ui')
         = earlier ++ updatedMatch loForm m :: later)
  /\ Dashboard.total d = Dashboard.total (dashboardCounts (UI.tournament ui))
  /\ Dashboard.completed d = 1%Z
  /\ Dashboard.ongoing d = 0%Z
  /\ Dashboard.remaining d = (Dashboard.total d - 1)%Z
  /\ isLocked (UI.tournament ui') = true
  /\ map fixture (Tournament.matches (UI.tournament ui'))
     = map fixture (Tournament.matches (UI.tournament ui))
  /\ pendingMatchId ui' = None.
Proof.
  cbv zeta. revert Hin. unfold handleGenerateSchedule.
  pose proof enough_teams as Hn. apply Nat.ltb_ge in Hn. rewrite Hn.
  cbn [UI.tournament withSchedule Tournament.matches].
  set (teams := Tournament.teams (UI.tournament ui0)).
  set (stadiums := Tournament.stadiums (UI.tournament ui0)).
  intros Hin.
  pose proof (generated_ids_NoDup e stadiums teams) as Hnd.
  pose proof (generated_ids_truthy e stadiums teams) as Hids.
  pose proof (generated_not_started e teams stadiums) as Hfresh.
  rewrite Forall_forall in Hids. pose proof (Hids m Hin) as Hid.
  apply String.eqb_neq in Hid.
  destruct (in_split _ _ Hin) as (earlier & later & Esplit).
  unfold saveMatchResult, openScorecard, pendingMatchId.
  cbn [snd UI.confirmingAction UI.tournament]. rewrite Hid.
  cbn [UI.tournament withResults withSchedule Tournament.matches UI.confirmingAction].
  rewrite Esplit in *.
  rewrite (replaceMatch_split loForm earlier later m Hnd).
  assert (Hparts : Forall (fun x => Match.status x = NOT_STARTED) earlier
                   /\ Forall (fun x => Match.status x = NOT_STARTED) later).
  { apply Forall_app in Hfresh as [H1 H2]. inversion H2 as [|? ? _ H3]; subst.
    split; (eapply Forall_impl; [|eassumption]); intros x [Hx _]; exact Hx. }
  destruct Hparts as [He Hl].
  split; [exists earlier, later; split; reflexivity|].
  unfold dashboardCounts, isLocked, withResults, withSchedule.
  cbn [Tournament.matches Dashboard.total Dashboard.completed
    Dashboard.ongoing Dashboard.remaining].
  assert (Hc : List.length (filter (hasStatus COMPLETED)
                              (earlier ++ updatedMatch loForm m :: later)) = 1%nat).
  { rewrite count_status_app. cbn [filter]. unfold hasStatus at 2.
    cbn [updatedMatch Match.status status_eqb List.length].
    rewrite !(none_with_status COMPLETED) by (assumption || discriminate).
    reflexivity. }
  assert (Ho : List.length (filter (hasStatus IN_PROGRESS)
                              (earlier ++ updatedMatch loForm m :: later)) = 0%nat).
  { rewrite count_status_app. cbn [filter]. unfold hasStatus at 2.
    cbn [updatedMatch Match.status status_eqb List.length].
    rewrite !(none_with_status IN_PROGRESS) by (assumption || discriminate).
    reflexivity. }
  rewrite Hc, Ho.
  split; [now rewrite !length_app|].
  split; [reflexivity|]. split; [reflexivity|]. split; [lia|].
  split.
  - apply existsb_exists.
    exists (updatedMatch loForm m). split; [apply in_elt|reflexivity].
  - split; [|reflexivity]. rewrite !map_app. reflexivity.
Qed.

Lemma first_result_on_a_generated_schedule_witness :
  let ui0 := screen (cup [lions; tigers; bears] [oval; lords] [] []) in
  let m := hd opener (Tournament.matches (UI.tournament (handleGenerateSchedule firstRun ui0))) in
  (2 <= List.length (Tournament.teams (UI.tournament ui0)))%nat
  /\ Dashboard.completed
       (dashboardCounts
          (UI.tournament
             (saveMatchResult lionsWin
                (snd (openScorecard m (handleGenerateSchedule firstRun ui0))))))
     = 1%Z.
Proof.
  cbv zeta.
  set (ui0 := screen (cup [lions; tigers; bears] [oval; lords] [] [])).
  set (m := hd opener (Tournament.matches (UI.tournament (handleGenerateSchedule firstRun ui0)))).
  assert (H2 : (2 <= List.length (Tournament.teams (UI.tournament ui0)))%nat)
    by (simpl; lia).
  assert (Hin : In m (Tournament.matches
                        (UI.tournament (handleGenerateSchedule firstRun ui0))))
    by (vm_compute; left; reflexivity).
  split; [exact H2|].
  destruct (first_result_on_a_generated_schedule firstRun ui0 lionsWin m H2 Hin)
    as (_ & _ & H & _).
  exact H.
Defined.
